(** * minicompiler: lexer, parser, semantic analyzer and IR builder

    A shallow embedding of the four front-end stages of the compiler
    (src/lexer/lexer.cpp, src/parser/parser.cpp,
    src/semantic/semantic_analyzer.cpp, src/ir/ir_builder.cpp) together
    with the data they exchange (tokens, AST, IR), followed by the
    properties of the specification that were checked against them.

    Conventions of the embedding:
    - a C++ [int] is a [Z]; arithmetic that the program performs on [int]
      counters ([line_], [column_], [labelCounter_], [tempCounter_]) is
      written without wrap-around, since signed overflow is undefined and
      needs more than 2^31 characters or AST nodes to be reached;
    - [std::string] is [string], [std::vector] is [list],
      [std::unordered_map<std::string, V>] is [gmap string V];
    - a [std::unique_ptr] that may be null is an [option];
    - [std::cerr] is a list of the lines written so far;
    - objects held through [std::shared_ptr] and mutated in place (basic
      blocks) live in an explicit store and are named by their index. *)

From Stdlib Require Import ZArith String Ascii List Lia DecimalString DecimalZ.
From stdpp Require Import gmap strings list.

Local Open Scope string_scope.
Local Open Scope list_scope.

(** ** common/token.h *)

Module TokenType.
Inductive t : Set :=
| INT | FLOAT | IF | ELSE | WHILE | RETURN | VOID
| IDENTIFIER | INTEGER_LITERAL | FLOAT_LITERAL | STRING_LITERAL
| PLUS | MINUS | MULTIPLY | DIVIDE | MODULO | ASSIGN
| EQUAL | NOT_EQUAL | LESS | LESS_EQUAL | GREATER | GREATER_EQUAL
| AND | OR | NOT
| SEMICOLON | COMMA | LEFT_PAREN | RIGHT_PAREN | LEFT_BRACE | RIGHT_BRACE
| LEFT_BRACKET | RIGHT_BRACKET
| END_OF_FILE | UNKNOWN.

#[global] Instance eq_dec : EqDecision t.
Proof. solve_decision. Defined.
End TokenType.

Record SourceLocation : Set := mkLoc { line : Z; column : Z }.

#[global] Instance SourceLocation_eq_dec : EqDecision SourceLocation.
Proof. solve_decision. Defined.

Record Token : Set := mkToken {
  type_ : TokenType.t;
  lexeme_ : string;
  location_ : SourceLocation
}.

#[global] Instance Token_eq_dec : EqDecision Token.
Proof. solve_decision. Defined.

(** [std::to_string] on an integer: its decimal numeral. *)
Definition to_string (z : Z) : string := NilZero.string_of_int (Z.to_int z).

(** ** lexer/lexer.h, lexer/lexer.cpp

    Characters are [ascii]; [std::isalpha], [std::isdigit] and
    [std::isalnum] are those of the C locale.  The loops of the scanner
    run on a count of the characters that are left, which bounds their
    iterations since each one consumes a character or stops. *)

Module Lexer.

Record t : Set := mk {
  source_ : string;
  start_ : nat;
  current_ : nat;
  line_ : Z;
  column_ : Z;
  tokens_ : list Token;
  cerr : list string
}.

(** [Lexer::Lexer(source)] *)
Definition new (source : string) : t := mk source 0 0 1 1 [] [].

(** The conversion to [int] of a [size_t] expression [column_ - n]: the
    difference modulo 2^32, read as a signed number. *)
Definition to_int (z : Z) : Z := ((z + 2 ^ 31) mod 2 ^ 32 - 2 ^ 31)%Z.

Definition keywords_ (text : string) : option TokenType.t :=
  if decide (text = "int") then Some TokenType.INT
  else if decide (text = "float") then Some TokenType.FLOAT
  else if decide (text = "if") then Some TokenType.IF
  else if decide (text = "else") then Some TokenType.ELSE
  else if decide (text = "while") then Some TokenType.WHILE
  else if decide (text = "return") then Some TokenType.RETURN
  else if decide (text = "void") then Some TokenType.VOID
  else None.

Definition NUL : ascii := "000"%char.
Definition TAB : ascii := "009"%char.
Definition LF : ascii := "010"%char.
Definition CR : ascii := "013"%char.
Definition QUOTE : ascii := "034"%char.

Definition in_range (lo hi c : ascii) : bool :=
  (nat_of_ascii lo <=? nat_of_ascii c)%nat && (nat_of_ascii c <=? nat_of_ascii hi)%nat.

Definition isdigit (c : ascii) : bool := in_range "0" "9" c.
Definition isalpha (c : ascii) : bool := in_range "a" "z" c || in_range "A" "Z" c.
Definition isalnum (c : ascii) : bool := isalpha c || isdigit c.

Definition char_at (s : string) (i : nat) : ascii :=
  match String.get i s with
  | Some c => c
  | None => NUL
  end.

Definition isAtEnd (l : t) : bool := (String.length (source_ l) <=? current_ l)%nat.

Definition advance (l : t) : ascii * t :=
  (char_at (source_ l) (current_ l),
   mk (source_ l) (start_ l) (S (current_ l)) (line_ l) (column_ l + 1)
      (tokens_ l) (cerr l)).

Definition peek (offset : nat) (l : t) : ascii :=
  if (String.length (source_ l) <=? current_ l + offset)%nat then NUL
  else char_at (source_ l) (current_ l + offset).

Definition eqc (c d : ascii) : bool := bool_decide (c = d).

Definition match_ (expected : ascii) (l : t) : bool * t :=
  if isAtEnd l || negb (eqc (char_at (source_ l) (current_ l)) expected) then (false, l)
  else (true, mk (source_ l) (start_ l) (S (current_ l)) (line_ l) (column_ l + 1)
                 (tokens_ l) (cerr l)).

Definition newline (l : t) : t :=
  mk (source_ l) (start_ l) (current_ l) (line_ l + 1) 1 (tokens_ l) (cerr l).

Definition set_start_ (l : t) : t :=
  mk (source_ l) (current_ l) (current_ l) (line_ l) (column_ l) (tokens_ l) (cerr l).

Definition push_token (tok : Token) (l : t) : t :=
  mk (source_ l) (start_ l) (current_ l) (line_ l) (column_ l)
     (tokens_ l ++ [tok]) (cerr l).

Definition error (msg : string) (l : t) : t :=
  mk (source_ l) (start_ l) (current_ l) (line_ l) (column_ l) (tokens_ l)
     (cerr l ++ ["Error at line " +:+ to_string (line_ l) +:+ ", column "
                 +:+ to_string (column_ l) +:+ ": " +:+ msg]).

Definition left (l : t) : nat := String.length (source_ l) - current_ l.

(** [while (peek() != '\n' && !isAtEnd()) advance();] *)
Fixpoint skip_line (fuel : nat) (l : t) : t :=
  match fuel with
  | 0 => l
  | S fuel =>
      if negb (eqc (peek 0 l) LF) && negb (isAtEnd l)
      then skip_line fuel (snd (advance l))
      else l
  end.

(** The loop over the inside of a block comment. *)
Fixpoint skip_block (fuel : nat) (l : t) : t :=
  match fuel with
  | 0 => l
  | S fuel =>
      if negb (isAtEnd l) && negb (eqc (peek 0 l) "*" && eqc (peek 1 l) "/")
      then
        let l := if eqc (peek 0 l) LF then newline l else l in
        skip_block fuel (snd (advance l))
      else l
  end.

Fixpoint skipWhitespace (fuel : nat) (l : t) : t :=
  match fuel with
  | 0 => l
  | S fuel =>
      if isAtEnd l then l
      else
        let c := peek 0 l in
        if eqc c " " || eqc c TAB || eqc c CR then skipWhitespace fuel (snd (advance l))
        else if eqc c LF then skipWhitespace fuel (snd (advance (newline l)))
        else if eqc c "/" then
          if eqc (peek 1 l) "/" then skipWhitespace fuel (skip_line (left l) l)
          else if eqc (peek 1 l) "*" then
            let l := snd (advance (snd (advance l))) in
            let l := skip_block (left l) l in
            let l := if negb (isAtEnd l) then snd (advance (snd (advance l))) else l in
            skipWhitespace fuel l
          else l
        else l
  end.

(** [while (P(peek())) advance();] *)
Fixpoint advance_while (p : ascii -> bool) (fuel : nat) (l : t) : t :=
  match fuel with
  | 0 => l
  | S fuel => if p (peek 0 l) then advance_while p fuel (snd (advance l)) else l
  end.

Definition text_of (l : t) : string :=
  String.substring (start_ l) (current_ l - start_ l) (source_ l).

Definition scanIdentifier (l : t) : Token * t :=
  let l := advance_while (fun c => isalnum c || eqc c "_") (left l) l in
  let text := text_of l in
  let type := match keywords_ text with
              | Some ty => ty
              | None => TokenType.IDENTIFIER
              end in
  (mkToken type text (mkLoc (line_ l) (to_int (column_ l - Z.of_nat (String.length text)))), l).

Definition scanNumber (l : t) : Token * t :=
  let l := advance_while isdigit (left l) l in
  let '(isFloat, l) :=
    if eqc (peek 0 l) "." && isdigit (peek 1 l)
    then (true, advance_while isdigit (left l) (snd (advance l)))
    else (false, l) in
  let text := text_of l in
  let type := if isFloat : bool then TokenType.FLOAT_LITERAL
              else TokenType.INTEGER_LITERAL in
  (mkToken type text (mkLoc (line_ l) (to_int (column_ l - Z.of_nat (String.length text)))), l).

(** The loop of [scanString]. *)
Fixpoint string_body (fuel : nat) (l : t) : t :=
  match fuel with
  | 0 => l
  | S fuel =>
      if negb (eqc (peek 0 l) QUOTE) && negb (isAtEnd l)
      then
        let l := if eqc (peek 0 l) LF then newline l else l in
        string_body fuel (snd (advance l))
      else l
  end.

Definition scanString (l : t) : Token * t :=
  let l := string_body (left l) l in
  if isAtEnd l then
    let l := error "Unterminated string." l in
    (mkToken TokenType.UNKNOWN (text_of l)
       (mkLoc (line_ l) (to_int (column_ l - Z.of_nat (current_ l - start_ l)))), l)
  else
    let l := snd (advance l) in
    let value := String.substring (start_ l + 1) (current_ l - start_ l - 2) (source_ l) in
    (mkToken TokenType.STRING_LITERAL value
       (mkLoc (line_ l) (to_int (column_ l - Z.of_nat (String.length value) - 2))), l).

Definition one (ty : TokenType.t) (lexeme : string) (l : t) : Token * t :=
  (mkToken ty lexeme (mkLoc (line_ l) (column_ l - 1)), l).

(** The two-character operators: [match('=')] and its two outcomes. *)
Definition two (second : ascii) (ty2 : TokenType.t) (lexeme2 : string)
    (ty1 : TokenType.t) (lexeme1 : string) (l : t) : Token * t :=
  let '(matched, l) := match_ second l in
  if matched : bool
  then (mkToken ty2 lexeme2 (mkLoc (line_ l) (column_ l - 2)), l)
  else (mkToken ty1 lexeme1 (mkLoc (line_ l) (column_ l - 1)), l).

Definition scanToken (l : t) : Token * t :=
  let l := skipWhitespace (S (left l)) l in
  if isAtEnd l then (mkToken TokenType.END_OF_FILE "" (mkLoc (line_ l) (column_ l)), l)
  else
    let l := set_start_ l in
    let '(c, l) := advance l in
    if isalpha c || eqc c "_" then scanIdentifier l
    else if isdigit c then scanNumber l
    else if eqc c QUOTE then scanString l
    else if eqc c "(" then one TokenType.LEFT_PAREN "(" l
    else if eqc c ")" then one TokenType.RIGHT_PAREN ")" l
    else if eqc c "{" then one TokenType.LEFT_BRACE "{" l
    else if eqc c "}" then one TokenType.RIGHT_BRACE "}" l
    else if eqc c "[" then one TokenType.LEFT_BRACKET "[" l
    else if eqc c "]" then one TokenType.RIGHT_BRACKET "]" l
    else if eqc c "," then one TokenType.COMMA "," l
    else if eqc c "." then one TokenType.UNKNOWN "." l
    else if eqc c ";" then one TokenType.SEMICOLON ";" l
    else if eqc c "+" then one TokenType.PLUS "+" l
    else if eqc c "-" then one TokenType.MINUS "-" l
    else if eqc c "*" then one TokenType.MULTIPLY "*" l
    else if eqc c "/" then one TokenType.DIVIDE "/" l
    else if eqc c "%" then one TokenType.MODULO "%" l
    else if eqc c "=" then two "=" TokenType.EQUAL "==" TokenType.ASSIGN "=" l
    else if eqc c "!" then two "=" TokenType.NOT_EQUAL "!=" TokenType.NOT "!" l
    else if eqc c "<" then two "=" TokenType.LESS_EQUAL "<=" TokenType.LESS "<" l
    else if eqc c ">" then two "=" TokenType.GREATER_EQUAL ">=" TokenType.GREATER ">" l
    else if eqc c "&" then two "&" TokenType.AND "&&" TokenType.UNKNOWN "&" l
    else if eqc c "|" then two "|" TokenType.OR "||" TokenType.UNKNOWN "|" l
    else one TokenType.UNKNOWN (String c EmptyString) l.

(** The loop of [scanTokens]: every token [scanToken] returns is kept. *)
Fixpoint scan_loop (fuel : nat) (l : t) : t :=
  match fuel with
  | 0 => l
  | S fuel =>
      if negb (isAtEnd l)
      then
        let '(tok, l) := scanToken (set_start_ l) in
        scan_loop fuel (push_token tok l)
      else l
  end.

Definition scanTokens (l : t) : list Token * t :=
  let l := scan_loop (left l) l in
  let l := push_token (mkToken TokenType.END_OF_FILE "" (mkLoc (line_ l) (column_ l))) l in
  (tokens_ l, l).

(** The tokens of a source text. *)
Definition scan (source : string) : list Token := fst (scanTokens (new source)).

(** *** The notions the properties are stated with *)

(** [onward l l']: from [l] to [l'] the scanner went on in the same text. *)
Definition onward (l l' : t) : Prop :=
  source_ l' = source_ l /\ current_ l <= current_ l'.

(** The conditions of the loops and what one round of each does. *)
Definition line_goes_on (l : t) : bool := negb (eqc (peek 0 l) LF) && negb (isAtEnd l).

Definition comment_goes_on (l : t) : bool :=
  negb (isAtEnd l) && negb (eqc (peek 0 l) "*" && eqc (peek 1 l) "/").

Definition string_goes_on (l : t) : bool :=
  negb (eqc (peek 0 l) QUOTE) && negb (isAtEnd l).

Definition next_char (l : t) : t :=
  snd (advance (if eqc (peek 0 l) LF then newline l else l)).

Definition blank_ahead (l : t) : bool :=
  negb (isAtEnd l) &&
  (eqc (peek 0 l) " " || eqc (peek 0 l) TAB || eqc (peek 0 l) CR || eqc (peek 0 l) LF ||
   eqc (peek 0 l) "/" && (eqc (peek 1 l) "/" || eqc (peek 1 l) "*")).

Definition skip_blank (l : t) : t :=
  let c := peek 0 l in
  if eqc c " " || eqc c TAB || eqc c CR then snd (advance l)
  else if eqc c LF then snd (advance (newline l))
  else if eqc (peek 1 l) "/" then skip_line (left l) l
  else
    let l := snd (advance (snd (advance l))) in
    let l := skip_block (left l) l in
    if negb (isAtEnd l) then snd (advance (snd (advance l))) else l.

Definition scan_one (l : t) : t :=
  let '(tok, l) := scanToken (set_start_ l) in push_token tok l.

End Lexer.

(** ** ast/ast.h

    A [float] value is kept as the decimal numeral it was converted from;
    nothing below inspects its bits. *)

Definition float : Set := string.

#[local] Unset Elimination Schemes.

Inductive Expression : Set :=
| IntegerLiteral (value : Z) (location : SourceLocation)
| FloatLiteral (value : float) (location : SourceLocation)
| StringLiteral (value : string) (location : SourceLocation)
| VariableExpression (name : string) (location : SourceLocation)
| BinaryExpression (left : Expression) (operator : TokenType.t)
                   (right : Expression) (location : SourceLocation)
| UnaryExpression (operator : TokenType.t) (operand : Expression)
                  (location : SourceLocation)
| CallExpression (callee : string) (arguments : list Expression)
                 (location : SourceLocation).

Record FunctionParameter : Set := mkParam {
  param_type : string;
  param_name : string;
  param_location : SourceLocation
}.

(** Statement lists hold [std::unique_ptr<Statement>]; the parser stores a
    null pointer for a declaration it could not parse, hence
    [list (option Statement)].  The body of a function is a
    [BlockStatement], given here by its statements and location. *)
Inductive Statement : Set :=
| ExpressionStatement (expression : Expression)
| VarDeclaration (type name : string) (initializer : option Expression)
                 (location : SourceLocation)
| BlockStatement (statements : list (option Statement))
                 (location : SourceLocation)
| IfStatement (condition : Expression) (thenBranch : Statement)
              (elseBranch : option Statement) (location : SourceLocation)
| WhileStatement (condition : Expression) (body : Statement)
                 (location : SourceLocation)
| ReturnStatement (value : option Expression) (location : SourceLocation)
| FunctionDeclaration (returnType name : string)
                      (parameters : list FunctionParameter)
                      (body : list (option Statement))
                      (bodyLocation location : SourceLocation).

#[local] Set Elimination Schemes.

Record Program : Set := mkProgram { prog_statements : list (option Statement) }.

Definition expression_location (e : Expression) : SourceLocation :=
  match e with
  | IntegerLiteral _ l | FloatLiteral _ l | StringLiteral _ l
  | VariableExpression _ l | BinaryExpression _ _ _ l
  | UnaryExpression _ _ l | CallExpression _ _ l => l
  end.

(** Induction over the AST, through the argument and statement lists. *)
Section ExpressionInduction.
Variable P : Expression -> Prop.
Hypothesis HInt : forall v l, P (IntegerLiteral v l).
Hypothesis HFloat : forall v l, P (FloatLiteral v l).
Hypothesis HString : forall v l, P (StringLiteral v l).
Hypothesis HVar : forall n l, P (VariableExpression n l).
Hypothesis HBinary : forall lhs op rhs l, P lhs -> P rhs -> P (BinaryExpression lhs op rhs l).
Hypothesis HUnary : forall op e l, P e -> P (UnaryExpression op e l).
Hypothesis HCall : forall c args l, Forall P args -> P (CallExpression c args l).

Fixpoint Expression_ind (e : Expression) : P e :=
  match e with
  | IntegerLiteral v l => HInt v l
  | FloatLiteral v l => HFloat v l
  | StringLiteral v l => HString v l
  | VariableExpression n l => HVar n l
  | BinaryExpression lhs op rhs l =>
      HBinary lhs op rhs l (Expression_ind lhs) (Expression_ind rhs)
  | UnaryExpression op e l => HUnary op e l (Expression_ind e)
  | CallExpression c args l =>
      HCall c args l
        ((fix all (args : list Expression) : Forall P args :=
            match args with
            | [] => List.Forall_nil P
            | a :: args => @List.Forall_cons _ P a args (Expression_ind a) (all args)
            end) args)
  end.
End ExpressionInduction.

Definition on_some {A} (P : A -> Prop) (o : option A) : Prop :=
  match o with
  | Some a => P a
  | None => True
  end.

Section StatementInduction.
Variable P : Statement -> Prop.
Hypothesis HExpr : forall e, P (ExpressionStatement e).
Hypothesis HVarDecl : forall ty n i l, P (VarDeclaration ty n i l).
Hypothesis HBlock : forall ss l, Forall (on_some P) ss -> P (BlockStatement ss l).
Hypothesis HIf : forall c th el l, P th -> on_some P el -> P (IfStatement c th el l).
Hypothesis HWhile : forall c body l, P body -> P (WhileStatement c body l).
Hypothesis HReturn : forall v l, P (ReturnStatement v l).
Hypothesis HFunction : forall rt n ps body bl l,
  Forall (on_some P) body -> P (FunctionDeclaration rt n ps body bl l).

Fixpoint Statement_ind (s : Statement) : P s :=
  let all :=
    fix all (ss : list (option Statement)) : Forall (on_some P) ss :=
      match ss with
      | [] => List.Forall_nil _
      | o :: ss =>
          @List.Forall_cons _ (on_some P) o ss
            (match o return on_some P o with
             | Some s => Statement_ind s
             | None => I
             end) (all ss)
      end in
  match s with
  | ExpressionStatement e => HExpr e
  | VarDeclaration ty n i l => HVarDecl ty n i l
  | BlockStatement ss l => HBlock ss l (all ss)
  | IfStatement c th el l =>
      HIf c th el l (Statement_ind th)
        (match el return on_some P el with
         | Some s => Statement_ind s
         | None => I
         end)
  | WhileStatement c body l => HWhile c body l (Statement_ind body)
  | ReturnStatement v l => HReturn v l
  | FunctionDeclaration rt n ps body bl l => HFunction rt n ps body bl l (all body)
  end.
End StatementInduction.

(** ** Renaming the callees of a program

    [rename_callees f p] is [p] with every callee [c] replaced by [f c];
    it is used to say what the IR does not depend on. *)

Fixpoint rename_expr (f : string -> string) (e : Expression) : Expression :=
  match e with
  | BinaryExpression lhs op rhs l =>
      BinaryExpression (rename_expr f lhs) op (rename_expr f rhs) l
  | UnaryExpression op operand l => UnaryExpression op (rename_expr f operand) l
  | CallExpression callee arguments l =>
      CallExpression (f callee) (map (rename_expr f) arguments) l
  | _ => e
  end.

Fixpoint rename_stmt (f : string -> string) (s : Statement) : Statement :=
  match s with
  | ExpressionStatement e => ExpressionStatement (rename_expr f e)
  | VarDeclaration type name initializer l =>
      VarDeclaration type name (option_map (rename_expr f) initializer) l
  | BlockStatement statements l =>
      BlockStatement (map (option_map (rename_stmt f)) statements) l
  | IfStatement condition thenBranch elseBranch l =>
      IfStatement (rename_expr f condition) (rename_stmt f thenBranch)
                  (option_map (rename_stmt f) elseBranch) l
  | WhileStatement condition body l =>
      WhileStatement (rename_expr f condition) (rename_stmt f body) l
  | ReturnStatement value l => ReturnStatement (option_map (rename_expr f) value) l
  | FunctionDeclaration returnType name parameters body bl l =>
      FunctionDeclaration returnType name parameters
                          (map (option_map (rename_stmt f)) body) bl l
  end.

Definition rename_callees (f : string -> string) (p : Program) : Program :=
  mkProgram (map (option_map (rename_stmt f)) (prog_statements p)).

(** Statements that neither are nor contain a function declaration and
    have no null statement among their children. *)
Fixpoint plain (s : Statement) : bool :=
  match s with
  | ExpressionStatement _ | VarDeclaration _ _ _ _ | ReturnStatement _ _ => true
  | BlockStatement statements _ =>
      forallb (fun o => match o with Some s => plain s | None => false end) statements
  | IfStatement _ thenBranch elseBranch _ =>
      plain thenBranch && match elseBranch with Some s => plain s | None => true end
  | WhileStatement _ body _ => plain body
  | FunctionDeclaration _ _ _ _ _ _ => false
  end.

Definition plain_item (o : option Statement) : bool :=
  match o with
  | Some s => plain s
  | None => false
  end.

(** Programs whose items are all present, each a statement as above or a
    function declaration whose body holds only such statements. *)
Definition flat_item (o : option Statement) : bool :=
  match o with
  | Some (FunctionDeclaration _ _ _ body _ _) => forallb plain_item body
  | Some s => plain s
  | None => false
  end.

Definition flat (p : Program) : bool := forallb flat_item (prog_statements p).

(** Statements and programs without a null statement. *)
Fixpoint whole (s : Statement) : bool :=
  let whole_item :=
    fun o : option Statement =>
      match o with
      | Some s => whole s
      | None => false
      end in
  match s with
  | BlockStatement statements _ => forallb whole_item statements
  | IfStatement _ thenBranch elseBranch _ =>
      whole thenBranch && match elseBranch with Some s => whole s | None => true end
  | WhileStatement _ body _ => whole body
  | FunctionDeclaration _ _ _ body _ _ => forallb whole_item body
  | _ => true
  end.

Definition whole_item (o : option Statement) : bool :=
  match o with
  | Some s => whole s
  | None => false
  end.

Definition whole_program (p : Program) : bool := forallb whole_item (prog_statements p).

Definition here : SourceLocation := mkLoc 1 1.

(** ** parser/parser.h, parser/parser.cpp

    A parsing function takes the parser's state and either returns a
    value, or throws, or runs out of the recursion budget it was given.
    What is thrown is a [ParseError], or the exception of a library
    conversion ([std::stoi], [std::stof]); reading [tokens_] outside its
    bounds is undefined and recorded as such. *)

Module Parser.

Record t : Set := mk {
  tokens_ : list Token;
  current_ : nat;
  cerr : list string
}.

(** [Parser::Parser(tokens)] *)
Definition new (tokens : list Token) : t := mk tokens 0 [].

Inductive Thrown : Set :=
| ParseError (what : string) (location : SourceLocation)
| OutOfRange (what : string)
| InvalidArgument (what : string)
| Undefined (what : string).

Inductive Result (A : Type) : Type :=
| Ok (a : A) (p : t)
| Throw (e : Thrown) (p : t)
| OutOfFuel.
Arguments Ok {A} a p.
Arguments Throw {A} e p.
Arguments OutOfFuel {A}.

Definition M (A : Type) : Type := t -> Result A.

Definition ret {A} (a : A) : M A := fun p => Ok a p.
Definition throw {A} (e : Thrown) : M A := fun p => Throw e p.
Definition bind {A B} (m : M A) (k : A -> M B) : M B :=
  fun p =>
    match m p with
    | Ok a p => k a p
    | Throw e p => Throw e p
    | OutOfFuel => OutOfFuel
    end.

Notation "x <- m ;; k" := (bind m (fun x => k))
  (at level 100, m at next level, right associativity).
Notation "m ;;; k" := (bind m (fun _ => k))
  (at level 100, right associativity).

(** [tokens_[i]] *)
Definition token_at (i : nat) : M Token :=
  fun p =>
    match tokens_ p !! i with
    | Some tok => Ok tok p
    | None => Throw (Undefined "tokens_ read out of bounds") p
    end.

Definition peek : M Token := fun p => token_at (current_ p) p.

Definition previous : M Token :=
  fun p =>
    match current_ p with
    | 0 => Throw (Undefined "tokens_ read out of bounds") p
    | S i => token_at i p
    end.

Definition isAtEnd : M bool :=
  tok <- peek ;; ret (bool_decide (type_ tok = TokenType.END_OF_FILE)).

Definition step : M unit := fun p => Ok tt (mk (tokens_ p) (S (current_ p)) (cerr p)).

Definition advance : M Token :=
  atEnd <- isAtEnd ;;
  (if atEnd : bool then ret tt else step) ;;;
  previous.

Definition check (type : TokenType.t) : M bool :=
  atEnd <- isAtEnd ;;
  if atEnd : bool then ret false
  else tok <- peek ;; ret (bool_decide (type_ tok = type)).

Definition match_ (type : TokenType.t) : M bool :=
  found <- check type ;;
  if found : bool then advance ;;; ret true else ret false.

Fixpoint match_any (types : list TokenType.t) : M bool :=
  match types with
  | [] => ret false
  | type :: types =>
      found <- match_ type ;;
      if found : bool then ret true else match_any types
  end.

(** [Parser::error(token, message)]: the error is built and returned, not
    thrown and not printed. *)
Definition error (token : Token) (message : string) : Thrown :=
  ParseError
    ("Error at " +:+
     (if decide (type_ token = TokenType.END_OF_FILE) then "end of file"
      else "'" +:+ lexeme_ token +:+ "'") +:+ ": " +:+ message)
    (location_ token).

Definition consume (type : TokenType.t) (message : string) : M Token :=
  found <- check type ;;
  if found : bool then advance
  else tok <- peek ;; throw (error tok message).

(** [synchronize] *)
Definition at_statement_start (type : TokenType.t) : bool :=
  match type with
  | TokenType.INT | TokenType.FLOAT | TokenType.IF | TokenType.WHILE
  | TokenType.RETURN => true
  | _ => false
  end.

Fixpoint synchronize_loop (n : nat) : M unit :=
  match n with
  | 0 => fun _ => OutOfFuel
  | S n =>
      atEnd <- isAtEnd ;;
      if atEnd : bool then ret tt
      else
        prev <- previous ;;
        if decide (type_ prev = TokenType.SEMICOLON) then ret tt
        else
          tok <- peek ;;
          if at_statement_start (type_ tok) then ret tt
          else advance ;;; synchronize_loop n
  end.

Definition synchronize : M unit :=
  advance ;;; fun p => synchronize_loop (S (length (tokens_ p))) p.

(** [caught r]: the outcome [r] is not a [ParseError] on its way out. *)
Definition caught {A} (r : Result A) : Prop :=
  match r with
  | Throw (ParseError _ _) _ => False
  | _ => True
  end.

(** [try { ... } catch (const ParseError&)]: other exceptions pass. *)
Definition catch_ParseError {A} (m : M A) (handler : string -> SourceLocation -> M A)
  : M A :=
  fun p =>
    match m p with
    | Throw (ParseError what loc) p => handler what loc p
    | r => r
    end.

(** [std::stoi] on the text of an integer literal: the value of its
    leading digits; [int] is 32 bits wide. *)
Definition digit_value (c : ascii) : option Z :=
  if Lexer.isdigit c then Some (Z.of_nat (nat_of_ascii c - nat_of_ascii "0")) else None.

Fixpoint leading_digits (s : string) (acc : option Z) : option Z :=
  match s with
  | EmptyString => acc
  | String c s =>
      match digit_value c with
      | Some d => leading_digits s (Some (10 * default 0%Z acc + d)%Z)
      | None => acc
      end
  end.

Definition INT_MAX : Z := 2147483647.

Definition stoi (s : string) : M Z :=
  match leading_digits s None with
  | None => throw (InvalidArgument "stoi")
  | Some v => if (INT_MAX <? v)%Z then throw (OutOfRange "stoi") else ret v
  end.

Section Parsing.

(** Whether [std::stof] reports a range error on a numeral.  Floating
    point is not modelled: the converted value is kept as the numeral. *)
Variable stof_out_of_range : string -> bool.

Definition stof (s : string) : M float :=
  if stof_out_of_range s then throw (OutOfRange "stof") else ret s.

(** [while (match(ops)) { op = previous(); right = next(); expr = ...; }],
    the loop of every left-associative binary level. *)
Fixpoint binary_loop (ops : list TokenType.t) (next : M Expression) (n : nat)
    (expr : Expression) : M Expression :=
  match n with
  | 0 => fun _ => OutOfFuel
  | S n =>
      found <- match_any ops ;;
      if found : bool then
        op <- previous ;;
        rhs <- next ;;
        binary_loop ops next n (BinaryExpression expr (type_ op) rhs (location_ op))
      else ret expr
  end.

Definition binary_level (ops : list TokenType.t) (next : M Expression) : M Expression :=
  expr <- next ;;
  fun p => binary_loop ops next (S (length (tokens_ p))) expr p.

(** The [do { ... } while (match(COMMA))] loops of the argument and
    parameter lists. *)
Fixpoint comma_loop {A} (item : M A) (n : nat) (acc : list A) : M (list A) :=
  match n with
  | 0 => fun _ => OutOfFuel
  | S n =>
      a <- item ;;
      more <- match_ TokenType.COMMA ;;
      if more : bool then comma_loop item n (acc ++ [a]) else ret (acc ++ [a])
  end.

Definition comma_list {A} (item : M A) : M (list A) :=
  closed <- check TokenType.RIGHT_PAREN ;;
  if closed : bool then ret []
  else fun p => comma_loop item (S (length (tokens_ p))) [] p.

Definition finishCall (expression : M Expression) (callee : Expression) : M Expression :=
  arguments <- comma_list expression ;;
  paren <- consume TokenType.RIGHT_PAREN "Expect ')' after arguments." ;;
  match callee with
  | VariableExpression name _ => ret (CallExpression name arguments (location_ paren))
  | _ => throw (error paren "Expected variable as function call target.")
  end.

Fixpoint call_loop (expression : M Expression) (n : nat) (expr : Expression)
  : M Expression :=
  match n with
  | 0 => fun _ => OutOfFuel
  | S n =>
      found <- match_ TokenType.LEFT_PAREN ;;
      if found : bool then
        expr <- finishCall expression expr ;;
        call_loop expression n expr
      else ret expr
  end.

Definition primary (expression : M Expression) : M Expression :=
  isInt <- match_ TokenType.INTEGER_LITERAL ;;
  if isInt : bool then
    tok <- previous ;; value <- stoi (lexeme_ tok) ;;
    ret (IntegerLiteral value (location_ tok))
  else
  isFloat <- match_ TokenType.FLOAT_LITERAL ;;
  if isFloat : bool then
    tok <- previous ;; value <- stof (lexeme_ tok) ;;
    ret (FloatLiteral value (location_ tok))
  else
  isString <- match_ TokenType.STRING_LITERAL ;;
  if isString : bool then
    tok <- previous ;; ret (StringLiteral (lexeme_ tok) (location_ tok))
  else
  isName <- match_ TokenType.IDENTIFIER ;;
  if isName : bool then
    tok <- previous ;; ret (VariableExpression (lexeme_ tok) (location_ tok))
  else
  isParen <- match_ TokenType.LEFT_PAREN ;;
  if isParen : bool then
    expr <- expression ;;
    consume TokenType.RIGHT_PAREN "Expect ')' after expression." ;;;
    ret expr
  else
    tok <- peek ;; throw (error tok "Expect expression.").

Definition call (expression : M Expression) : M Expression :=
  expr <- primary expression ;;
  fun p => call_loop expression (S (length (tokens_ p))) expr p.

(** The expression grammar.  [unary] and [assignment] call themselves; all
    levels reach [expression] again through [primary] and [finishCall]. *)
Fixpoint unary (fuel : nat) : M Expression :=
  match fuel with
  | 0 => fun _ => OutOfFuel
  | S fuel =>
      found <- match_any [TokenType.MINUS; TokenType.NOT] ;;
      if found : bool then
        op <- previous ;;
        rhs <- unary fuel ;;
        ret (UnaryExpression (type_ op) rhs (location_ op))
      else call (assignment fuel)
  end

with assignment (fuel : nat) : M Expression :=
  match fuel with
  | 0 => fun _ => OutOfFuel
  | S fuel =>
      let factor :=
        binary_level [TokenType.MULTIPLY; TokenType.DIVIDE; TokenType.MODULO]
                     (unary fuel) in
      let term := binary_level [TokenType.PLUS; TokenType.MINUS] factor in
      let comparison :=
        binary_level [TokenType.LESS; TokenType.LESS_EQUAL; TokenType.GREATER;
                      TokenType.GREATER_EQUAL] term in
      let equality := binary_level [TokenType.EQUAL; TokenType.NOT_EQUAL] comparison in
      let logicalAnd := binary_level [TokenType.AND] equality in
      let logicalOr := binary_level [TokenType.OR] logicalAnd in
      expr <- logicalOr ;;
      found <- match_ TokenType.ASSIGN ;;
      if found : bool then
        equals <- previous ;;
        value <- assignment fuel ;;
        match expr with
        | VariableExpression _ _ =>
            ret (BinaryExpression expr TokenType.ASSIGN value (location_ equals))
        | _ =>
            (* error(equals, "Invalid assignment target."); the error is dropped *)
            ret expr
        end
      else ret expr
  end.

Definition expression (fuel : nat) : M Expression := assignment fuel.

Definition expressionStatement (fuel : nat) : M Statement :=
  expr <- expression fuel ;;
  consume TokenType.SEMICOLON "Expect ';' after expression." ;;;
  ret (ExpressionStatement expr).

Definition returnStatement (fuel : nat) : M Statement :=
  keyword <- previous ;;
  atSemicolon <- check TokenType.SEMICOLON ;;
  value <- (if atSemicolon : bool then ret None
            else e <- expression fuel ;; ret (Some e)) ;;
  consume TokenType.SEMICOLON "Expect ';' after return value." ;;;
  ret (ReturnStatement value (location_ keyword)).

Definition varDeclaration (fuel : nat) : M Statement :=
  tyTok <- previous ;;
  name <- consume TokenType.IDENTIFIER "Expect variable name." ;;
  hasInit <- match_ TokenType.ASSIGN ;;
  initializer <- (if hasInit : bool then e <- expression fuel ;; ret (Some e)
                  else ret None) ;;
  consume TokenType.SEMICOLON "Expect ';' after variable declaration." ;;;
  ret (VarDeclaration (lexeme_ tyTok) (lexeme_ name) initializer (location_ name)).

Definition parameter : M FunctionParameter :=
  isInt <- match_ TokenType.INT ;;
  paramType <- (if isInt : bool then ret "int"
                else isFloat <- match_ TokenType.FLOAT ;;
                     if isFloat : bool then ret "float"
                     else tok <- peek ;; throw (error tok "Expect parameter type.")) ;;
  paramName <- consume TokenType.IDENTIFIER "Expect parameter name." ;;
  ret (mkParam paramType (lexeme_ paramName) (location_ paramName)).

(** [while (!check(RIGHT_BRACE) && !isAtEnd()) statements.push_back(declaration());] *)
Fixpoint block_loop (declaration : M (option Statement)) (n : nat)
    (acc : list (option Statement)) : M (list (option Statement)) :=
  match n with
  | 0 => fun _ => OutOfFuel
  | S n =>
      closed <- check TokenType.RIGHT_BRACE ;;
      atEnd <- isAtEnd ;;
      if negb closed && negb atEnd then
        s <- declaration ;;
        block_loop declaration n (acc ++ [s])
      else ret acc
  end.

Definition block (declaration : M (option Statement))
  : M (list (option Statement) * SourceLocation) :=
  brace <- previous ;;
  statements <- (fun p => block_loop declaration (S (length (tokens_ p))) [] p) ;;
  consume TokenType.RIGHT_BRACE "Expect '}' after block." ;;;
  ret (statements, location_ brace).

Definition functionDeclaration (declaration : M (option Statement)) : M Statement :=
  tyTok <- previous ;;
  name <- consume TokenType.IDENTIFIER "Expect function name." ;;
  consume TokenType.LEFT_PAREN "Expect '(' after function name." ;;;
  parameters <- comma_list parameter ;;
  consume TokenType.RIGHT_PAREN "Expect ')' after parameters." ;;;
  consume TokenType.LEFT_BRACE "Expect '{' before function body." ;;;
  body <- block declaration ;;
  ret (FunctionDeclaration (lexeme_ tyTok) (lexeme_ name) parameters
         (fst body) (snd body) (location_ name)).

(** Statements and declarations. *)
Fixpoint statement (fuel : nat) : M Statement :=
  match fuel with
  | 0 => fun _ => OutOfFuel
  | S fuel =>
      isIf <- match_ TokenType.IF ;;
      if isIf : bool then
        consume TokenType.LEFT_PAREN "Expect '(' after 'if'." ;;;
        condition <- expression fuel ;;
        consume TokenType.RIGHT_PAREN "Expect ')' after if condition." ;;;
        thenBranch <- statement fuel ;;
        hasElse <- match_ TokenType.ELSE ;;
        elseBranch <- (if hasElse : bool then s <- statement fuel ;; ret (Some s)
                       else ret None) ;;
        last <- previous ;;
        ret (IfStatement condition thenBranch elseBranch (location_ last))
      else
      isWhile <- match_ TokenType.WHILE ;;
      if isWhile : bool then
        consume TokenType.LEFT_PAREN "Expect '(' after 'while'." ;;;
        condition <- expression fuel ;;
        consume TokenType.RIGHT_PAREN "Expect ')' after while condition." ;;;
        body <- statement fuel ;;
        last <- previous ;;
        ret (WhileStatement condition body (location_ last))
      else
      isReturn <- match_ TokenType.RETURN ;;
      if isReturn : bool then returnStatement fuel
      else
      isBlock <- match_ TokenType.LEFT_BRACE ;;
      if isBlock : bool then
        b <- block (declaration fuel) ;;
        ret (BlockStatement (fst b) (snd b))
      else expressionStatement fuel
  end

with declaration (fuel : nat) : M (option Statement) :=
  match fuel with
  | 0 => fun _ => OutOfFuel
  | S fuel =>
      catch_ParseError
        (isInt <- match_ TokenType.INT ;;
         isType <- (if isInt : bool then ret true else match_ TokenType.FLOAT) ;;
         if isType : bool then
           isName <- check TokenType.IDENTIFIER ;;
           isFunction <-
             (if isName : bool
              then next <- (fun p => token_at (S (current_ p)) p) ;;
                   ret (bool_decide (type_ next = TokenType.LEFT_PAREN))
              else ret false) ;;
           if isFunction : bool
           then s <- functionDeclaration (declaration fuel) ;; ret (Some s)
           else s <- varDeclaration fuel ;; ret (Some s)
         else
         isVoid <- match_ TokenType.VOID ;;
         if isVoid : bool
         then s <- functionDeclaration (declaration fuel) ;; ret (Some s)
         else s <- statement fuel ;; ret (Some s))
        (fun _ _ => synchronize ;;; ret None)
  end.

(** The loop of [parse]; the statements parsed so far outlive a throw. *)
Fixpoint parse_loop (fuel n : nat) (acc : list (option Statement)) (p : t)
  : list (option Statement) * Result unit :=
  match n with
  | 0 => (acc, OutOfFuel)
  | S n =>
      match isAtEnd p with
      | Ok true p => (acc, Ok tt p)
      | Ok false p =>
          match declaration fuel p with
          | Ok s p => parse_loop fuel n (acc ++ [s]) p
          | Throw e p => (acc, Throw e p)
          | OutOfFuel => (acc, OutOfFuel)
          end
      | Throw e p => (acc, Throw e p)
      | OutOfFuel => (acc, OutOfFuel)
      end
  end.

Definition print (msg : string) : M unit :=
  fun p => Ok tt (mk (tokens_ p) (current_ p) (cerr p ++ [msg])).

Definition parse_with (fuel : nat) : M Program :=
  fun p =>
    let '(statements, r) := parse_loop fuel (S (length (tokens_ p))) [] p in
    match r with
    | Ok _ p => Ok (mkProgram statements) p
    | Throw (ParseError what loc) p =>
        (print ("Parse error: " +:+ what +:+ " at line " +:+ to_string (line loc)
                +:+ ", column " +:+ to_string (column loc)) ;;;
         synchronize ;;;
         ret (mkProgram statements)) p
    | Throw e p => Throw e p
    | OutOfFuel => OutOfFuel
    end.

(** [parse], with a recursion budget that grows with the input: the
    functions that spend budget ([declaration], [statement],
    [assignment], [unary]) call one another at most four deep before a
    token is taken, so sixteen calls a token are more than a parse uses. *)
Definition parse : M Program :=
  fun p => parse_with (16 * S (length (tokens_ p))) p.

End Parsing.

End Parser.

(** ** The front end: source text to AST *)

Definition front_end (stof_out_of_range : string -> bool) (source : string)
  : Parser.Result Program :=
  Parser.parse stof_out_of_range (Parser.new (Lexer.scan source)).

Definition no_range_error (numeral : string) : bool := false.

(** ** ir/ir.h *)

Module IRType.
Inductive t : Set := VOID | INT32 | FLOAT32 | POINTER | LABEL.
#[global] Instance eq_dec : EqDecision t.
Proof. solve_decision. Defined.
End IRType.

Module IROpcode.
Inductive t : Set :=
| ALLOCA | LOAD | STORE
| ADD | SUB | MUL | DIV | MOD | NEG
| CMP_EQ | CMP_NE | CMP_LT | CMP_LE | CMP_GT | CMP_GE
| AND | OR | NOT
| JMP | JMP_IF | CALL | RET
| INT_TO_FLOAT | FLOAT_TO_INT
| PHI | LABEL | COMMENT.
#[global] Instance eq_dec : EqDecision t.
Proof. solve_decision. Defined.
End IROpcode.

Record IRIdentifier : Set := mkIdent { ident_name : string; ident_type : IRType.t }.

Inductive IRValue : Set :=
| IRIntConstant (value : Z)
| IRFloatConstant (value : float)
| IRIdent (ident : IRIdentifier)
| IRLabel (name : string).

Definition getType (v : IRValue) : IRType.t :=
  match v with
  | IRIntConstant _ => IRType.INT32
  | IRFloatConstant _ => IRType.FLOAT32
  | IRIdent i => ident_type i
  | IRLabel _ => IRType.LABEL
  end.

Record IRInstruction : Set := mkInst {
  opcode_ : IROpcode.t;
  result_ : option IRIdentifier;
  operands_ : list IRValue
}.

Record IRBasicBlock : Set := mkBlock {
  block_name : string;
  instructions_ : list IRInstruction
}.

Definition block_addInstruction (i : IRInstruction) (b : IRBasicBlock) : IRBasicBlock :=
  mkBlock (block_name b) (instructions_ b ++ [i]).

Record IRFunctionParameter : Set := mkIRParam { irparam_name : string; irparam_type : IRType.t }.

(** [blocks_] holds the addresses (indices in the block store) of the
    function's blocks, in append order. *)
Record IRFunction : Set := mkFunction {
  function_name : string;
  returnType_ : IRType.t;
  parameters_ : list IRFunctionParameter;
  blocks_ : list nat
}.

Definition function_addBlock (k : nat) (f : IRFunction) : IRFunction :=
  mkFunction (function_name f) (returnType_ f) (parameters_ f) (blocks_ f ++ [k]).

Record IRModule : Set := mkModule {
  module_name : string;
  functions_ : list IRFunction
}.

Definition module_addFunction (f : IRFunction) (m : IRModule) : IRModule :=
  mkModule (module_name m) (functions_ m ++ [f]).

(** ** ir/ir_builder.h, ir/ir_builder.cpp *)

Module IRBuilder.

(** The builder's fields.  [store] is the memory holding every
    [IRBasicBlock] ever made by [createBlock]; a block is owned by a
    function when its address is in the function's [blocks_].
    [currentFunction_] points at a function of [module_] (functions are
    only made in the handler of [FunctionDeclaration], which adds them to
    the module at once), so it is the function's index there.
    [valueStack_] has its top first. *)
Record t : Type := mk {
  module_ : IRModule;
  store : list IRBasicBlock;
  currentFunction_ : option nat;
  currentBlock_ : option nat;
  symbolTable_ : gmap string IRIdentifier;
  valueStack_ : list IRValue;
  labelCounter_ : Z;
  tempCounter_ : Z;
  cerr : list string
}.

Definition set_module_ (m : IRModule) (b : t) : t :=
  mk m (store b) (currentFunction_ b) (currentBlock_ b) (symbolTable_ b)
     (valueStack_ b) (labelCounter_ b) (tempCounter_ b) (cerr b).
Definition set_store (s : list IRBasicBlock) (b : t) : t :=
  mk (module_ b) s (currentFunction_ b) (currentBlock_ b) (symbolTable_ b)
     (valueStack_ b) (labelCounter_ b) (tempCounter_ b) (cerr b).
Definition set_currentFunction_ (f : option nat) (b : t) : t :=
  mk (module_ b) (store b) f (currentBlock_ b) (symbolTable_ b)
     (valueStack_ b) (labelCounter_ b) (tempCounter_ b) (cerr b).
Definition set_currentBlock_ (k : option nat) (b : t) : t :=
  mk (module_ b) (store b) (currentFunction_ b) k (symbolTable_ b)
     (valueStack_ b) (labelCounter_ b) (tempCounter_ b) (cerr b).
Definition set_symbolTable_ (s : gmap string IRIdentifier) (b : t) : t :=
  mk (module_ b) (store b) (currentFunction_ b) (currentBlock_ b) s
     (valueStack_ b) (labelCounter_ b) (tempCounter_ b) (cerr b).
Definition set_valueStack_ (s : list IRValue) (b : t) : t :=
  mk (module_ b) (store b) (currentFunction_ b) (currentBlock_ b) (symbolTable_ b)
     s (labelCounter_ b) (tempCounter_ b) (cerr b).
Definition set_labelCounter_ (n : Z) (b : t) : t :=
  mk (module_ b) (store b) (currentFunction_ b) (currentBlock_ b) (symbolTable_ b)
     (valueStack_ b) n (tempCounter_ b) (cerr b).
Definition set_tempCounter_ (n : Z) (b : t) : t :=
  mk (module_ b) (store b) (currentFunction_ b) (currentBlock_ b) (symbolTable_ b)
     (valueStack_ b) (labelCounter_ b) n (cerr b).
Definition print (msg : string) (b : t) : t :=
  mk (module_ b) (store b) (currentFunction_ b) (currentBlock_ b) (symbolTable_ b)
     (valueStack_ b) (labelCounter_ b) (tempCounter_ b) (cerr b ++ [msg]).

(** [IRBuilder::IRBuilder(moduleName)] *)
Definition new (moduleName : string) : t :=
  mk (mkModule moduleName []) [] None None ∅ [] 0 0 [].

Definition push (v : IRValue) (b : t) : t := set_valueStack_ (v :: valueStack_ b) b.

(** [createBlock]: a new block, attached to the current function if
    there is one. *)
Definition createBlock (name : string) (b : t) : nat * t :=
  let k := length (store b) in
  let b := set_store (store b ++ [mkBlock name []]) b in
  match currentFunction_ b with
  | Some f =>
      (k, set_module_ (mkModule (module_name (module_ b))
                         (alter (function_addBlock k) f (functions_ (module_ b)))) b)
  | None => (k, b)
  end.

Definition setCurrentBlock (k : nat) (b : t) : t := set_currentBlock_ (Some k) b.

Definition addInstruction (i : IRInstruction) (b : t) : t :=
  match currentBlock_ b with
  | Some k => set_store (alter (block_addInstruction i) k (store b)) b
  | None => b
  end.

Definition createTemp (type : IRType.t) (prefix : string) (b : t) : IRIdentifier * t :=
  (mkIdent (prefix +:+ to_string (tempCounter_ b)) type,
   set_tempCounter_ (tempCounter_ b + 1) b).

Definition createLabel (prefix : string) (b : t) : string * t :=
  (prefix +:+ "." +:+ to_string (labelCounter_ b),
   set_labelCounter_ (labelCounter_ b + 1) b).

Definition typeFromString (cType : string) (b : t) : IRType.t * t :=
  if decide (cType = "int") then (IRType.INT32, b)
  else if decide (cType = "float") then (IRType.FLOAT32, b)
  else if decide (cType = "void") then (IRType.VOID, b)
  else (IRType.INT32,
        print ("Warning: Unknown type '" +:+ cType +:+ "', defaulting to INT32.") b).

Definition popValue (b : t) : IRValue * t :=
  match valueStack_ b with
  | [] => (IRIntConstant 0, print "Error: Value stack is empty." b)
  | value :: rest => (value, set_valueStack_ rest b)
  end.

(** The [switch] of [visit] for [BinaryExpression] for the operators that
    become one instruction. *)
Definition binary_opcode (op : TokenType.t) : option IROpcode.t :=
  match op with
  | TokenType.PLUS => Some IROpcode.ADD
  | TokenType.MINUS => Some IROpcode.SUB
  | TokenType.MULTIPLY => Some IROpcode.MUL
  | TokenType.DIVIDE => Some IROpcode.DIV
  | TokenType.MODULO => Some IROpcode.MOD
  | TokenType.EQUAL => Some IROpcode.CMP_EQ
  | TokenType.NOT_EQUAL => Some IROpcode.CMP_NE
  | TokenType.LESS => Some IROpcode.CMP_LT
  | TokenType.LESS_EQUAL => Some IROpcode.CMP_LE
  | TokenType.GREATER => Some IROpcode.CMP_GT
  | TokenType.GREATER_EQUAL => Some IROpcode.CMP_GE
  | TokenType.AND => Some IROpcode.AND
  | TokenType.OR => Some IROpcode.OR
  | _ => None
  end.

Definition unary_opcode (op : TokenType.t) : option IROpcode.t :=
  match op with
  | TokenType.MINUS => Some IROpcode.NEG
  | TokenType.NOT => Some IROpcode.NOT
  | _ => None
  end.

(** The part of [visit] for [BinaryExpression] after the operand has been
    visited: both values are popped, then the operator is dispatched. *)
Definition finish_binary (lhs : Expression) (op : TokenType.t) (b : t) : t :=
  let '(right_v, b) := popValue b in
  let '(left_v, b) := popValue b in
  match binary_opcode op with
  | Some opcode =>
      let '(temp, b) := createTemp (getType left_v) "t" b in
      let b := addInstruction (mkInst opcode (Some temp) [left_v; right_v]) b in
      push (IRIdent temp) b
  | None =>
      match op with
      | TokenType.ASSIGN =>
          let invalid := push right_v (print "Error: Invalid assignment target." b) in
          match lhs with
          | VariableExpression name _ =>
              match symbolTable_ b !! name with
              | Some var =>
                  let b := addInstruction
                             (mkInst IROpcode.STORE None [right_v; IRIdent var]) b in
                  push right_v b
              | None => invalid
              end
          | _ => invalid
          end
      | _ => push left_v (print "Error: Unsupported binary operator." b)
      end
  end.

Definition finish_unary (op : TokenType.t) (b : t) : t :=
  let '(operand, b) := popValue b in
  match unary_opcode op with
  | Some opcode =>
      let '(temp, b) := createTemp (getType operand) "t" b in
      let b := addInstruction (mkInst opcode (Some temp) [operand]) b in
      push (IRIdent temp) b
  | None => push operand (print "Error: Unsupported unary operator." b)
  end.

(** The end of [visit] for [CallExpression]; the callee's name is read by the
    source but not used. *)
Definition finish_call (args : list IRValue) (b : t) : t :=
  let '(temp, b) := createTemp IRType.INT32 "t" b in
  let b := addInstruction (mkInst IROpcode.CALL (Some temp) args) b in
  push (IRIdent temp) b.

(** [visit] on the expression nodes.  Note that the handler of a binary
    expression sends the visitor to its left operand only. *)
Fixpoint visit_expr (e : Expression) (b : t) : t :=
  match e with
  | IntegerLiteral value _ => push (IRIntConstant value) b
  | FloatLiteral value _ => push (IRFloatConstant value) b
  | StringLiteral _ _ =>
      push (IRIntConstant 0)
           (print "Warning: String literals are not supported in IR." b)
  | VariableExpression name _ =>
      match symbolTable_ b !! name with
      | None =>
          push (IRIntConstant 0)
               (print ("Error: Variable '" +:+ name +:+ "' not found.") b)
      | Some var =>
          let '(temp, b) := createTemp (ident_type var) "t" b in
          let b := addInstruction (mkInst IROpcode.LOAD (Some temp) [IRIdent var]) b in
          push (IRIdent temp) b
      end
  | BinaryExpression lhs op _ _ => finish_binary lhs op (visit_expr lhs b)
  | UnaryExpression op operand _ => finish_unary op (visit_expr operand b)
  | CallExpression _ arguments _ =>
      let '(args, b) :=
        (fix visit_args (l : list Expression) (args : list IRValue) (b : t)
           : list IRValue * t :=
           match l with
           | [] => (args, b)
           | arg :: l =>
               let '(v, b) := popValue (visit_expr arg b) in
               visit_args l (args ++ [v]) b
           end) arguments [] b in
      finish_call args b
  end.

(** The argument loop of the call handler, as a function of its own. *)
Fixpoint visit_args (l : list Expression) (args : list IRValue) (b : t)
  : list IRValue * t :=
  match l with
  | [] => (args, b)
  | arg :: l =>
      let '(v, b) := popValue (visit_expr arg b) in
      visit_args l (args ++ [v]) b
  end.

(** A handler that dereferences a null pointer aborts the traversal:
    statement handlers return [None] then. *)
Notation "'let?' x ':=' c 'in' k" :=
  (match c with Some x => k | None => None end)
  (at level 10, x name, c at level 100, k at level 200, only parsing).

Definition jmp (label : string) : IRInstruction :=
  mkInst IROpcode.JMP None [IRLabel label].
Definition jmp_if (condition : IRValue) (label : string) : IRInstruction :=
  mkInst IROpcode.JMP_IF None [condition; IRLabel label].

(** [visit] for [IfStatement], in the three stretches between the visits
    of its children. *)
Definition if_labels (b : t) : (string * string * string) * t :=
  let '(thenLabel, b) := createLabel "then" b in
  let '(elseLabel, b) := createLabel "else" b in
  let '(endLabel, b) := createLabel "endif" b in
  ((thenLabel, elseLabel, endLabel), b).

Definition if_then_start (labels : string * string * string) (b : t) : t :=
  let '(thenLabel, elseLabel, _) := labels in
  let '(condition, b) := popValue b in
  let b := addInstruction (jmp_if condition thenLabel) b in
  let b := addInstruction (jmp elseLabel) b in
  let '(thenBlock, b) := createBlock thenLabel b in
  setCurrentBlock thenBlock b.

Definition if_else_start (labels : string * string * string) (b : t) : t :=
  let '(_, elseLabel, endLabel) := labels in
  let b := addInstruction (jmp endLabel) b in
  let '(elseBlock, b) := createBlock elseLabel b in
  setCurrentBlock elseBlock b.

Definition if_end (labels : string * string * string) (b : t) : t :=
  let '(_, _, endLabel) := labels in
  let b := addInstruction (jmp endLabel) b in
  let '(endBlock, b) := createBlock endLabel b in
  setCurrentBlock endBlock b.

(** [visit] for [WhileStatement], likewise. *)
Definition while_cond_start (b : t) : (string * string * string) * t :=
  let '(condLabel, b) := createLabel "while.cond" b in
  let '(bodyLabel, b) := createLabel "while.body" b in
  let '(endLabel, b) := createLabel "while.end" b in
  let b := addInstruction (jmp condLabel) b in
  let '(condBlock, b) := createBlock condLabel b in
  ((condLabel, bodyLabel, endLabel), setCurrentBlock condBlock b).

Definition while_body_start (labels : string * string * string) (b : t) : t :=
  let '(_, bodyLabel, endLabel) := labels in
  let '(condition, b) := popValue b in
  let b := addInstruction (jmp_if condition bodyLabel) b in
  let b := addInstruction (jmp endLabel) b in
  let '(bodyBlock, b) := createBlock bodyLabel b in
  setCurrentBlock bodyBlock b.

Definition while_end (labels : string * string * string) (b : t) : t :=
  let '(condLabel, _, endLabel) := labels in
  let b := addInstruction (jmp condLabel) b in
  let '(endBlock, b) := createBlock endLabel b in
  setCurrentBlock endBlock b.

Definition ret (operands : list IRValue) : IRInstruction :=
  mkInst IROpcode.RET None operands.

(** [visit] for [VarDeclaration] up to the visit of the initializer, and
    the store that follows it. *)
Definition var_declare (type name : string) (b : t) : IRIdentifier * t :=
  let '(ty, b) := typeFromString type b in
  let var := mkIdent name ty in
  let b := set_symbolTable_ (<[name := var]> (symbolTable_ b)) b in
  (var, addInstruction (mkInst IROpcode.ALLOCA (Some var) []) b).

Definition var_init (var : IRIdentifier) (b : t) : t :=
  let '(initValue, b) := popValue b in
  addInstruction (mkInst IROpcode.STORE None [initValue; IRIdent var]) b.

Definition return_value (b : t) : t :=
  let '(value, b) := popValue b in
  addInstruction (ret [value]) b.

(** [visit] for [FunctionDeclaration] before the body: the function is
    made and added to the module, its entry block becomes current, the
    symbol table is emptied and every parameter gets a slot. *)
Fixpoint convert_params (ps : list FunctionParameter) (b : t)
  : list IRFunctionParameter * t :=
  match ps with
  | [] => ([], b)
  | p :: ps =>
      let '(ty, b) := typeFromString (param_type p) b in
      let '(rest, b) := convert_params ps b in
      (mkIRParam (param_name p) ty :: rest, b)
  end.

Fixpoint alloc_params (params : list IRFunctionParameter) (b : t) : t :=
  match params with
  | [] => b
  | p :: params =>
      let var := mkIdent (irparam_name p) (irparam_type p) in
      let b := set_symbolTable_ (<[irparam_name p := var]> (symbolTable_ b)) b in
      let b := addInstruction (mkInst IROpcode.ALLOCA (Some var) []) b in
      let paramVar := mkIdent ("param." +:+ irparam_name p) (irparam_type p) in
      let b := addInstruction
                 (mkInst IROpcode.STORE None [IRIdent paramVar; IRIdent var]) b in
      alloc_params params b
  end.

Definition function_prologue (returnType name : string)
    (parameters : list FunctionParameter) (b : t) : IRType.t * t :=
  let '(retTy, b) := typeFromString returnType b in
  let '(params, b) := convert_params parameters b in
  let f := length (functions_ (module_ b)) in
  let b := set_currentFunction_ (Some f) b in
  let b := set_module_ (module_addFunction (mkFunction name retTy params []) (module_ b)) b in
  let '(entryBlock, b) := createBlock "entry" b in
  let b := setCurrentBlock entryBlock b in
  let b := set_symbolTable_ ∅ b in
  (retTy, alloc_params params b).

(** ... and after the body.  [currentBlock_] is dereferenced without a
    test: a null [currentBlock_] aborts. *)
Definition lacks_ret (insts : list IRInstruction) : bool :=
  match last insts with
  | None => true
  | Some i => bool_decide (opcode_ i ≠ IROpcode.RET)
  end.

Definition default_ret (returnType : IRType.t) : IRInstruction :=
  ret (if decide (returnType = IRType.VOID) then [] else [IRIntConstant 0]).

Definition function_epilogue (returnType : IRType.t) (b : t) : option t :=
  let? k := currentBlock_ b in
  let? blk := store b !! k in
  let b := if lacks_ret (instructions_ blk)
           then addInstruction (default_ret returnType) b else b in
  Some (set_currentBlock_ None (set_currentFunction_ None b)).

Definition expression_statement_end (b : t) : t :=
  match valueStack_ b with
  | [] => b
  | _ :: rest => set_valueStack_ rest b
  end.

(** [visit] on the statement nodes. *)
Fixpoint visit_stmt (s : Statement) (b : t) : option t :=
  let visit_list :=
    fix visit_list (l : list (option Statement)) (b : t) : option t :=
      match l with
      | [] => Some b
      | None :: _ => None
      | Some stmt :: l => let? b := visit_stmt stmt b in visit_list l b
      end in
  match s with
  | ExpressionStatement e => Some (expression_statement_end (visit_expr e b))
  | VarDeclaration type name initializer _ =>
      let '(var, b) := var_declare type name b in
      match initializer with
      | Some e => Some (var_init var (visit_expr e b))
      | None => Some b
      end
  | BlockStatement statements _ => visit_list statements b
  | IfStatement condition thenBranch elseBranch _ =>
      let '(labels, b) := if_labels b in
      let b := if_then_start labels (visit_expr condition b) in
      let? b := visit_stmt thenBranch b in
      let b := if_else_start labels b in
      let? b := match elseBranch with
                | Some stmt => visit_stmt stmt b
                | None => Some b
                end in
      Some (if_end labels b)
  | WhileStatement condition body _ =>
      let '(labels, b) := while_cond_start b in
      let b := while_body_start labels (visit_expr condition b) in
      let? b := visit_stmt body b in
      Some (while_end labels b)
  | ReturnStatement value _ =>
      match value with
      | Some e => Some (return_value (visit_expr e b))
      | None => Some (addInstruction (ret []) b)
      end
  | FunctionDeclaration returnType name parameters body _ _ =>
      let '(retTy, b) := function_prologue returnType name parameters b in
      let? b := visit_list body b in
      function_epilogue retTy b
  end.

Fixpoint visit_list (l : list (option Statement)) (b : t) : option t :=
  match l with
  | [] => Some b
  | None :: _ => None
  | Some stmt :: l => let? b := visit_stmt stmt b in visit_list l b
  end.

(** [visit] for [Program] and [build].  [build] resets the symbol table,
    the value stack and the two counters, nothing else, and hands back
    [module_]: the result is the builder, whose [module_] and [store]
    are what the caller's pointer gives access to. *)
Definition visit_program (p : Program) (b : t) : option t :=
  visit_list (prog_statements p) b.

Definition reset (b : t) : t :=
  set_tempCounter_ 0 (set_labelCounter_ 0 (set_valueStack_ [] (set_symbolTable_ ∅ b))).

Definition build (p : Program) (b : t) : option t :=
  visit_program p (reset b).

(** The blocks a function of the module owns, read through the store. *)
Definition function_blocks (b : t) (f : IRFunction) : list IRBasicBlock :=
  omap (fun k => store b !! k) (blocks_ f).

(** *** The visits of one traversal

    Every call of a handler during a traversal, with the builder as the
    handler found it and as it left it ([None] when the handler did not
    return).  The lists follow the handlers above: a child appears where
    its parent's handler sends the visitor to it, at the state reached
    there, and the children after a handler that does not return are
    never visited. *)
Inductive Node : Set :=
| ExpressionNode (e : Expression)
| StatementNode (s : Statement).

Record Visit : Type := mkVisit {
  visit_node : Node;
  visit_entry : t;
  visit_exit : option t
}.

Fixpoint expr_visits (e : Expression) (b : t) : list Visit :=
  mkVisit (ExpressionNode e) b (Some (visit_expr e b)) ::
  match e with
  | BinaryExpression lhs _ _ _ => expr_visits lhs b
  | UnaryExpression _ operand _ => expr_visits operand b
  | CallExpression _ arguments _ =>
      (fix args_visits (l : list Expression) (b : t) : list Visit :=
         match l with
         | [] => []
         | arg :: l =>
             expr_visits arg b ++ args_visits l (snd (popValue (visit_expr arg b)))
         end) arguments b
  | _ => []
  end.

Fixpoint args_visits (l : list Expression) (b : t) : list Visit :=
  match l with
  | [] => []
  | arg :: l =>
      expr_visits arg b ++ args_visits l (snd (popValue (visit_expr arg b)))
  end.

Definition after (o : option t) (k : t -> list Visit) : list Visit :=
  match o with
  | Some b => k b
  | None => []
  end.

Fixpoint stmt_visits (s : Statement) (b : t) : list Visit :=
  let list_visits :=
    fix list_visits (l : list (option Statement)) (b : t) : list Visit :=
      match l with
      | [] => []
      | None :: _ => []
      | Some stmt :: l =>
          stmt_visits stmt b ++ after (visit_stmt stmt b) (list_visits l)
      end in
  mkVisit (StatementNode s) b (visit_stmt s b) ::
  match s with
  | ExpressionStatement e => expr_visits e b
  | VarDeclaration type name initializer _ =>
      match initializer with
      | Some e => expr_visits e (snd (var_declare type name b))
      | None => []
      end
  | BlockStatement statements _ => list_visits statements b
  | IfStatement condition thenBranch elseBranch _ =>
      let '(labels, b) := if_labels b in
      expr_visits condition b ++
      let b := if_then_start labels (visit_expr condition b) in
      stmt_visits thenBranch b ++
      after (visit_stmt thenBranch b) (fun b =>
        match elseBranch with
        | Some stmt => stmt_visits stmt (if_else_start labels b)
        | None => []
        end)
  | WhileStatement condition body _ =>
      let '(labels, b) := while_cond_start b in
      expr_visits condition b ++
      stmt_visits body (while_body_start labels (visit_expr condition b))
  | ReturnStatement value _ =>
      match value with
      | Some e => expr_visits e b
      | None => []
      end
  | FunctionDeclaration returnType name parameters body bodyLocation _ =>
      (* the body is a block statement, visited as one *)
      let b := snd (function_prologue returnType name parameters b) in
      mkVisit (StatementNode (BlockStatement body bodyLocation)) b
              (visit_stmt (BlockStatement body bodyLocation) b) ::
      list_visits body b
  end.

Fixpoint list_visits (l : list (option Statement)) (b : t) : list Visit :=
  match l with
  | [] => []
  | None :: _ => []
  | Some stmt :: l =>
      stmt_visits stmt b ++ after (visit_stmt stmt b) (list_visits l)
  end.

(** The visits of one [build] call. *)
Definition build_visits (p : Program) (b : t) : list Visit :=
  list_visits (prog_statements p) (reset b).

(** The operand-stack discipline of one visit: an expression handler
    leaves the stack it found with one value on top, a statement handler
    leaves the stack it found. *)
Definition stack_discipline (v : Visit) : Prop :=
  match visit_exit v with
  | None => True
  | Some b' =>
      match visit_node v with
      | ExpressionNode _ =>
          exists value, valueStack_ b' = value :: valueStack_ (visit_entry v)
      | StatementNode _ => valueStack_ b' = valueStack_ (visit_entry v)
      end
  end.

(** *** The notions the properties are stated with *)

(** A jump is put at the end of the current block, then a new block
    becomes current: the step that ends every stretch of the [if] and
    [while] handlers. *)
Definition jump_and_open (target name : string) (b : t) : t :=
  let b := addInstruction (jmp target) b in
  let '(k, b) := createBlock name b in
  setCurrentBlock k b.

(** The handlers of [if] and [while] with their stretches named. *)
Definition visit_else (el : option Statement) (b : t) : option t :=
  match el with
  | Some stmt => visit_stmt stmt b
  | None => Some b
  end.

Definition else_visits (el : option Statement) (b : t) : list Visit :=
  match el with
  | Some stmt => stmt_visits stmt b
  | None => []
  end.

Definition ends_with (k : nat) (tail : list IRInstruction) (b : t) : Prop :=
  exists blk pre, store b !! k = Some blk /\ instructions_ blk = pre ++ tail.

Definition block_named (k : nat) (name : string) (b : t) : Prop :=
  exists blk, store b !! k = Some blk /\ block_name blk = name.

Definition last_is_ret (insts : list IRInstruction) : Prop :=
  exists i, last insts = Some i /\ opcode_ i = IROpcode.RET.

Definition owned (b : t) (k : nat) : Prop :=
  exists f, f ∈ functions_ (module_ b) /\ k ∈ blocks_ f.

(** No function is current, and the blocks the module's functions own
    exist and are not the current block. *)
Definition detached (b : t) : Prop :=
  currentFunction_ b = None /\
  forall k, owned b k -> k < length (store b) /\ currentBlock_ b <> Some k.

Definition wf (b : t) : Prop :=
  forall k, currentBlock_ b = Some k -> k < length (store b).

(** [frame b b']: from [b] to [b'] blocks were only added, the blocks
    that were not current are as they were, the block that was current
    has only grown at its end, and the current block is the same one, or
    none, or one of the added blocks. *)
Record frame (b b' : t) : Prop := mkFrame {
  frame_length : length (store b) <= length (store b');
  frame_label : (labelCounter_ b <= labelCounter_ b')%Z;
  frame_old : forall k, k < length (store b) -> currentBlock_ b <> Some k ->
                store b' !! k = store b !! k;
  frame_current : forall k blk, currentBlock_ b = Some k -> store b !! k = Some blk ->
                exists extra, store b' !! k =
                  Some (mkBlock (block_name blk) (instructions_ blk ++ extra));
  frame_next : currentBlock_ b' = currentBlock_ b \/ currentBlock_ b' = None \/
               exists k, currentBlock_ b' = Some k /\ length (store b) <= k;
  frame_wf : wf b -> wf b'
}.

(** Expressions: on top of [frame], the current block and function, the
    module, the label counter and the number of blocks stay the same. *)
Record steady (b b' : t) : Prop := mkSteady {
  steady_frame : frame b b';
  steady_block : currentBlock_ b' = currentBlock_ b;
  steady_function : currentFunction_ b' = currentFunction_ b;
  steady_module : module_ b' = module_ b;
  steady_label : labelCounter_ b' = labelCounter_ b;
  steady_length : length (store b') = length (store b)
}.

Definition quiet (b b' : t) : Prop :=
  currentFunction_ b = None -> module_ b' = module_ b /\ currentFunction_ b' = None.

(** The names of the blocks in the store, and those of the blocks that
    were added from [b] to [b']. *)
Definition names (b : t) : list string := map block_name (store b).

Definition new_names (b b' : t) : list string := drop (length (store b)) (names b').

(** The names that come from [createLabel]: all but the entry blocks'. *)
Definition labels (l : list string) : list string := filter (fun x => x <> "entry") l.

(** [numbered lo hi name]: [name] is "entry" or a label that
    [createLabel] made when the counter was [lo] or more and below [hi]. *)
Definition numbered (lo hi : Z) (name : string) : Prop :=
  name = "entry" \/
  exists prefix n, name = prefix +:+ "." +:+ to_string n /\ (lo <= n < hi)%Z.

(** Labels of the counter values from [lo] up to [hi], none twice. *)
Definition spread (lo hi : Z) (l : list string) : Prop :=
  Forall (numbered lo hi) l /\ NoDup (labels l).

(** What follows the last dot of a string. *)
Fixpoint after_dot (s : string) : option string :=
  match s with
  | EmptyString => None
  | String c s' =>
      match after_dot s' with
      | Some r => Some r
      | None => if Ascii.eqb c "." then Some s' else None
      end
  end.

(** [still b b']: no block was added and no label was made. *)
Definition still (b b' : t) : Prop :=
  length (store b') = length (store b) /\ labelCounter_ b' = labelCounter_ b.

(** [step b b' new]: a stretch of the traversal that added the blocks
    named [new], in this order. *)
Record step (b b' : t) (new : list string) : Prop := mkStep {
  step_frame : frame b b';
  step_names : new_names b b' = new
}.

(** The statements proved by induction on the AST. *)
Definition expr_ok (e : Expression) : Prop :=
  forall b, valueStack_ b = [] ->
    (exists v, valueStack_ (visit_expr e b) = [v]) /\
    Forall stack_discipline (expr_visits e b).

Definition stmt_ok (s : Statement) : Prop :=
  forall b, valueStack_ b = [] ->
    (forall b', visit_stmt s b = Some b' -> valueStack_ b' = []) /\
    Forall stack_discipline (stmt_visits s b).

Definition stmt_frame (s : Statement) : Prop :=
  forall b b', visit_stmt s b = Some b' -> frame b b'.

Definition stmt_quiet (s : Statement) : Prop :=
  plain s = true -> forall b, exists b', visit_stmt s b = Some b' /\ quiet b b'.

Definition stmt_spread (s : Statement) : Prop :=
  forall b b', visit_stmt s b = Some b' ->
    spread (labelCounter_ b) (labelCounter_ b') (new_names b b').

Definition keeps_block (s : Statement) : Prop :=
  plain s = true -> forall b b', visit_stmt s b = Some b' ->
  is_Some (currentBlock_ b) -> is_Some (currentBlock_ b').

(** *** Builders and programs of the examples *)

(** The builder inside [int f(int x, int y)], before the body. *)
Definition in_function : t :=
  snd (function_prologue "int" "f" [mkParam "int" "x" here; mkParam "int" "y" here]
         (new "m")).

Definition x_positive : Expression :=
  BinaryExpression (VariableExpression "x" here) TokenType.GREATER
                   (IntegerLiteral 0 here) here.

Definition assign_y (v : Z) : Statement :=
  BlockStatement
    [Some (ExpressionStatement
             (BinaryExpression (VariableExpression "y" here) TokenType.ASSIGN
                               (IntegerLiteral v here) here))] here.

(** Two functions with an [if] each. *)
Definition two_ifs : Program :=
  mkProgram
    [Some (FunctionDeclaration "void" "f" []
             [Some (IfStatement (IntegerLiteral 1 here) (BlockStatement [] here) None here)]
             here here);
     Some (FunctionDeclaration "void" "g" []
             [Some (IfStatement (IntegerLiteral 1 here) (BlockStatement [] here) None here)]
             here here)].

End IRBuilder.

(** ** semantic/semantic_analyzer.h, semantic/semantic_analyzer.cpp *)

Module SemanticAnalyzer.

Inductive SymbolType : Set := VARIABLE | FUNCTION.

#[global] Instance SymbolType_eq_dec : EqDecision SymbolType.
Proof. solve_decision. Defined.

Record Symbol : Set := mkSymbol {
  name : string;
  type : string;
  symbolType : SymbolType;
  location : SourceLocation;
  paramTypes : list string
}.

(** A [Scope] is its table [symbols_]; the chain of [parent_] pointers
    from a scope to the global one is the list of the tables on the way,
    the scope itself first.  A null scope pointer has the empty chain. *)
Definition Scope : Type := gmap string Symbol.

Definition addSymbol (symbol : Symbol) (scope : Scope) : Scope :=
  <[name symbol := symbol]> scope.

Fixpoint findSymbol (chain : list Scope) (n : string) : option Symbol :=
  match chain with
  | [] => None
  | scope :: parent =>
      match scope !! n with
      | Some symbol => Some symbol
      | None => findSymbol parent n
      end
  end.

Record SemanticError : Set := mkError {
  message : string;
  error_location : SourceLocation
}.

Record t : Type := mk {
  currentScope_ : list Scope;
  currentFunctionReturnType_ : string;
  errors_ : list SemanticError;
  cerr : list string
}.

Definition enterScope (a : t) : t :=
  mk (∅ :: currentScope_ a) (currentFunctionReturnType_ a) (errors_ a) (cerr a).

Definition exitScope (a : t) : t :=
  mk (tail (currentScope_ a)) (currentFunctionReturnType_ a) (errors_ a) (cerr a).

Definition set_returnType (ty : string) (a : t) : t :=
  mk (currentScope_ a) ty (errors_ a) (cerr a).

(** [SemanticAnalyzer::SemanticAnalyzer()]: the global scope is entered;
    [currentFunctionReturnType_] starts empty. *)
Definition new : t := enterScope (mk [] "" [] []).

Definition addError (msg : string) (loc : SourceLocation) (a : t) : t :=
  mk (currentScope_ a) (currentFunctionReturnType_ a)
     (errors_ a ++ [mkError msg loc])
     (cerr a ++ ["Semantic error at line " +:+ to_string (line loc) +:+ ", column "
                 +:+ to_string (column loc) +:+ ": " +:+ msg]).

(** [currentScope_->findSymbol(name)] and [currentScope_->addSymbol(symbol)]:
    [None] stands for the dereference of a null [currentScope_]. *)
Definition lookup (a : t) (n : string) : option (option Symbol) :=
  match currentScope_ a with
  | [] => None
  | chain => Some (findSymbol chain n)
  end.

Definition declare (symbol : Symbol) (a : t) : option t :=
  match currentScope_ a with
  | [] => None
  | scope :: parent =>
      Some (mk (addSymbol symbol scope :: parent) (currentFunctionReturnType_ a)
               (errors_ a) (cerr a))
  end.

Definition isTypeCompatible (type1 type2 : string) : bool :=
  if decide (type1 = type2) then true
  else if decide (type1 = "int" /\ type2 = "float") then true
  else false.

Definition getCommonType (type1 type2 : string) : string :=
  if decide (type1 = "float" \/ type2 = "float") then "float"
  else if decide (type1 = "int" /\ type2 = "int") then "int"
  else "unknown".

Definition is_comparison (op : TokenType.t) : bool :=
  match op with
  | TokenType.EQUAL | TokenType.NOT_EQUAL | TokenType.LESS | TokenType.LESS_EQUAL
  | TokenType.GREATER | TokenType.GREATER_EQUAL => true
  | _ => false
  end.

Definition is_logical (op : TokenType.t) : bool :=
  match op with
  | TokenType.AND | TokenType.OR => true
  | _ => false
  end.

Definition is_arithmetic (op : TokenType.t) : bool :=
  match op with
  | TokenType.PLUS | TokenType.MINUS | TokenType.MULTIPLY | TokenType.DIVIDE
  | TokenType.MODULO => true
  | _ => false
  end.

Definition tokenTypeToString (ty : TokenType.t) : string :=
  match ty with
  | TokenType.PLUS => "+"
  | TokenType.MINUS => "-"
  | TokenType.MULTIPLY => "*"
  | TokenType.DIVIDE => "/"
  | TokenType.MODULO => "%"
  | TokenType.ASSIGN => "="
  | TokenType.EQUAL => "=="
  | TokenType.NOT_EQUAL => "!="
  | TokenType.LESS => "<"
  | TokenType.LESS_EQUAL => "<="
  | TokenType.GREATER => ">"
  | TokenType.GREATER_EQUAL => ">="
  | TokenType.AND => "&&"
  | TokenType.OR => "||"
  | TokenType.NOT => "!"
  | _ => "unknown"
  end.

Notation "'let?' x ':=' c 'in' k" :=
  (match c with Some x => k | None => None end)
  (at level 10, x name, c at level 100, k at level 200, only parsing).

Fixpoint getExpressionType (a : t) (expr : Expression) : option string :=
  match expr with
  | IntegerLiteral _ _ => Some "int"
  | FloatLiteral _ _ => Some "float"
  | StringLiteral _ _ => Some "string"
  | VariableExpression n _ =>
      let? found := lookup a n in
      match found with
      | Some symbol =>
          if decide (symbolType symbol = VARIABLE) then Some (type symbol)
          else Some "unknown"
      | None => Some "unknown"
      end
  | BinaryExpression lhs op rhs _ =>
      let? leftType := getExpressionType a lhs in
      let? rightType := getExpressionType a rhs in
      if is_comparison op || is_logical op then Some "int"
      else Some (getCommonType leftType rightType)
  | UnaryExpression _ operand _ => getExpressionType a operand
  | CallExpression callee _ _ =>
      let? found := lookup a callee in
      match found with
      | Some symbol =>
          if decide (symbolType symbol = FUNCTION) then Some (type symbol)
          else Some "unknown"
      | None => Some "unknown"
      end
  end.

(** The checks of [visit] for [BinaryExpression] once both operands have
    been visited. *)
Definition check_binary (lhs : Expression) (op : TokenType.t)
    (loc : SourceLocation) (leftType rightType : string) (a : t) : t :=
  let incompatible :=
    negb (isTypeCompatible leftType rightType) &&
    negb (isTypeCompatible rightType leftType) in
  let unknown :=
    bool_decide (leftType = "unknown") || bool_decide (rightType = "unknown") in
  if is_arithmetic op then
    if unknown then a
    else
      let a := if incompatible
               then addError ("Type mismatch in binary expression: " +:+ leftType
                              +:+ " " +:+ tokenTypeToString op +:+ " " +:+ rightType)
                             loc a
               else a in
      if bool_decide (op = TokenType.MODULO) &&
         (bool_decide (leftType <> "int") || bool_decide (rightType <> "int"))
      then addError "Modulo operation requires integer operands" loc a
      else a
  else if is_comparison op then
    if unknown then a
    else if incompatible
    then addError ("Type mismatch in comparison: " +:+ leftType +:+ " "
                   +:+ tokenTypeToString op +:+ " " +:+ rightType) loc a
    else a
  else if is_logical op then
    if bool_decide (leftType <> "int") || bool_decide (rightType <> "int")
    then addError "Logical operators require integer (boolean) operands" loc a
    else a
  else if bool_decide (op = TokenType.ASSIGN) then
    match lhs with
    | VariableExpression _ _ =>
        if isTypeCompatible rightType leftType then a
        else addError ("Cannot assign " +:+ rightType +:+ " to " +:+ leftType) loc a
    | _ => addError "Left side of assignment must be a variable" loc a
    end
  else a.

Definition check_unary (op : TokenType.t) (loc : SourceLocation)
    (operandType : string) (a : t) : t :=
  if bool_decide (op = TokenType.MINUS) then
    if bool_decide (operandType <> "int") && bool_decide (operandType <> "float")
    then addError "Unary minus requires numeric operand" loc a
    else a
  else if bool_decide (op = TokenType.NOT) then
    if bool_decide (operandType <> "int")
    then addError "Logical NOT requires integer (boolean) operand" loc a
    else a
  else a.

Definition arity_message (callee : string) (expected got : nat) : string :=
  "Function '" +:+ callee +:+ "' expects " +:+ to_string (Z.of_nat expected)
  +:+ " arguments, but got " +:+ to_string (Z.of_nat got).

Definition check_argument (callee : string) (i : nat) (paramType argType : string)
    (loc : SourceLocation) (a : t) : t :=
  if isTypeCompatible argType paramType then a
  else addError ("Argument " +:+ to_string (Z.of_nat (i + 1)) +:+ " of function '"
                 +:+ callee +:+ "' expects " +:+ paramType +:+ ", but got " +:+ argType)
                loc a.

(** [visit] on the expression nodes. *)
Fixpoint visit_expr (e : Expression) (a : t) : option t :=
  match e with
  | IntegerLiteral _ _ | FloatLiteral _ _ | StringLiteral _ _ => Some a
  | VariableExpression n loc =>
      let? found := lookup a n in
      match found with
      | None => Some (addError ("Undefined variable '" +:+ n +:+ "'") loc a)
      | Some symbol =>
          if decide (symbolType symbol <> VARIABLE)
          then Some (addError ("'" +:+ n +:+ "' is not a variable") loc a)
          else Some a
      end
  | BinaryExpression lhs op rhs loc =>
      let? a := visit_expr lhs a in
      let? a := visit_expr rhs a in
      let? leftType := getExpressionType a lhs in
      let? rightType := getExpressionType a rhs in
      Some (check_binary lhs op loc leftType rightType a)
  | UnaryExpression op operand loc =>
      let? a := visit_expr operand a in
      let? operandType := getExpressionType a operand in
      Some (check_unary op loc operandType a)
  | CallExpression callee arguments loc =>
      let? found := lookup a callee in
      match found with
      | None => Some (addError ("Undefined function '" +:+ callee +:+ "'") loc a)
      | Some symbol =>
          if decide (symbolType symbol <> FUNCTION)
          then Some (addError ("'" +:+ callee +:+ "' is not a function") loc a)
          else if decide (length arguments <> length (paramTypes symbol))
          then Some (addError (arity_message callee (length (paramTypes symbol))
                                 (length arguments)) loc a)
          else
            (fix check_args (i : nat) (args : list Expression) (params : list string)
                            (a : t) : option t :=
               match args, params with
               | arg :: args, paramType :: params =>
                   let? a := visit_expr arg a in
                   let? argType := getExpressionType a arg in
                   check_args (S i) args params
                     (check_argument callee i paramType argType
                        (expression_location arg) a)
               | _, _ => Some a
               end) 0 arguments (paramTypes symbol) a
      end
  end.

Definition variable_symbol (ty n : string) (loc : SourceLocation) : Symbol :=
  mkSymbol n ty VARIABLE loc [].

Definition function_symbol (returnType n : string)
    (parameters : list FunctionParameter) (loc : SourceLocation) : Symbol :=
  mkSymbol n returnType FUNCTION loc (map param_type parameters).

Fixpoint declare_params (ps : list FunctionParameter) (a : t) : option t :=
  match ps with
  | [] => Some a
  | p :: ps =>
      let? a := declare (variable_symbol (param_type p) (param_name p) (param_location p)) a in
      declare_params ps a
  end.

Definition check_condition (what : string) (loc : SourceLocation)
    (condType : string) (a : t) : t :=
  if bool_decide (condType <> "int")
  then addError (what +:+ " condition must be an integer (boolean) expression") loc a
  else a.

(** [visit] on the statement nodes; a null statement in a list aborts. *)
Fixpoint visit_stmt (s : Statement) (a : t) : option t :=
  let visit_list :=
    fix visit_list (l : list (option Statement)) (a : t) : option t :=
      match l with
      | [] => Some a
      | None :: _ => None
      | Some stmt :: l => let? a := visit_stmt stmt a in visit_list l a
      end in
  match s with
  | ExpressionStatement e => visit_expr e a
  | VarDeclaration ty n initializer loc =>
      let? existing := lookup a n in
      let redefined :=
        match existing with
        | Some symbol => bool_decide (symbolType symbol = VARIABLE)
        | None => false
        end in
      if redefined
      then Some (addError ("Redefinition of variable '" +:+ n +:+ "'") loc a)
      else
        let? a := declare (variable_symbol ty n loc) a in
        match initializer with
        | Some e =>
            let? a := visit_expr e a in
            let? initType := getExpressionType a e in
            if isTypeCompatible initType ty then Some a
            else Some (addError ("Cannot initialize " +:+ ty +:+ " with " +:+ initType)
                                loc a)
        | None => Some a
        end
  | BlockStatement statements _ =>
      let? a := visit_list statements (enterScope a) in
      Some (exitScope a)
  | IfStatement condition thenBranch elseBranch loc =>
      let? a := visit_expr condition a in
      let? condType := getExpressionType a condition in
      let a := check_condition "If" loc condType a in
      let? a := visit_stmt thenBranch a in
      match elseBranch with
      | Some stmt => visit_stmt stmt a
      | None => Some a
      end
  | WhileStatement condition body loc =>
      let? a := visit_expr condition a in
      let? condType := getExpressionType a condition in
      let a := check_condition "While" loc condType a in
      visit_stmt body a
  | ReturnStatement value loc =>
      if decide (currentFunctionReturnType_ a = "")
      then Some (addError "Return statement outside of function" loc a)
      else
        match value with
        | Some e =>
            let? a := visit_expr e a in
            let? valueType := getExpressionType a e in
            if isTypeCompatible valueType (currentFunctionReturnType_ a) then Some a
            else Some (addError ("Cannot return " +:+ valueType
                                 +:+ " from function returning "
                                 +:+ currentFunctionReturnType_ a) loc a)
        | None =>
            if decide (currentFunctionReturnType_ a <> "void")
            then Some (addError ("Function returning " +:+ currentFunctionReturnType_ a
                                 +:+ " must return a value") loc a)
            else Some a
        end
  | FunctionDeclaration returnType n parameters body _ loc =>
      let? existing := lookup a n in
      match existing with
      | Some _ => Some (addError ("Redefinition of function '" +:+ n +:+ "'") loc a)
      | None =>
          let? a := declare (function_symbol returnType n parameters loc) a in
          let prevReturnType := currentFunctionReturnType_ a in
          let a := set_returnType returnType a in
          let a := enterScope a in
          let? a := declare_params parameters a in
          (* the body is a block: it enters a scope of its own *)
          let? a := visit_list body (enterScope a) in
          let a := exitScope a in
          let a := exitScope a in
          Some (set_returnType prevReturnType a)
      end
  end.

Fixpoint visit_list (l : list (option Statement)) (a : t) : option t :=
  match l with
  | [] => Some a
  | None :: _ => None
  | Some stmt :: l => let? a := visit_stmt stmt a in visit_list l a
  end.

Definition print_symbol : Symbol :=
  mkSymbol "print" "void" FUNCTION (mkLoc 0 0) ["int"].

Definition visit_program (p : Program) (a : t) : option t :=
  let? a := declare print_symbol a in
  visit_list (prog_statements p) a.

(** [analyze]: nested scopes left over are closed, the errors are
    cleared, the program is visited. *)
Definition global_only (chain : list Scope) : list Scope :=
  match last chain with
  | Some scope => [scope]
  | None => []
  end.

Definition analyze (p : Program) (a : t) : option t :=
  visit_program p (mk (global_only (currentScope_ a)) (currentFunctionReturnType_ a) [] (cerr a)).

(** *** The notions the properties are stated with *)

(** [calm a a']: the same scopes. *)
Definition calm (a a' : t) : Prop := currentScope_ a' = currentScope_ a.

(** [level a a']: as many scopes. *)
Definition level (a a' : t) : Prop :=
  length (currentScope_ a') = length (currentScope_ a).

Definition scoped (a : t) : Prop := currentScope_ a <> [].

(** The statements proved by induction on the AST. *)
Definition expr_total (e : Expression) : Prop :=
  forall a, scoped a -> exists a', visit_expr e a = Some a' /\ calm a a'.

Definition stmt_total (s : Statement) : Prop :=
  whole s = true ->
  forall a, scoped a -> exists a', visit_stmt s a = Some a' /\ level a a'.

(** *** Sources and scopes of the examples *)

Definition shadowing_source : string := "int x = 1; { int x = 2; }".

Definition global_x : Scope := addSymbol (variable_symbol "int" "x" (mkLoc 1 5)) ∅.

Definition arity_source : string :=
  "int f(int a) { return a; } int g() { return f(1, 2); }".

Definition f_symbol : Symbol :=
  function_symbol "int" "f" [mkParam "int" "a" (mkLoc 1 11)] (mkLoc 1 5).

Definition global_f : t := mk [addSymbol f_symbol ∅] "int" [] [].

End SemanticAnalyzer.

(** * Properties of the lexer *)

Module LexerFacts.
Import Lexer.

Lemma onward_refl l : onward l l.
Proof. split; [reflexivity | lia]. Qed.

Lemma onward_trans l1 l2 l3 : onward l1 l2 -> onward l2 l3 -> onward l1 l3.
Proof. intros [S1 C1] [S2 C2]. split; [congruence | lia]. Qed.

Lemma onward_left l l' : onward l l' -> left l' <= left l.
Proof. intros [S C]. unfold left. rewrite S. lia. Qed.

Lemma onward_advance l : onward l (snd (advance l)).
Proof. split; simpl; [reflexivity | lia]. Qed.

Lemma onward_newline l : onward l (newline l).
Proof. split; simpl; [reflexivity | lia]. Qed.

Lemma left_advance l : isAtEnd l = false -> left (snd (advance l)) < left l.
Proof.
  unfold isAtEnd, left. simpl. intros H. apply Nat.leb_gt in H. lia.
Qed.

Lemma left_pos l : isAtEnd l = false -> 0 < left l.
Proof. unfold isAtEnd, left. intros H. apply Nat.leb_gt in H. lia. Qed.

Lemma left_0 l : left l = 0 -> isAtEnd l = true.
Proof. unfold isAtEnd, left. intros H. apply Nat.leb_le. lia. Qed.

Lemma peek_at_end l : isAtEnd l = true -> peek 0 l = NUL.
Proof.
  unfold isAtEnd, peek. rewrite Nat.add_0_r. intros ->. reflexivity.
Qed.

(** A loop on a budget: when every round takes a character, the
    characters that are left are budget enough. *)
Section Budget.
Variable F : nat -> t -> t.
Variable cond : t -> bool.
Variable body : t -> t.
Hypothesis F_0 : forall l, F 0 l = l.
Hypothesis F_S : forall n l, F (S n) l = if cond l then F n (body l) else l.
Hypothesis cond_end : forall l, cond l = true -> isAtEnd l = false.
Hypothesis body_onward : forall l, cond l = true -> onward l (body l).
Hypothesis body_left : forall l, cond l = true -> left (body l) < left l.

Lemma budget_same n m l : left l <= n -> left l <= m -> F n l = F m l.
Proof.
  revert m l. induction n as [|n IH]; intros m l Hn Hm.
  - rewrite F_0. destruct m as [|m]; [symmetry; apply F_0|].
    rewrite F_S. destruct (cond l) eqn:E; [|reflexivity].
    apply cond_end, left_pos in E. lia.
  - rewrite F_S. destruct (cond l) eqn:E.
    + pose proof (body_left l E) as Hl.
      destruct m as [|m]; [lia|]. rewrite F_S, E. apply IH; lia.
    + destruct m as [|m]; [symmetry; apply F_0 | rewrite F_S, E; reflexivity].
Qed.

Lemma budget_enough n l : left l <= n -> F n l = F (left l) l.
Proof. intros H. apply budget_same; [exact H | lia]. Qed.

Lemma budget_onward n l : onward l (F n l).
Proof.
  revert l. induction n as [|n IH]; intros l.
  - rewrite F_0. apply onward_refl.
  - rewrite F_S. destruct (cond l) eqn:E; [|apply onward_refl].
    eapply onward_trans; [apply body_onward, E | apply IH].
Qed.

(** With the budget of the characters left, the loop stops because its
    condition fails. *)
Lemma budget_stops n l : left l <= n -> cond (F n l) = false.
Proof.
  revert l. induction n as [|n IH]; intros l H.
  - rewrite F_0. destruct (cond l) eqn:E; [|reflexivity].
    apply cond_end, left_pos in E. lia.
  - rewrite F_S. destruct (cond l) eqn:E; [|exact E].
    apply IH. pose proof (body_left l E). lia.
Qed.
End Budget.

Lemma onward_next_char l : onward l (next_char l).
Proof.
  unfold next_char. destruct (eqc (peek 0 l) LF).
  - eapply onward_trans; [apply onward_newline | apply onward_advance].
  - apply onward_advance.
Qed.

Lemma left_next_char l : isAtEnd l = false -> left (next_char l) < left l.
Proof.
  intros H. unfold next_char. destruct (eqc (peek 0 l) LF).
  - apply (left_advance (newline l)). exact H.
  - apply left_advance, H.
Qed.

(** *** The loops of the scanner *)

Lemma skip_line_enough n l : left l <= n -> skip_line n l = skip_line (left l) l.
Proof.
  apply (budget_enough skip_line line_goes_on (fun l => snd (advance l))); try reflexivity.
  - intros l' H. apply andb_prop in H as [_ H]. apply negb_true_iff, H.
  - intros l' H. apply left_advance. apply andb_prop in H as [_ H]. apply negb_true_iff, H.
Qed.

Lemma skip_line_onward n l : onward l (skip_line n l).
Proof.
  apply (budget_onward skip_line line_goes_on (fun l => snd (advance l))); try reflexivity.
  intros; apply onward_advance.
Qed.

Lemma skip_line_stops n l : left l <= n -> line_goes_on (skip_line n l) = false.
Proof.
  apply (budget_stops skip_line line_goes_on (fun l => snd (advance l))); try reflexivity.
  - intros l' H. apply andb_prop in H as [_ H]. apply negb_true_iff, H.
  - intros l' H. apply left_advance. apply andb_prop in H as [_ H]. apply negb_true_iff, H.
Qed.

Lemma skip_block_enough n l : left l <= n -> skip_block n l = skip_block (left l) l.
Proof.
  apply (budget_enough skip_block comment_goes_on next_char); try reflexivity.
  - intros l' H. apply andb_prop in H as [H _]. apply negb_true_iff, H.
  - intros l' H. apply left_next_char. apply andb_prop in H as [H _]. apply negb_true_iff, H.
Qed.

Lemma skip_block_onward n l : onward l (skip_block n l).
Proof.
  apply (budget_onward skip_block comment_goes_on next_char); try reflexivity.
  intros; apply onward_next_char.
Qed.

Lemma skip_block_stops n l : left l <= n -> comment_goes_on (skip_block n l) = false.
Proof.
  apply (budget_stops skip_block comment_goes_on next_char); try reflexivity.
  - intros l' H. apply andb_prop in H as [H _]. apply negb_true_iff, H.
  - intros l' H. apply left_next_char. apply andb_prop in H as [H _]. apply negb_true_iff, H.
Qed.

Lemma string_body_enough n l : left l <= n -> string_body n l = string_body (left l) l.
Proof.
  apply (budget_enough string_body string_goes_on next_char); try reflexivity.
  - intros l' H. apply andb_prop in H as [_ H]. apply negb_true_iff, H.
  - intros l' H. apply left_next_char. apply andb_prop in H as [_ H]. apply negb_true_iff, H.
Qed.

Lemma string_body_onward n l : onward l (string_body n l).
Proof.
  apply (budget_onward string_body string_goes_on next_char); try reflexivity.
  intros; apply onward_next_char.
Qed.

Lemma string_body_stops n l : left l <= n -> string_goes_on (string_body n l) = false.
Proof.
  apply (budget_stops string_body string_goes_on next_char); try reflexivity.
  - intros l' H. apply andb_prop in H as [_ H]. apply negb_true_iff, H.
  - intros l' H. apply left_next_char. apply andb_prop in H as [_ H]. apply negb_true_iff, H.
Qed.

Section AdvanceWhile.
Variable p : ascii -> bool.
Hypothesis p_NUL : p NUL = false.

Lemma p_not_at_end l : p (peek 0 l) = true -> isAtEnd l = false.
Proof.
  intros H. destruct (isAtEnd l) eqn:E; [|reflexivity].
  rewrite (peek_at_end l E) in H. congruence.
Qed.

Lemma advance_while_enough n l :
  left l <= n -> advance_while p n l = advance_while p (left l) l.
Proof.
  apply (budget_enough (advance_while p) (fun l => p (peek 0 l)) (fun l => snd (advance l)));
    try reflexivity.
  - apply p_not_at_end.
  - intros l' H. apply left_advance, p_not_at_end, H.
Qed.

Lemma advance_while_stops n l :
  left l <= n -> p (peek 0 (advance_while p n l)) = false.
Proof.
  apply (budget_stops (advance_while p) (fun l => p (peek 0 l)) (fun l => snd (advance l)));
    try reflexivity.
  - apply p_not_at_end.
  - intros l' H. apply left_advance, p_not_at_end, H.
Qed.
End AdvanceWhile.

Lemma advance_while_onward p n l : onward l (advance_while p n l).
Proof.
  apply (budget_onward (advance_while p) (fun l => p (peek 0 l)) (fun l => snd (advance l)));
    try reflexivity.
  intros; apply onward_advance.
Qed.

Lemma skipWhitespace_S n l :
  skipWhitespace (S n) l = if blank_ahead l then skipWhitespace n (skip_blank l) else l.
Proof.
  cbn [skipWhitespace]. unfold blank_ahead, skip_blank.
  destruct (isAtEnd l); [reflexivity|]. cbn [negb andb].
  destruct (eqc (peek 0 l) " "); [reflexivity|].
  destruct (eqc (peek 0 l) TAB); [reflexivity|].
  destruct (eqc (peek 0 l) CR); [reflexivity|]. cbn [orb].
  destruct (eqc (peek 0 l) LF); [reflexivity|]. cbn [orb].
  destruct (eqc (peek 0 l) "/"); [|reflexivity]. cbn [andb].
  destruct (eqc (peek 1 l) "/"); [reflexivity|]. cbn [orb].
  destruct (eqc (peek 1 l) "*"); reflexivity.
Qed.

Lemma blank_ahead_not_at_end l : blank_ahead l = true -> isAtEnd l = false.
Proof. unfold blank_ahead. intros H. apply andb_prop in H as [H _]. apply negb_true_iff, H. Qed.

Lemma skip_blank_onward l : onward l (skip_blank l).
Proof.
  unfold skip_blank. cbv zeta.
  destruct (eqc (peek 0 l) " " || eqc (peek 0 l) TAB || eqc (peek 0 l) CR);
    [apply onward_advance|].
  destruct (eqc (peek 0 l) LF).
  { eapply onward_trans; [apply onward_newline | apply onward_advance]. }
  destruct (eqc (peek 1 l) "/"); [apply skip_line_onward|].
  cbv zeta.
  eapply onward_trans; [apply onward_advance|].
  eapply onward_trans; [apply onward_advance|].
  eapply onward_trans; [apply skip_block_onward|].
  destruct (negb _); [|apply onward_refl].
  eapply onward_trans; apply onward_advance.
Qed.

Lemma skip_blank_left l : blank_ahead l = true -> left (skip_blank l) < left l.
Proof.
  intros H. pose proof (blank_ahead_not_at_end l H) as E.
  unfold blank_ahead in H. rewrite E in H. cbn [negb andb] in H.
  unfold skip_blank. cbv zeta.
  destruct (eqc (peek 0 l) " " || eqc (peek 0 l) TAB || eqc (peek 0 l) CR) eqn:W;
    [apply left_advance, E|]. cbn [orb] in H.
  destruct (eqc (peek 0 l) LF) eqn:N; [apply (left_advance (newline l)), E|].
  cbn [orb] in H. apply andb_prop in H as [Hs H].
  destruct (eqc (peek 1 l) "/") eqn:S1.
  - pose proof (left_pos l E) as Hp. pose proof (left_advance l E) as Ha.
    destruct (left l) as [|m] eqn:Em; [lia|].
    cbn [skip_line]. rewrite N, E. cbn [negb andb].
    pose proof (onward_left _ _ (skip_line_onward m (snd (advance l)))) as H1. lia.
  - cbv zeta.
    match goal with |- left ?x < _ =>
      assert (O : onward (snd (advance l)) x) end.
    { eapply onward_trans; [apply onward_advance|].
      eapply onward_trans; [apply skip_block_onward|].
      destruct (negb _); [|apply onward_refl].
      eapply onward_trans; apply onward_advance. }
    apply onward_left in O. pose proof (left_advance l E). lia.
Qed.

Lemma skipWhitespace_enough n l :
  left l <= n -> skipWhitespace n l = skipWhitespace (left l) l.
Proof.
  apply (budget_enough skipWhitespace blank_ahead skip_blank);
    [reflexivity | apply skipWhitespace_S | apply blank_ahead_not_at_end
    | apply skip_blank_left].
Qed.

Lemma skipWhitespace_onward n l : onward l (skipWhitespace n l).
Proof.
  apply (budget_onward skipWhitespace blank_ahead skip_blank);
    [reflexivity | apply skipWhitespace_S | intros; apply skip_blank_onward].
Qed.

Lemma skipWhitespace_stops n l : left l <= n -> blank_ahead (skipWhitespace n l) = false.
Proof.
  apply (budget_stops skipWhitespace blank_ahead skip_blank);
    [reflexivity | apply skipWhitespace_S | apply blank_ahead_not_at_end
    | apply skip_blank_left].
Qed.

Lemma match_onward c l : onward l (snd (match_ c l)).
Proof.
  unfold match_. destruct (_ || _); simpl; [apply onward_refl|].
  split; simpl; [reflexivity | lia].
Qed.

Lemma two_onward c t2 x2 t1 x1 l : onward l (snd (two c t2 x2 t1 x1 l)).
Proof.
  unfold two. pose proof (match_onward c l) as H.
  destruct (match_ c l) as [[] l']; exact H.
Qed.

Lemma scanIdentifier_onward l : onward l (snd (scanIdentifier l)).
Proof. apply advance_while_onward. Qed.

Lemma scanNumber_onward l : onward l (snd (scanNumber l)).
Proof.
  unfold scanNumber. cbv zeta.
  destruct (_ && _); cbn [snd].
  - eapply onward_trans; [apply advance_while_onward|].
    eapply onward_trans; [apply onward_advance | apply advance_while_onward].
  - apply advance_while_onward.
Qed.

Lemma scanString_onward l : onward l (snd (scanString l)).
Proof.
  unfold scanString. cbv zeta. destruct (isAtEnd _); cbn [snd].
  - eapply onward_trans; [apply string_body_onward|]. split; simpl; [reflexivity|lia].
  - eapply onward_trans; [apply string_body_onward | apply onward_advance].
Qed.

Lemma scanToken_onward l : onward l (snd (scanToken l)).
Proof.
  unfold scanToken. cbv zeta.
  eapply onward_trans; [apply (skipWhitespace_onward (S (left l)))|].
  destruct (isAtEnd _); [apply onward_refl|].
  match goal with |- context [advance ?x] =>
    eapply onward_trans; [apply (onward_trans _ x); [split; simpl; [reflexivity|lia]
                                                    | apply (onward_advance x)]|];
    destruct (advance x) as [c l1] end.
  cbn [snd].
  repeat match goal with
         | |- onward _ (snd (if ?b then _ else _)) => destruct b
         end;
    first [ apply onward_refl | apply scanIdentifier_onward | apply scanNumber_onward
          | apply scanString_onward | apply two_onward ].
Qed.

Lemma scanToken_left l : isAtEnd l = false -> left (snd (scanToken l)) < left l.
Proof.
  intros E. pose proof (left_pos l E) as Hp.
  unfold scanToken. cbv zeta.
  pose proof (onward_left _ _ (skipWhitespace_onward (S (left l)) l)) as H1.
  destruct (isAtEnd (skipWhitespace _ l)) eqn:E1.
  - cbn [snd]. unfold isAtEnd, left in *. apply Nat.leb_le in E1. lia.
  - match goal with |- context [advance ?x] =>
      pose proof (left_advance x E1) as H2;
      assert (O : forall r, onward (snd (advance x)) r -> left r < left l)
    end.
    { intros r O. apply onward_left in O. unfold left in *. simpl in *. lia. }
    match goal with |- context [advance ?x] => destruct (advance x) as [c l1] end.
    cbn [snd] in O. apply O.
    repeat match goal with
           | |- onward _ (snd (if ?b then _ else _)) => destruct b
           end;
      first [ apply onward_refl | apply scanIdentifier_onward | apply scanNumber_onward
            | apply scanString_onward | apply two_onward ].
Qed.

Lemma scan_loop_S n l :
  scan_loop (S n) l = if negb (isAtEnd l) then scan_loop n (scan_one l) else l.
Proof.
  cbn [scan_loop]. unfold scan_one. destruct (negb _); [|reflexivity].
  destruct (scanToken _); reflexivity.
Qed.

Lemma scan_one_onward l : onward l (scan_one l).
Proof.
  unfold scan_one. pose proof (scanToken_onward (set_start_ l)) as H.
  destruct (scanToken _) as [tok l']. destruct H as [S C]. split; simpl in *; assumption.
Qed.

Lemma scan_one_left l : negb (isAtEnd l) = true -> left (scan_one l) < left l.
Proof.
  intros H. apply negb_true_iff in H.
  unfold scan_one. pose proof (scanToken_left (set_start_ l) H) as H1.
  destruct (scanToken _) as [tok l']. exact H1.
Qed.

(** X9.  The scanner stops on every text.  Each round of each of its
    loops takes at least one character, so a loop that is given the
    number of characters left as its budget, or any larger number, ends
    because its condition fails and not because the budget is spent; and
    [scanTokens] returns with the whole text consumed. *)
Theorem scanner_budgets_suffice :
  (forall n l, left l <= n -> skip_line n l = skip_line (left l) l) /\
  (forall n l, left l <= n -> skip_block n l = skip_block (left l) l) /\
  (forall n l, left l <= n -> string_body n l = string_body (left l) l) /\
  (forall n l, left l <= n ->
     advance_while isdigit n l = advance_while isdigit (left l) l) /\
  (forall n l, left l <= n ->
     advance_while (fun c => isalnum c || eqc c "_") n l =
     advance_while (fun c => isalnum c || eqc c "_") (left l) l) /\
  (forall n l, left l <= n -> skipWhitespace n l = skipWhitespace (left l) l) /\
  (forall n l, left l <= n -> scan_loop n l = scan_loop (left l) l) /\
  (forall source, isAtEnd (snd (scanTokens (new source))) = true).
Proof.
  split_and!.
  - apply skip_line_enough.
  - apply skip_block_enough.
  - apply string_body_enough.
  - apply advance_while_enough. reflexivity.
  - apply advance_while_enough. reflexivity.
  - apply skipWhitespace_enough.
  - apply (budget_enough scan_loop (fun l => negb (isAtEnd l)) scan_one);
      [reflexivity | apply scan_loop_S | intros l H; apply negb_true_iff, H
      | apply scan_one_left].
  - intros source. unfold scanTokens. cbn [snd].
    pose proof (budget_stops scan_loop (fun l => negb (isAtEnd l)) scan_one
                  (fun _ => eq_refl) scan_loop_S
                  (fun l H => proj1 (negb_true_iff _) H) scan_one_left
                  (left (new source)) (new source) (le_n _)) as H.
    apply negb_false_iff in H. exact H.
Qed.
End LexerFacts.

(** * Properties of the front end *)

Module FrontEndFacts.

(** C2 fails on the code: when the text ends in blanks or a comment,
    [scanToken] finds the end of the text after skipping them and returns
    an end-of-file token, which [scanTokens] keeps like any other before
    it adds its own.  For the text of one blank the result is two
    end-of-file tokens. *)
Theorem scan_trailing_blank_two_EOF :
  Lexer.scan " " =
  [mkToken TokenType.END_OF_FILE "" (mkLoc 1 2);
   mkToken TokenType.END_OF_FILE "" (mkLoc 1 2)].
Proof. vm_compute. reflexivity. Qed.

(** C3 fails on the code: [primary] converts an integer literal with
    [std::stoi], whose [std::out_of_range] is no [ParseError] and passes
    both [catch] clauses.  For [99999999999;] the exception leaves
    [parse]. *)
Theorem parse_integer_out_of_range (stof_out_of_range : string -> bool) :
  exists p, front_end stof_out_of_range "99999999999;" =
            Parser.Throw (Parser.OutOfRange "stoi") p.
Proof. vm_compute. eexists; reflexivity. Qed.

(** C7 fails on the code: in [assignment] the error for a target that is
    no variable is built and dropped.  [1 = 2;] parses to the expression
    statement [1;], nothing is thrown and nothing is written; [a = b = 3;]
    parses to the assignment of an assignment. *)
Theorem parse_invalid_assignment_target_silent (stof_out_of_range : string -> bool) :
  (exists p, front_end stof_out_of_range "1 = 2;" =
             Parser.Ok (mkProgram [Some (ExpressionStatement
                                           (IntegerLiteral 1 (mkLoc 1 1)))]) p /\
             Parser.cerr p = []) /\
  (exists p, front_end stof_out_of_range "a = b = 3;" =
             Parser.Ok
               (mkProgram
                  [Some (ExpressionStatement
                           (BinaryExpression
                              (VariableExpression "a" (mkLoc 1 1)) TokenType.ASSIGN
                              (BinaryExpression
                                 (VariableExpression "b" (mkLoc 1 5)) TokenType.ASSIGN
                                 (IntegerLiteral 3 (mkLoc 1 9)) (mkLoc 1 7))
                              (mkLoc 1 3)))]) p).
Proof. split; vm_compute; eexists; try split; reflexivity. Qed.

(** X1.  The empty text scans to the end-of-file token at line 1,
    column 1, and [int x = 42;] to the keyword, the identifier, the
    assignment sign, the literal, the semicolon and the end of file. *)
Theorem scan_examples :
  Lexer.scan "" = [mkToken TokenType.END_OF_FILE "" (mkLoc 1 1)] /\
  Lexer.scan "int x = 42;" =
    [mkToken TokenType.INT "int" (mkLoc 1 1);
     mkToken TokenType.IDENTIFIER "x" (mkLoc 1 5);
     mkToken TokenType.ASSIGN "=" (mkLoc 1 7);
     mkToken TokenType.INTEGER_LITERAL "42" (mkLoc 1 9);
     mkToken TokenType.SEMICOLON ";" (mkLoc 1 11);
     mkToken TokenType.END_OF_FILE "" (mkLoc 1 12)].
Proof. split; vm_compute; reflexivity. Qed.


(** X3.  [int add(int a, int b) { return a + b; }] parses to one function
    declaration [add] with return type [int], the parameters [int a] and
    [int b], and a body of one statement, the return of [a + b]. *)
Theorem parse_add_function (stof_out_of_range : string -> bool) :
  exists p,
    front_end stof_out_of_range "int add(int a, int b) { return a + b; }" =
    Parser.Ok
      (mkProgram
         [Some (FunctionDeclaration "int" "add"
                  [mkParam "int" "a" (mkLoc 1 13); mkParam "int" "b" (mkLoc 1 20)]
                  [Some (ReturnStatement
                           (Some (BinaryExpression
                                    (VariableExpression "a" (mkLoc 1 32)) TokenType.PLUS
                                    (VariableExpression "b" (mkLoc 1 36)) (mkLoc 1 34)))
                           (mkLoc 1 25))]
                  (mkLoc 1 23) (mkLoc 1 5))]) p.
Proof. vm_compute. eexists; reflexivity. Qed.

Section Caught.
Import Parser.

Lemma caught_bind {A B} (m : M A) (k : A -> M B) p :
  caught (m p) -> (forall a q, caught (k a q)) -> caught (bind m k p).
Proof.
  unfold bind. destruct (m p) as [a q|e q|]; simpl; auto.
Qed.

Lemma caught_token_at i p : caught (token_at i p).
Proof. unfold token_at. destruct (tokens_ p !! i); exact I. Qed.

Lemma caught_peek p : caught (peek p).
Proof. apply caught_token_at. Qed.

Lemma caught_previous p : caught (previous p).
Proof. unfold previous. destruct (current_ p); [exact I | apply caught_token_at]. Qed.

Lemma caught_isAtEnd p : caught (isAtEnd p).
Proof. apply caught_bind; [apply caught_peek | intros; exact I]. Qed.

Lemma caught_advance p : caught (advance p).
Proof.
  apply caught_bind; [apply caught_isAtEnd|]. intros atEnd q.
  apply caught_bind; [destruct atEnd; exact I | intros; apply caught_previous].
Qed.

Lemma caught_synchronize_loop n p : caught (synchronize_loop n p).
Proof.
  revert p; induction n as [|n IH]; intros p; [exact I|]. simpl.
  apply caught_bind; [apply caught_isAtEnd|]. intros [] q; [exact I|].
  apply caught_bind; [apply caught_previous|]. intros prev q1.
  destruct (decide _); [exact I|].
  apply caught_bind; [apply caught_peek|]. intros tok q2.
  destruct (at_statement_start _); [exact I|].
  apply caught_bind; [apply caught_advance | intros; apply IH].
Qed.

Lemma caught_synchronize p : caught (synchronize p).
Proof.
  apply caught_bind; [apply caught_advance | intros; apply caught_synchronize_loop].
Qed.

(** X4.  No [ParseError] leaves [parse]: the one that reaches its
    [catch] clause is printed and the parser synchronizes, which throws
    none.  (Exceptions of other types pass.) *)
Theorem parse_catches_ParseError (stof_out_of_range : string -> bool) (p : t) :
  caught (parse stof_out_of_range p).
Proof.
  unfold parse, parse_with.
  destruct (parse_loop _ _ _ _ _) as [statements [u q|[what loc|w|w|w] q|]]; try exact I.
  apply caught_bind; [exact I|]. intros _ q1.
  apply caught_bind; [apply caught_synchronize | intros; exact I].
Qed.

End Caught.

End FrontEndFacts.

(** * Properties of the IR builder *)

Module IRBuilderFacts.
Import IRBuilder.

(** The handlers written with the list functions. *)
Lemma visit_expr_call c args l b :
  visit_expr (CallExpression c args l) b =
  finish_call (fst (visit_args args [] b)) (snd (visit_args args [] b)).
Proof.
  change (visit_expr (CallExpression c args l) b)
    with (let '(vs, b1) := visit_args args [] b in finish_call vs b1).
  destruct (visit_args args [] b); reflexivity.
Qed.

Lemma visit_stmt_block ss l b :
  visit_stmt (BlockStatement ss l) b = visit_list ss b.
Proof. reflexivity. Qed.

Lemma visit_stmt_function rt n ps body bl l b :
  visit_stmt (FunctionDeclaration rt n ps body bl l) b =
  match visit_list body (snd (function_prologue rt n ps b)) with
  | Some b1 => function_epilogue (fst (function_prologue rt n ps b)) b1
  | None => None
  end.
Proof.
  change (visit_stmt (FunctionDeclaration rt n ps body bl l) b)
    with (let '(retTy, b0) := function_prologue rt n ps b in
          match visit_list body b0 with
          | Some b1 => function_epilogue retTy b1
          | None => None
          end).
  destruct (function_prologue rt n ps b); reflexivity.
Qed.

Lemma expr_visits_call c args l b :
  expr_visits (CallExpression c args l) b =
  mkVisit (ExpressionNode (CallExpression c args l)) b
          (Some (visit_expr (CallExpression c args l) b)) :: args_visits args b.
Proof. reflexivity. Qed.

Lemma stmt_visits_block ss l b :
  stmt_visits (BlockStatement ss l) b =
  mkVisit (StatementNode (BlockStatement ss l)) b (visit_list ss b) ::
  list_visits ss b.
Proof. reflexivity. Qed.

Lemma stmt_visits_function rt n ps body bl l b :
  stmt_visits (FunctionDeclaration rt n ps body bl l) b =
  mkVisit (StatementNode (FunctionDeclaration rt n ps body bl l)) b
          (visit_stmt (FunctionDeclaration rt n ps body bl l) b) ::
  stmt_visits (BlockStatement body bl) (snd (function_prologue rt n ps b)).
Proof. reflexivity. Qed.

(** *** The operand stack *)

Ltac prims :=
  unfold finish_binary, finish_unary, finish_call, if_labels, if_then_start,
    if_else_start, if_end, while_cond_start, while_body_start, while_end,
    var_declare, var_init, return_value, expression_statement_end,
    function_epilogue, popValue, createTemp, createLabel, addInstruction,
    createBlock, setCurrentBlock, typeFromString, push, print,
    set_module_, set_store, set_currentFunction_, set_currentBlock_,
    set_symbolTable_, set_valueStack_, set_labelCounter_, set_tempCounter_ in *.

Ltac crush := prims; intros; simpl in *; repeat (case_match; simpl in *; simplify_eq); simplify_eq; simpl in *; eauto.

Ltac some_inv :=
  let H := fresh in intros H; apply (inj Some) in H; subst.

Lemma createBlock_spec name b :
  store (snd (createBlock name b)) = store b ++ [mkBlock name []] /\
  fst (createBlock name b) = length (store b) /\
  labelCounter_ (snd (createBlock name b)) = labelCounter_ b /\
  currentBlock_ (snd (createBlock name b)) = currentBlock_ b /\
  currentFunction_ (snd (createBlock name b)) = currentFunction_ b /\
  valueStack_ (snd (createBlock name b)) = valueStack_ b.
Proof.
  unfold createBlock. destruct b as [? ? [f|] ? ? ? ? ? ?]; simpl; split_and!; reflexivity.
Qed.

Lemma let_createBlock name b :
  (let '(k, b1) := createBlock name b in setCurrentBlock k b1) =
  setCurrentBlock (fst (createBlock name b)) (snd (createBlock name b)).
Proof. destruct (createBlock name b); reflexivity. Qed.

Lemma if_else_start_open tl el endl b :
  if_else_start (tl, el, endl) b = jump_and_open endl el b.
Proof. reflexivity. Qed.

Lemma if_end_open tl el endl b :
  if_end (tl, el, endl) b = jump_and_open endl endl b.
Proof. reflexivity. Qed.

Lemma if_then_start_open tl el endl b :
  if_then_start (tl, el, endl) b =
  jump_and_open el tl (addInstruction (jmp_if (fst (popValue b)) tl) (snd (popValue b))).
Proof. unfold if_then_start. destruct (popValue b); reflexivity. Qed.

Lemma while_end_open cl bl el b :
  while_end (cl, bl, el) b = jump_and_open cl el b.
Proof. reflexivity. Qed.

Lemma while_body_start_open cl bl el b :
  while_body_start (cl, bl, el) b =
  jump_and_open el bl (addInstruction (jmp_if (fst (popValue b)) bl) (snd (popValue b))).
Proof. unfold while_body_start. destruct (popValue b); reflexivity. Qed.

Lemma while_cond_start_open b :
  while_cond_start b =
  (("while.cond" +:+ "." +:+ to_string (labelCounter_ b),
    "while.body" +:+ "." +:+ to_string (labelCounter_ b + 1),
    "while.end" +:+ "." +:+ to_string (labelCounter_ b + 1 + 1)),
   jump_and_open ("while.cond" +:+ "." +:+ to_string (labelCounter_ b))
     ("while.cond" +:+ "." +:+ to_string (labelCounter_ b))
     (set_labelCounter_ (labelCounter_ b + 1 + 1 + 1) b)).
Proof.
  destruct b as [? ? [f|] [k|] ? ? ? ? ?]; reflexivity.
Qed.

Lemma if_labels_spec b :
  if_labels b =
  (("then" +:+ "." +:+ to_string (labelCounter_ b),
    "else" +:+ "." +:+ to_string (labelCounter_ b + 1),
    "endif" +:+ "." +:+ to_string (labelCounter_ b + 1 + 1)),
   set_labelCounter_ (labelCounter_ b + 1 + 1 + 1) b).
Proof. destruct b; reflexivity. Qed.

(** *** The operand stack, continued *)

Lemma finish_binary_stack lhs op b :
  exists v, valueStack_ (finish_binary lhs op b) = v :: tail (tail (valueStack_ b)).
Proof. destruct b as [? ? ? ? ? [|? [|? ?]] ? ? ?]; crush. Qed.

Lemma finish_unary_stack op b :
  exists v, valueStack_ (finish_unary op b) = v :: tail (valueStack_ b).
Proof. destruct b as [? ? ? ? ? [|? ?] ? ? ?]; crush. Qed.

Lemma finish_call_stack args b :
  exists v, valueStack_ (finish_call args b) = v :: valueStack_ b.
Proof. crush. Qed.

Lemma popValue_stack b : valueStack_ (snd (popValue b)) = tail (valueStack_ b).
Proof. crush. Qed.

Lemma convert_params_stack ps b :
  valueStack_ (snd (convert_params ps b)) = valueStack_ b.
Proof.
  revert b; induction ps as [|p ps IH]; intros b; simpl; [reflexivity|].
  destruct (typeFromString (param_type p) b) as [ty b1] eqn:E1.
  specialize (IH b1). destruct (convert_params ps b1) as [rest b2]. simpl in *.
  rewrite IH. revert E1. clear. crush.
Qed.

Lemma alloc_params_stack params b :
  valueStack_ (alloc_params params b) = valueStack_ b.
Proof.
  revert b; induction params as [|p ps IH]; intros b; simpl; [reflexivity|].
  rewrite IH. crush.
Qed.

Lemma function_prologue_stack rt n ps b :
  valueStack_ (snd (function_prologue rt n ps b)) = valueStack_ b.
Proof.
  unfold function_prologue.
  destruct (typeFromString rt b) as [retTy b1] eqn:E1.
  pose proof (convert_params_stack ps b1) as E2.
  destruct (convert_params ps b1) as [params b2]. simpl in E2.
  assert (valueStack_ b1 = valueStack_ b) as <- by (revert E1; clear; crush).
  rewrite <- E2. clear.
  match goal with |- context [createBlock ?n ?x] =>
    destruct (createBlock n x) as [k b3] eqn:E3 end.
  simpl. rewrite alloc_params_stack. revert E3. clear. crush.
Qed.

Lemma function_epilogue_stack rt b b' :
  function_epilogue rt b = Some b' -> valueStack_ b' = valueStack_ b.
Proof. crush. Qed.

Lemma discipline_expr e b :
  (exists v, valueStack_ (visit_expr e b) = v :: valueStack_ b) ->
  stack_discipline (mkVisit (ExpressionNode e) b (Some (visit_expr e b))).
Proof. intros H; exact H. Qed.

Lemma args_ok args :
  Forall expr_ok args ->
  forall acc b, valueStack_ b = [] ->
    valueStack_ (snd (visit_args args acc b)) = [] /\
    Forall stack_discipline (args_visits args b).
Proof.
  induction 1 as [|a args Ha _ IH]; intros acc b Hb; simpl.
  - split; [assumption | constructor].
  - destruct (Ha b Hb) as [[v Hv] Hvis].
    pose proof (popValue_stack (visit_expr a b)) as Hpop.
    destruct (popValue (visit_expr a b)) as [w b1]. simpl in *.
    rewrite Hv in Hpop. simpl in Hpop.
    destruct (IH (acc ++ [w]) b1 Hpop) as [Hs Hvs].
    split; [assumption | apply Forall_app; split; assumption].
Qed.

Lemma expr_stack e : expr_ok e.
Proof.
  induction e as [v l|v l|v l|n l|lhs op rhs l IHl _|op e l IH|c args l IH]
    using Expression_ind; intros b Hb.
  - split; [|constructor; [apply discipline_expr|constructor]]; prims; simpl; rewrite ?Hb; eauto.
  - split; [|constructor; [apply discipline_expr|constructor]]; prims; simpl; rewrite ?Hb; eauto.
  - split; [|constructor; [apply discipline_expr|constructor]]; prims; simpl; rewrite ?Hb; eauto.
  - assert (exists v, valueStack_ (visit_expr (VariableExpression n l) b) = [v]) as H.
    { simpl. destruct (symbolTable_ b !! n); crush; rewrite Hb; eauto. }
    split; [exact H | constructor; [apply discipline_expr; rewrite Hb; exact H | constructor]].
  - destruct (IHl b Hb) as [[v Hv] Hvis].
    assert (exists w, valueStack_ (visit_expr (BinaryExpression lhs op rhs l) b) = [w]) as H.
    { simpl. destruct (finish_binary_stack lhs op (visit_expr lhs b)) as [w Hw].
      rewrite Hv in Hw. eauto. }
    split; [exact H|]. simpl. constructor; [|exact Hvis].
    apply discipline_expr. rewrite Hb. exact H.
  - destruct (IH b Hb) as [[v Hv] Hvis].
    assert (exists w, valueStack_ (visit_expr (UnaryExpression op e l) b) = [w]) as H.
    { simpl. destruct (finish_unary_stack op (visit_expr e b)) as [w Hw].
      rewrite Hv in Hw. eauto. }
    split; [exact H|]. simpl. constructor; [|exact Hvis].
    apply discipline_expr. rewrite Hb. exact H.
  - destruct (args_ok args IH [] b Hb) as [Hs Hvis].
    assert (exists w, valueStack_ (visit_expr (CallExpression c args l) b) = [w]) as H.
    { rewrite visit_expr_call.
      destruct (finish_call_stack (fst (visit_args args [] b))
                  (snd (visit_args args [] b))) as [w Hw].
      rewrite Hs in Hw. eauto. }
    split; [exact H|]. rewrite expr_visits_call. constructor; [|exact Hvis].
    apply discipline_expr. rewrite Hb. exact H.
Qed.

Lemma addInstruction_stack i b : valueStack_ (addInstruction i b) = valueStack_ b.
Proof. unfold addInstruction. destruct (currentBlock_ b); reflexivity. Qed.

Lemma jump_and_open_stack target name b :
  valueStack_ (jump_and_open target name b) = valueStack_ b.
Proof.
  unfold jump_and_open. cbv zeta. rewrite let_createBlock.
  destruct (createBlock_spec name (addInstruction (jmp target) b))
    as (_ & _ & _ & _ & _ & H).
  cbn [valueStack_ setCurrentBlock set_currentBlock_]. rewrite H.
  apply addInstruction_stack.
Qed.

Lemma if_labels_stack b : valueStack_ (snd (if_labels b)) = valueStack_ b.
Proof. rewrite if_labels_spec. reflexivity. Qed.
Lemma if_then_start_stack ls b :
  valueStack_ (if_then_start ls b) = tail (valueStack_ b).
Proof.
  destruct ls as [[? ?] ?].
  rewrite if_then_start_open, jump_and_open_stack, addInstruction_stack.
  apply popValue_stack.
Qed.
Lemma if_else_start_stack ls b : valueStack_ (if_else_start ls b) = valueStack_ b.
Proof. destruct ls as [[? ?] ?]. rewrite if_else_start_open. apply jump_and_open_stack. Qed.
Lemma if_end_stack ls b : valueStack_ (if_end ls b) = valueStack_ b.
Proof. destruct ls as [[? ?] ?]. rewrite if_end_open. apply jump_and_open_stack. Qed.
Lemma while_cond_start_stack b :
  valueStack_ (snd (while_cond_start b)) = valueStack_ b.
Proof. rewrite while_cond_start_open. cbn [snd]. rewrite jump_and_open_stack. reflexivity. Qed.
Lemma while_body_start_stack ls b :
  valueStack_ (while_body_start ls b) = tail (valueStack_ b).
Proof.
  destruct ls as [[? ?] ?].
  rewrite while_body_start_open, jump_and_open_stack, addInstruction_stack.
  apply popValue_stack.
Qed.
Lemma while_end_stack ls b : valueStack_ (while_end ls b) = valueStack_ b.
Proof. destruct ls as [[? ?] ?]. rewrite while_end_open. apply jump_and_open_stack. Qed.
Lemma typeFromString_stack ty b :
  valueStack_ (snd (typeFromString ty b)) = valueStack_ b.
Proof. unfold typeFromString. repeat case_decide; reflexivity. Qed.
Lemma var_declare_stack ty n b :
  valueStack_ (snd (var_declare ty n b)) = valueStack_ b.
Proof.
  unfold var_declare. pose proof (typeFromString_stack ty b) as H.
  destruct (typeFromString ty b) as [ty' b1]. cbn [snd] in *.
  rewrite addInstruction_stack. exact H.
Qed.
Lemma var_init_stack var b : valueStack_ (var_init var b) = tail (valueStack_ b).
Proof.
  unfold var_init. pose proof (popValue_stack b) as H.
  destruct (popValue b) as [v b1]. cbn [snd] in *.
  rewrite addInstruction_stack. exact H.
Qed.
Lemma return_value_stack b : valueStack_ (return_value b) = tail (valueStack_ b).
Proof.
  unfold return_value. pose proof (popValue_stack b) as H.
  destruct (popValue b) as [v b1]. cbn [snd] in *.
  rewrite addInstruction_stack. exact H.
Qed.
Lemma expression_statement_end_stack b :
  valueStack_ (expression_statement_end b) = tail (valueStack_ b).
Proof.
  unfold expression_statement_end.
  destruct (valueStack_ b) eqn:E; simpl; [rewrite E|]; reflexivity.
Qed.

Lemma discipline_stmt s b :
  (forall b', visit_stmt s b = Some b' -> valueStack_ b' = valueStack_ b) ->
  stack_discipline (mkVisit (StatementNode s) b (visit_stmt s b)).
Proof.
  intros H. unfold stack_discipline. simpl.
  destruct (visit_stmt s b); [apply H; reflexivity | exact I].
Qed.

Lemma list_ok ss :
  Forall (on_some stmt_ok) ss ->
  forall b, valueStack_ b = [] ->
    (forall b', visit_list ss b = Some b' -> valueStack_ b' = []) /\
    Forall stack_discipline (list_visits ss b).
Proof.
  induction 1 as [|[s|] ss Hs _ IH]; intros b Hb; simpl.
  - split; [intros b' [= <-]; exact Hb | constructor].
  - destruct (Hs b Hb) as [Hexit Hvis].
    destruct (visit_stmt s b) as [b1|]; simpl.
    + destruct (IH b1 (Hexit b1 eq_refl)) as [Hexit' Hvis'].
      split; [exact Hexit' | apply Forall_app; split; assumption].
    + split; [discriminate | rewrite app_nil_r; exact Hvis].
  - split; [discriminate | constructor].
Qed.

(** The head of [stmt_visits] from what the handler does to an empty
    stack. *)
Lemma stmt_ok_intro s b (rest : list Visit) :
  valueStack_ b = [] ->
  (forall b', visit_stmt s b = Some b' -> valueStack_ b' = []) ->
  stmt_visits s b = mkVisit (StatementNode s) b (visit_stmt s b) :: rest ->
  Forall stack_discipline rest ->
  (forall b', visit_stmt s b = Some b' -> valueStack_ b' = []) /\
  Forall stack_discipline (stmt_visits s b).
Proof.
  intros Hb Hexit -> Hrest. split; [exact Hexit|].
  constructor; [|exact Hrest].
  apply discipline_stmt. intros b' Hb'. rewrite Hb. eauto.
Qed.

Lemma visit_stmt_if c th el l b :
  visit_stmt (IfStatement c th el l) b =
  let ls := fst (if_labels b) in
  match visit_stmt th (if_then_start ls (visit_expr c (snd (if_labels b)))) with
  | Some b2 =>
      match visit_else el (if_else_start ls b2) with
      | Some b3 => Some (if_end ls b3)
      | None => None
      end
  | None => None
  end.
Proof.
  cbn [visit_stmt]. destruct (if_labels b) as [ls b0]. cbn [fst snd].
  destruct el; reflexivity.
Qed.

Lemma stmt_visits_if c th el l b :
  stmt_visits (IfStatement c th el l) b =
  mkVisit (StatementNode (IfStatement c th el l)) b
          (visit_stmt (IfStatement c th el l) b) ::
  let ls := fst (if_labels b) in
  let b0 := snd (if_labels b) in
  let b1 := if_then_start ls (visit_expr c b0) in
  expr_visits c b0 ++ stmt_visits th b1 ++
  after (visit_stmt th b1) (fun b2 => else_visits el (if_else_start ls b2)).
Proof.
  cbn [stmt_visits]. destruct (if_labels b) as [ls b0]. cbn [fst snd].
  destruct el; reflexivity.
Qed.

Lemma visit_stmt_while c body l b :
  visit_stmt (WhileStatement c body l) b =
  let ls := fst (while_cond_start b) in
  match visit_stmt body
          (while_body_start ls (visit_expr c (snd (while_cond_start b)))) with
  | Some b2 => Some (while_end ls b2)
  | None => None
  end.
Proof.
  cbn [visit_stmt]. destruct (while_cond_start b) as [ls b0]. reflexivity.
Qed.

Lemma stmt_visits_while c body l b :
  stmt_visits (WhileStatement c body l) b =
  mkVisit (StatementNode (WhileStatement c body l)) b
          (visit_stmt (WhileStatement c body l) b) ::
  let ls := fst (while_cond_start b) in
  let b0 := snd (while_cond_start b) in
  expr_visits c b0 ++ stmt_visits body (while_body_start ls (visit_expr c b0)).
Proof.
  cbn [stmt_visits]. destruct (while_cond_start b) as [ls b0]. reflexivity.
Qed.

Lemma visit_stmt_var ty n i l b :
  visit_stmt (VarDeclaration ty n i l) b =
  match i with
  | Some e => Some (var_init (fst (var_declare ty n b))
                      (visit_expr e (snd (var_declare ty n b))))
  | None => Some (snd (var_declare ty n b))
  end.
Proof. cbn [visit_stmt]. destruct (var_declare ty n b); reflexivity. Qed.

Lemma stmt_stack s : stmt_ok s.
Proof.
  induction s as [e|ty n i l|ss l IH|c th el l IHth IHel|c body l IH|v l
                 |rt n ps body bl l IH] using Statement_ind; intros b Hb.
  - destruct (expr_stack e b Hb) as [[v Hv] Hvis].
    eapply stmt_ok_intro; [exact Hb| |reflexivity|exact Hvis].
    cbn [visit_stmt]. intros b'; some_inv.
    rewrite expression_statement_end_stack, Hv. reflexivity.
  - pose proof (var_declare_stack ty n b) as Hd. rewrite Hb in Hd.
    destruct i as [e|].
    + destruct (expr_stack e _ Hd) as [[v Hv] Hvis].
      eapply stmt_ok_intro; [exact Hb| |reflexivity|exact Hvis].
      rewrite visit_stmt_var. intros b'; some_inv.
      rewrite var_init_stack, Hv. reflexivity.
    + eapply stmt_ok_intro; [exact Hb| |reflexivity|constructor].
      rewrite visit_stmt_var. intros b'; some_inv. exact Hd.
  - destruct (list_ok ss IH b Hb) as [Hexit Hvis].
    eapply stmt_ok_intro; [exact Hb|exact Hexit|apply stmt_visits_block|exact Hvis].
  - pose proof (if_labels_stack b) as Hl. rewrite Hb in Hl.
    destruct (expr_stack c _ Hl) as [[v Hv] Hvc].
    pose proof (if_then_start_stack (fst (if_labels b))
                  (visit_expr c (snd (if_labels b)))) as H1.
    rewrite Hv in H1. cbn [tail] in H1.
    destruct (IHth _ H1) as [Hth Hvth].
    eapply stmt_ok_intro; [exact Hb| |apply stmt_visits_if|].
    + rewrite visit_stmt_if. cbv zeta. intros b'.
      destruct (visit_stmt th _) as [b2|]; [|discriminate].
      pose proof (if_else_start_stack (fst (if_labels b)) b2) as H2.
      rewrite (Hth b2 eq_refl) in H2.
      destruct el as [stmt|]; cbn [visit_else].
      * destruct (IHel _ H2) as [Hel _].
        destruct (visit_stmt stmt _) as [b3|]; [|discriminate].
        some_inv. rewrite if_end_stack. eauto.
      * some_inv. rewrite if_end_stack. exact H2.
    + cbv zeta. apply Forall_app; split; [exact Hvc|].
      apply Forall_app; split; [exact Hvth|].
      destruct (visit_stmt th _) as [b2|]; [|constructor]. cbn [after].
      pose proof (if_else_start_stack (fst (if_labels b)) b2) as H2.
      rewrite (Hth b2 eq_refl) in H2.
      destruct el as [stmt|]; cbn [else_visits]; [|constructor].
      apply (IHel _ H2).
  - pose proof (while_cond_start_stack b) as Hl. rewrite Hb in Hl.
    destruct (expr_stack c _ Hl) as [[v Hv] Hvc].
    pose proof (while_body_start_stack (fst (while_cond_start b))
                  (visit_expr c (snd (while_cond_start b)))) as H1.
    rewrite Hv in H1. cbn [tail] in H1.
    destruct (IH _ H1) as [Hbody Hvbody].
    eapply stmt_ok_intro; [exact Hb| |apply stmt_visits_while|].
    + rewrite visit_stmt_while. cbv zeta. intros b'.
      destruct (visit_stmt body _) as [b2|]; [|discriminate].
      some_inv. rewrite while_end_stack. eauto.
    + cbv zeta. apply Forall_app; split; assumption.
  - destruct v as [e|].
    + destruct (expr_stack e b Hb) as [[v Hv] Hvis].
      eapply stmt_ok_intro; [exact Hb| |reflexivity|exact Hvis].
      cbn [visit_stmt]. intros b'; some_inv.
      rewrite return_value_stack, Hv. reflexivity.
    + eapply stmt_ok_intro; [exact Hb| |reflexivity|constructor].
      cbn [visit_stmt]. intros b'; some_inv. rewrite addInstruction_stack. exact Hb.
  - pose proof (function_prologue_stack rt n ps b) as Hp. rewrite Hb in Hp.
    destruct (list_ok body IH _ Hp) as [Hexit Hvis].
    eapply stmt_ok_intro; [exact Hb| |apply stmt_visits_function|].
    2: { eapply stmt_ok_intro; [exact Hp|exact Hexit|apply stmt_visits_block|exact Hvis]. }
    rewrite visit_stmt_function. intros b'.
    destruct (visit_list body _) as [b1|]; [|discriminate].
    intros Hep. rewrite (function_epilogue_stack _ _ _ Hep). eauto.
Qed.

(** C1.  In the traversal of one [build] call, every visit of an
    expression node (integer, float and string literal, variable
    reference, binary, unary, call) leaves the operand stack as it was on
    entry with exactly one value, the one the handler produced, pushed on
    top, and every visit of a statement node leaves the stack as it
    found it. *)
Theorem build_stack_discipline (p : Program) (b : t) :
  Forall stack_discipline (build_visits p b).
Proof.
  unfold build_visits.
  assert (Hall : Forall (on_some stmt_ok) (prog_statements p)).
  { apply Forall_forall. intros [s|] _; [apply stmt_stack | exact I]. }
  apply (list_ok _ Hall (reset b)). reflexivity.
Qed.

(** *** What a visit does to the blocks *)

Lemma block_eta blk : mkBlock (block_name blk) (instructions_ blk ++ []) = blk.
Proof. destruct blk; simpl; rewrite app_nil_r; reflexivity. Qed.

Lemma frame_refl b : frame b b.
Proof.
  split; auto; try lia.
  intros k blk _ H. exists []. rewrite block_eta. exact H.
Qed.

Lemma frame_trans b1 b2 b3 : frame b1 b2 -> frame b2 b3 -> frame b1 b3.
Proof.
  intros [L1 C1 O1 U1 N1 W1] [L2 C2 O2 U2 N2 W2].
  split; [lia | lia | | | | auto].
  - intros k Hk Hc. rewrite <- (O1 k Hk Hc). apply O2; [lia|].
    destruct N1 as [->| [->|(j & -> & Hj)]]; [assumption|discriminate|].
    intros [= ->]. lia.
  - intros k blk Hc Hb. destruct (U1 k blk Hc Hb) as [e1 He1].
    destruct (decide (currentBlock_ b2 = Some k)) as [Hc2|Hc2].
    + destruct (U2 k _ Hc2 He1) as [e2 He2]. simpl in He2.
      exists (e1 ++ e2). rewrite He2, app_assoc. reflexivity.
    + exists e1. rewrite <- He1. apply O2; [|assumption].
      apply lookup_lt_Some in He1. exact He1.
  - destruct N2 as [->| [->|(j & -> & Hj)]]; [|auto|right; right; exists j; split; [auto|lia]].
    destruct N1 as [->| [->|(j & -> & Hj)]]; auto.
    right; right; exists j; auto.
Qed.

Lemma frame_addInstruction i b : frame b (addInstruction i b).
Proof.
  unfold addInstruction. destruct (currentBlock_ b) as [c|] eqn:Hc; [|apply frame_refl].
  split; simpl; rewrite ?length_alter; auto; try lia.
  - intros k _ Hk. apply list_lookup_alter_ne. congruence.
  - intros k blk Hk Hb. assert (c = k) as -> by congruence.
    exists [i]. rewrite list_lookup_alter_eq, Hb. reflexivity.
  - unfold wf; simpl. rewrite length_alter. auto.
Qed.

(** Steps that leave the store and the current block alone. *)
Lemma frame_same b b' :
  store b' = store b -> currentBlock_ b' = currentBlock_ b ->
  (labelCounter_ b <= labelCounter_ b')%Z -> frame b b'.
Proof.
  intros Hs Hc Hl. split; rewrite ?Hs, ?Hc; auto.
  - intros k blk _ H. exists []. rewrite block_eta; exact H.
  - unfold wf. rewrite Hs, Hc. auto.
Qed.

Lemma frame_new_block name b :
  frame b (setCurrentBlock (fst (createBlock name b)) (snd (createBlock name b))).
Proof.
  destruct (createBlock_spec name b) as (Es & Ek & El & _).
  destruct (createBlock name b) as [k b1]. simpl in *. subst k.
  split; simpl; rewrite ?Es, ?El, ?length_app; simpl; try lia.
  - intros k Hk _. apply lookup_app_l; exact Hk.
  - intros k blk _ Hb. exists []. rewrite block_eta.
    rewrite lookup_app_l; [exact Hb | eapply lookup_lt_Some; exact Hb].
  - right; right. eexists; split; [reflexivity | lia].
  - intros _ k. simpl. rewrite Es, length_app. intros [= <-]. simpl; lia.
Qed.

Lemma frame_popValue b : frame b (snd (popValue b)).
Proof. apply frame_same; crush; lia. Qed.
Lemma frame_typeFromString ty b : frame b (snd (typeFromString ty b)).
Proof. apply frame_same; crush; lia. Qed.

Ltac frame_step :=
  first [ apply frame_refl | apply frame_addInstruction | apply frame_new_block
        | apply frame_popValue | apply frame_typeFromString
        | apply frame_same; [reflexivity | reflexivity | simpl; lia] ].

Lemma steady_refl b : steady b b.
Proof. split; auto using frame_refl. Qed.

Lemma steady_trans b1 b2 b3 : steady b1 b2 -> steady b2 b3 -> steady b1 b3.
Proof.
  intros [] []; split; eauto using frame_trans; congruence.
Qed.

Lemma steady_addInstruction i b : steady b (addInstruction i b).
Proof.
  split; [apply frame_addInstruction|..]; unfold addInstruction;
    destruct (currentBlock_ b) eqn:E; simpl; auto using length_alter.
Qed.

Lemma steady_same b b' :
  store b' = store b -> currentBlock_ b' = currentBlock_ b ->
  currentFunction_ b' = currentFunction_ b -> module_ b' = module_ b ->
  labelCounter_ b' = labelCounter_ b -> steady b b'.
Proof.
  intros Hs Hc Hf Hm Hl. split; auto; [apply frame_same; auto; lia | congruence].
Qed.

Lemma steady_popValue b : steady b (snd (popValue b)).
Proof. apply steady_same; crush. Qed.

Lemma steady_push v b : steady b (push v b).
Proof. apply steady_same; reflexivity. Qed.
Lemma steady_print m b : steady b (print m b).
Proof. apply steady_same; reflexivity. Qed.
Lemma steady_set_tempCounter_ n b : steady b (set_tempCounter_ n b).
Proof. apply steady_same; reflexivity. Qed.

Ltac steady_steps :=
  unfold createTemp; cbv beta iota zeta;
  repeat first
    [ apply steady_refl
    | eapply steady_trans; [|apply steady_push]
    | eapply steady_trans; [|apply steady_print]
    | eapply steady_trans; [|apply steady_set_tempCounter_]
    | eapply steady_trans; [|apply steady_addInstruction] ].

Lemma steady_finish_binary lhs op b : steady b (finish_binary lhs op b).
Proof.
  unfold finish_binary.
  pose proof (steady_popValue b) as H1. destruct (popValue b) as [rv b1].
  pose proof (steady_popValue b1) as H2. destruct (popValue b1) as [lv b2].
  simpl in *. eapply steady_trans; [exact H1|]. eapply steady_trans; [exact H2|].
  clear. destruct (binary_opcode op); [steady_steps|].
  destruct op; try steady_steps.
  destruct lhs; try steady_steps.
  destruct (symbolTable_ b2 !! name); steady_steps.
Qed.

Lemma steady_finish_unary op b : steady b (finish_unary op b).
Proof.
  unfold finish_unary.
  pose proof (steady_popValue b) as H1. destruct (popValue b) as [v b1].
  simpl in *. eapply steady_trans; [exact H1|]. clear.
  destruct (unary_opcode op); steady_steps.
Qed.

Lemma steady_finish_call args b : steady b (finish_call args b).
Proof. unfold finish_call. steady_steps. Qed.

Lemma steady_args args :
  Forall (fun e => forall b, steady b (visit_expr e b)) args ->
  forall acc b, steady b (snd (visit_args args acc b)).
Proof.
  induction 1 as [|a args Ha _ IH]; intros acc b; simpl; [apply steady_refl|].
  pose proof (steady_popValue (visit_expr a b)) as Hp.
  destruct (popValue (visit_expr a b)) as [v b1]. simpl in Hp.
  eapply steady_trans; [apply Ha|]. eapply steady_trans; [exact Hp|]. apply IH.
Qed.

Lemma steady_expr e b : steady b (visit_expr e b).
Proof.
  revert b.
  induction e as [v l|v l|v l|n l|lhs op rhs l IHl _|op e l IH|c args l IH]
    using Expression_ind; intros b.
  - cbn [visit_expr]. steady_steps.
  - cbn [visit_expr]. steady_steps.
  - cbn [visit_expr]. steady_steps.
  - cbn [visit_expr]. destruct (symbolTable_ b !! n); steady_steps.
  - cbn [visit_expr]. eapply steady_trans; [apply IHl | apply steady_finish_binary].
  - cbn [visit_expr]. eapply steady_trans; [apply IH | apply steady_finish_unary].
  - rewrite visit_expr_call.
    eapply steady_trans; [apply (steady_args args IH) | apply steady_finish_call].
Qed.

Lemma frame_set_labelCounter_ n b :
  (labelCounter_ b <= n)%Z -> frame b (set_labelCounter_ n b).
Proof. intros H. apply frame_same; auto. Qed.
Lemma frame_set_symbolTable_ m b : frame b (set_symbolTable_ m b).
Proof. apply frame_same; simpl; auto; lia. Qed.
Lemma frame_set_valueStack_ m b : frame b (set_valueStack_ m b).
Proof. apply frame_same; simpl; auto; lia. Qed.

Ltac frame_steps :=
  cbv beta iota zeta; rewrite ?let_createBlock;
  repeat first
    [ apply frame_refl
    | eapply frame_trans; [|apply frame_new_block]
    | eapply frame_trans; [|apply frame_addInstruction]
    | eapply frame_trans; [|apply frame_set_symbolTable_]
    | eapply frame_trans; [|apply frame_set_valueStack_]
    | eapply frame_trans; [|apply frame_set_labelCounter_; simpl; lia] ].

Lemma frame_if_labels b : frame b (snd (if_labels b)).
Proof. unfold if_labels, createLabel. simpl. frame_steps. Qed.

Lemma frame_if_then_start ls b : frame b (if_then_start ls b).
Proof.
  destruct ls as [[tl el] endl]. unfold if_then_start.
  pose proof (frame_popValue b) as H. destruct (popValue b) as [cond b1].
  simpl in H. eapply frame_trans; [exact H|]. frame_steps.
Qed.

Lemma frame_if_else_start ls b : frame b (if_else_start ls b).
Proof. destruct ls as [[tl el] endl]. unfold if_else_start. frame_steps. Qed.

Lemma frame_if_end ls b : frame b (if_end ls b).
Proof. destruct ls as [[tl el] endl]. unfold if_end. frame_steps. Qed.

Lemma frame_while_cond_start b : frame b (snd (while_cond_start b)).
Proof.
  unfold while_cond_start, createLabel. cbv beta iota zeta.
  match goal with |- context [createBlock ?n ?x] =>
    pose proof (frame_new_block n x) as H; destruct (createBlock n x) end.
  simpl in *. eapply frame_trans; [|exact H]. frame_steps.
Qed.

Lemma frame_while_body_start ls b : frame b (while_body_start ls b).
Proof.
  destruct ls as [[tl el] endl]. unfold while_body_start.
  pose proof (frame_popValue b) as H. destruct (popValue b) as [cond b1].
  simpl in H. eapply frame_trans; [exact H|]. frame_steps.
Qed.

Lemma frame_while_end ls b : frame b (while_end ls b).
Proof. destruct ls as [[tl el] endl]. unfold while_end. frame_steps. Qed.

Lemma frame_var_declare ty n b : frame b (snd (var_declare ty n b)).
Proof.
  unfold var_declare.
  pose proof (frame_typeFromString ty b) as H. destruct (typeFromString ty b).
  simpl in *. eapply frame_trans; [exact H|]. frame_steps.
Qed.

Lemma frame_var_init var b : frame b (var_init var b).
Proof.
  unfold var_init.
  pose proof (frame_popValue b) as H. destruct (popValue b).
  simpl in *. eapply frame_trans; [exact H|]. frame_steps.
Qed.

Lemma frame_return_value b : frame b (return_value b).
Proof.
  unfold return_value.
  pose proof (frame_popValue b) as H. destruct (popValue b).
  simpl in *. eapply frame_trans; [exact H|]. frame_steps.
Qed.

Lemma frame_expression_statement_end b : frame b (expression_statement_end b).
Proof. unfold expression_statement_end. destruct (valueStack_ b); frame_steps. Qed.

Lemma frame_convert_params ps b : frame b (snd (convert_params ps b)).
Proof.
  revert b; induction ps as [|p ps IH]; intros b; simpl; [apply frame_refl|].
  pose proof (frame_typeFromString (param_type p) b) as H.
  destruct (typeFromString (param_type p) b) as [ty b1].
  specialize (IH b1). destruct (convert_params ps b1) as [rest b2].
  simpl in *. eapply frame_trans; eassumption.
Qed.

Lemma frame_alloc_params params b : frame b (alloc_params params b).
Proof.
  revert b; induction params as [|p ps IH]; intros b; simpl; [apply frame_refl|].
  eapply frame_trans; [|apply IH]. frame_steps.
Qed.

Lemma frame_set_function m f b :
  frame b (set_module_ m (set_currentFunction_ f b)).
Proof. apply frame_same; simpl; auto; lia. Qed.

Lemma frame_function_prologue rt n ps b :
  frame b (snd (function_prologue rt n ps b)).
Proof.
  unfold function_prologue.
  pose proof (frame_typeFromString rt b) as H1. destruct (typeFromString rt b) as [retTy b1].
  pose proof (frame_convert_params ps b1) as H2.
  destruct (convert_params ps b1) as [params b2]. simpl in H1, H2.
  eapply frame_trans; [exact H1|]. eapply frame_trans; [exact H2|].
  match goal with |- context [createBlock ?n ?x] =>
    pose proof (frame_new_block n x) as H3; destruct (createBlock n x) as [k b3] end.
  simpl in *. eapply frame_trans; [apply frame_set_function|].
  eapply frame_trans; [exact H3|].
  eapply frame_trans; [apply frame_set_symbolTable_|].
  apply frame_alloc_params.
Qed.

Lemma frame_function_epilogue rt b b' :
  function_epilogue rt b = Some b' -> frame b b'.
Proof.
  unfold function_epilogue. destruct (currentBlock_ b) as [k|] eqn:Hc; [|discriminate].
  destruct (store b !! k) as [blk|] eqn:Hb; [|discriminate].
  some_inv.
  eapply frame_trans with (b2 := if lacks_ret (instructions_ blk)
                                 then addInstruction (default_ret rt) b else b).
  - destruct (lacks_ret (instructions_ blk)); [apply frame_addInstruction|apply frame_refl].
  - generalize (if lacks_ret (instructions_ blk)
                then addInstruction (default_ret rt) b else b).
    intros b1. split; simpl; auto; try lia.
    + intros j blk' _ H. exists []. rewrite block_eta. exact H.
    + intros _ j; simpl; discriminate.
Qed.

Lemma frame_list ss :
  Forall (on_some stmt_frame) ss ->
  forall b b', visit_list ss b = Some b' -> frame b b'.
Proof.
  induction 1 as [|[s|] ss Hs _ IH]; intros b b'; simpl.
  - some_inv. apply frame_refl.
  - destruct (visit_stmt s b) as [b1|] eqn:E; [|discriminate].
    intros H. eapply frame_trans; [apply Hs; exact E | apply IH; exact H].
  - discriminate.
Qed.

Lemma frame_expr e b : frame b (visit_expr e b).
Proof. apply steady_expr. Qed.

Lemma frame_stmt s : stmt_frame s.
Proof.
  induction s as [e|ty n i l|ss l IH|c th el l IHth IHel|c body l IH|v l
                 |rt n ps body bl l IH] using Statement_ind; intros b b'.
  - cbn [visit_stmt]. some_inv.
    eapply frame_trans; [apply frame_expr | apply frame_expression_statement_end].
  - rewrite visit_stmt_var. destruct i as [e|]; some_inv.
    + eapply frame_trans; [apply frame_var_declare|].
      eapply frame_trans; [apply frame_expr | apply frame_var_init].
    + apply frame_var_declare.
  - rewrite visit_stmt_block. apply frame_list, IH.
  - rewrite visit_stmt_if. cbv zeta.
    destruct (visit_stmt th _) as [b2|] eqn:E2; [|discriminate].
    destruct (visit_else el _) as [b3|] eqn:E3; [|discriminate].
    some_inv.
    eapply frame_trans; [apply frame_if_labels|].
    eapply frame_trans; [apply frame_expr|].
    eapply frame_trans; [apply frame_if_then_start|].
    eapply frame_trans; [apply IHth, E2|].
    eapply frame_trans; [apply frame_if_else_start|].
    eapply frame_trans; [|apply frame_if_end].
    destruct el as [stmt|]; cbn [visit_else] in E3.
    + apply IHel, E3.
    + apply (inj Some) in E3. subst. apply frame_refl.
  - rewrite visit_stmt_while. cbv zeta.
    destruct (visit_stmt body _) as [b2|] eqn:E2; [|discriminate].
    some_inv.
    eapply frame_trans; [apply frame_while_cond_start|].
    eapply frame_trans; [apply frame_expr|].
    eapply frame_trans; [apply frame_while_body_start|].
    eapply frame_trans; [apply IH, E2 | apply frame_while_end].
  - cbn [visit_stmt]. destruct v as [e|]; some_inv.
    + eapply frame_trans; [apply frame_expr | apply frame_return_value].
    + apply frame_addInstruction.
  - rewrite visit_stmt_function.
    destruct (visit_list body _) as [b1|] eqn:E1; [|discriminate].
    intros E2.
    eapply frame_trans; [apply frame_function_prologue|].
    eapply frame_trans; [apply (frame_list body IH _ _ E1)|].
    apply (frame_function_epilogue _ _ _ E2).
Qed.

(** *** Lowering of [if] *)

Lemma addInstruction_current i b k blk :
  currentBlock_ b = Some k -> store b !! k = Some blk ->
  store (addInstruction i b) !! k = Some (block_addInstruction i blk).
Proof.
  intros Hc Hb. unfold addInstruction. rewrite Hc. simpl.
  rewrite list_lookup_alter_eq, Hb. reflexivity.
Qed.

Lemma addInstruction_length i b : length (store (addInstruction i b)) = length (store b).
Proof. apply steady_addInstruction. Qed.

Lemma addInstruction_block i b : currentBlock_ (addInstruction i b) = currentBlock_ b.
Proof. apply steady_addInstruction. Qed.

Lemma jump_and_open_spec target name b :
  let b' := jump_and_open target name b in
  length (store b') = S (length (store b)) /\
  currentBlock_ b' = Some (length (store b)) /\
  store b' !! length (store b) = Some (mkBlock name []) /\
  (forall j blk, currentBlock_ b = Some j -> store b !! j = Some blk ->
     store b' !! j = Some (block_addInstruction (jmp target) blk)).
Proof.
  unfold jump_and_open. cbv zeta. rewrite let_createBlock.
  destruct (createBlock_spec name (addInstruction (jmp target) b))
    as (Es & Ek & _ & _).
  simpl. rewrite Es, Ek, length_app, addInstruction_length. simpl.
  split_and!; [lia | reflexivity | |].
  - rewrite lookup_app_r; rewrite addInstruction_length; [|lia].
    rewrite Nat.sub_diag. reflexivity.
  - intros j blk Hc Hb. rewrite lookup_app_l.
    + apply addInstruction_current; assumption.
    + rewrite addInstruction_length. eapply lookup_lt_Some; exact Hb.
Qed.

Lemma popValue_store b : store (snd (popValue b)) = store b.
Proof. crush. Qed.
Lemma popValue_block b : currentBlock_ (snd (popValue b)) = currentBlock_ b.
Proof. crush. Qed.

Lemma if_then_start_spec tl el endl b k blk :
  currentBlock_ b = Some k -> store b !! k = Some blk ->
  let b' := if_then_start (tl, el, endl) b in
  length (store b') = S (length (store b)) /\
  currentBlock_ b' = Some (length (store b)) /\
  store b' !! length (store b) = Some (mkBlock tl []) /\
  store b' !! k = Some (mkBlock (block_name blk)
                          (instructions_ blk ++
                           [jmp_if (fst (popValue b)) tl; jmp el])).
Proof.
  intros Hc Hb. cbv zeta. rewrite if_then_start_open.
  set (cond := fst (popValue b)).
  set (b1 := addInstruction (jmp_if cond tl) (snd (popValue b))).
  assert (Hlen : length (store b1) = length (store b)).
  { unfold b1. rewrite addInstruction_length, popValue_store. reflexivity. }
  assert (Hc1 : currentBlock_ b1 = Some k).
  { unfold b1. rewrite addInstruction_block, popValue_block. exact Hc. }
  assert (Hb1 : store b1 !! k = Some (block_addInstruction (jmp_if cond tl) blk)).
  { unfold b1. apply addInstruction_current.
    - rewrite popValue_block; exact Hc.
    - rewrite popValue_store; exact Hb. }
  destruct (jump_and_open_spec el tl b1) as (H1 & H2 & H3 & H4).
  rewrite Hlen in *. split_and!; try assumption.
  rewrite (H4 k _ Hc1 Hb1). unfold block_addInstruction. simpl.
  rewrite <- app_assoc. reflexivity.
Qed.

Lemma wf_lookup b k : wf b -> currentBlock_ b = Some k -> is_Some (store b !! k).
Proof. intros Hwf Hc. apply lookup_lt_is_Some, Hwf, Hc. Qed.

Lemma ends_with_frame b b' k tail :
  frame b b' -> currentBlock_ b <> Some k -> ends_with k tail b -> ends_with k tail b'.
Proof.
  intros Hf Hc (blk & pre & Hb & Hi). exists blk, pre. split; [|exact Hi].
  rewrite (frame_old _ _ Hf k); [exact Hb| |exact Hc].
  eapply lookup_lt_Some; exact Hb.
Qed.

Lemma jump_and_open_ends target name b j :
  wf b -> currentBlock_ b = Some j ->
  ends_with j [jmp target] (jump_and_open target name b).
Proof.
  intros Hwf Hc. destruct (wf_lookup _ _ Hwf Hc) as [blk Hb].
  destruct (jump_and_open_spec target name b) as (_ & _ & _ & H).
  exists (block_addInstruction (jmp target) blk), (instructions_ blk).
  split; [apply H; assumption | reflexivity].
Qed.

Lemma frame_jump_and_open target name b : frame b (jump_and_open target name b).
Proof. unfold jump_and_open. frame_steps. Qed.

Lemma frame_visit_else el b b' : visit_else el b = Some b' -> frame b b'.
Proof.
  destruct el as [s|]; cbn [visit_else]; [apply frame_stmt|].
  some_inv. apply frame_refl.
Qed.

(** ** The names of the blocks

    Labels carry the value of the label counter, which only grows: the
    blocks that one traversal adds have different labels. *)

Lemma after_dot_uint d : after_dot (NilEmpty.string_of_uint d) = None.
Proof. induction d; simpl; rewrite ?IHd; reflexivity. Qed.

Lemma after_dot_to_string n : after_dot (to_string n) = None.
Proof.
  unfold to_string. destruct (Z.to_int n) as [d|d]; simpl.
  - destruct d; try apply (after_dot_uint (_ _)); reflexivity.
  - unfold NilZero.string_of_uint.
    destruct d; simpl; rewrite ?after_dot_uint; reflexivity.
Qed.

Lemma after_dot_label prefix d :
  after_dot d = None -> after_dot (prefix +:+ "." +:+ d) = Some d.
Proof.
  intros H. induction prefix as [|c p IH].
  - change (after_dot (String "." d) = Some d). simpl. rewrite H. reflexivity.
  - change (after_dot (String c (p +:+ "." +:+ d)) = Some d). simpl.
    rewrite IH. reflexivity.
Qed.

Lemma to_string_inj m n : to_string m = to_string n -> m = n.
Proof.
  unfold to_string. intros H.
  rewrite <- (DecimalZ.of_to m), <- (DecimalZ.of_to n).
  assert (N : forall z, NilZero.int_of_string (NilZero.string_of_int (Z.to_int z))
                        = Some (Z.to_int z)).
  { intros z. destruct (Z.to_int z) as [d|d] eqn:E.
    - destruct d; try (apply NilZero.isi; discriminate).
      destruct z; try discriminate; simpl in E.
      + injection E as E. apply DecimalPos.Unsigned.to_uint_nonnil in E as [].
    - destruct d; try (apply NilZero.isi; discriminate).
      destruct z; try discriminate; simpl in E.
      injection E as E. apply DecimalPos.Unsigned.to_uint_nonnil in E as []. }
  pose proof (N m) as Hm. rewrite H, N in Hm. congruence.
Qed.

Lemma label_number p1 m1 p2 m2 :
  p1 +:+ "." +:+ to_string m1 = p2 +:+ "." +:+ to_string m2 -> m1 = m2.
Proof.
  intros H. apply (f_equal after_dot) in H.
  rewrite !after_dot_label in H by apply after_dot_to_string.
  apply to_string_inj. congruence.
Qed.

Lemma label_not_entry p m : p +:+ "." +:+ to_string m <> "entry".
Proof.
  intros H. apply (f_equal after_dot) in H.
  rewrite after_dot_label in H by apply after_dot_to_string. discriminate.
Qed.

(** *** Spread lists of names *)

Lemma numbered_weaken lo hi lo' hi' name :
  (lo' <= lo)%Z -> (hi <= hi')%Z -> numbered lo hi name -> numbered lo' hi' name.
Proof.
  intros H1 H2 [E|(p & n & E & H)]; [left; exact E|].
  right. exists p, n. split; [exact E | lia].
Qed.

Lemma numbered_apart lo mid hi name :
  numbered lo mid name -> numbered mid hi name -> name = "entry".
Proof.
  intros [E|(p & n & E & H)]; [intros _; exact E|].
  intros [E'|(p' & n' & E' & H')]; [exact E'|].
  subst. apply label_number in E'. lia.
Qed.

Lemma spread_nil lo hi : spread lo hi [].
Proof. split; [constructor | apply NoDup_nil_2]. Qed.

Lemma spread_entry lo hi : spread lo hi ["entry"].
Proof. split; [repeat constructor | apply NoDup_nil_2]. Qed.

Lemma spread_label prefix n : spread n (n + 1) [prefix +:+ "." +:+ to_string n].
Proof.
  split.
  - constructor; [|constructor]. right. exists prefix, n. split; [reflexivity | lia].
  - unfold labels. rewrite filter_cons_True by apply label_not_entry.
    apply NoDup_singleton.
Qed.

Lemma spread_weaken lo hi lo' hi' l :
  (lo' <= lo)%Z -> (hi <= hi')%Z -> spread lo hi l -> spread lo' hi' l.
Proof.
  intros H1 H2 [F N]. split; [|exact N].
  eapply Forall_impl; [exact F|]. intros x. apply numbered_weaken; assumption.
Qed.

Lemma elem_of_labels x l : x ∈ labels l <-> x <> "entry" /\ x ∈ l.
Proof. unfold labels. rewrite list_elem_of_filter. reflexivity. Qed.

Lemma spread_app lo mid hi l1 l2 :
  (lo <= mid <= hi)%Z -> spread lo mid l1 -> spread mid hi l2 -> spread lo hi (l1 ++ l2).
Proof.
  intros H [F1 N1] [F2 N2]. split.
  - apply Forall_app. split.
    + eapply Forall_impl; [exact F1|]. intros x. apply numbered_weaken; lia.
    + eapply Forall_impl; [exact F2|]. intros x. apply numbered_weaken; lia.
  - unfold labels. rewrite filter_app. apply NoDup_app. split_and!; try assumption.
    intros x H1 H2. apply elem_of_labels in H1 as [Hx H1], H2 as [_ H2].
    apply Hx. apply (numbered_apart lo mid hi).
    + rewrite Forall_forall in F1. apply F1, H1.
    + rewrite Forall_forall in F2. apply F2, H2.
Qed.

Lemma spread_perm lo hi l l' : l ≡ₚ l' -> spread lo hi l -> spread lo hi l'.
Proof.
  intros P [F N]. split.
  - rewrite <- P. exact F.
  - unfold labels in *. rewrite <- P. exact N.
Qed.

(** *** The names added by the pieces of the handlers *)

Lemma frame_names b b' : frame b b' -> names b' = names b ++ new_names b b'.
Proof.
  intros F. unfold new_names.
  rewrite <- (take_drop (length (store b)) (names b')) at 1. f_equal.
  apply list_eq. intros k. unfold names.
  destruct (decide (k < length (store b))) as [Hk|Hk].
  - rewrite lookup_take_lt by exact Hk. rewrite !list_lookup_fmap.
    destruct (lookup_lt_is_Some_2 _ _ Hk) as [blk Hb].
    destruct (decide (currentBlock_ b = Some k)) as [Hc|Hc].
    + destruct (frame_current _ _ F k blk Hc Hb) as [extra ->]. rewrite Hb. reflexivity.
    + rewrite (frame_old _ _ F k Hk Hc). reflexivity.
  - rewrite lookup_take_ge by lia. symmetry. apply lookup_ge_None.
    rewrite length_fmap. lia.
Qed.

Lemma new_names_trans b1 b2 b3 :
  frame b1 b2 -> frame b2 b3 ->
  new_names b1 b3 = new_names b1 b2 ++ new_names b2 b3.
Proof.
  intros F12 F23. unfold new_names at 1.
  rewrite (frame_names _ _ F23).
  rewrite drop_app_le by (unfold names; rewrite length_fmap; apply (frame_length _ _ F12)).
  reflexivity.
Qed.

Lemma still_refl b : still b b.
Proof. split; reflexivity. Qed.

Lemma still_trans b1 b2 b3 : still b1 b2 -> still b2 b3 -> still b1 b3.
Proof. intros [? ?] [? ?]. split; congruence. Qed.

Lemma still_steady b b' : steady b b' -> still b b'.
Proof. intros S. split; [apply (steady_length _ _ S) | apply (steady_label _ _ S)]. Qed.

Lemma still_names b b' : still b b' -> new_names b b' = [].
Proof.
  intros [H _]. unfold new_names, names. apply drop_ge. rewrite length_fmap. lia.
Qed.

Lemma still_same b b' :
  store b' = store b -> labelCounter_ b' = labelCounter_ b -> still b b'.
Proof. intros H1 H2. split; congruence. Qed.

Lemma still_addInstruction i b : still b (addInstruction i b).
Proof. apply still_steady, steady_addInstruction. Qed.

Lemma still_popValue b : still b (snd (popValue b)).
Proof. apply still_steady, steady_popValue. Qed.

Lemma still_typeFromString ty b : still b (snd (typeFromString ty b)).
Proof. unfold typeFromString. repeat case_match; apply still_same; reflexivity. Qed.

Lemma still_expr e b : still b (visit_expr e b).
Proof. apply still_steady, steady_expr. Qed.

Lemma still_set_symbolTable_ m b : still b (set_symbolTable_ m b).
Proof. apply still_same; reflexivity. Qed.

Lemma still_set_valueStack_ m b : still b (set_valueStack_ m b).
Proof. apply still_same; reflexivity. Qed.

Ltac still_steps :=
  cbv beta iota zeta;
  repeat first
    [ apply still_refl
    | eapply still_trans; [|apply still_addInstruction]
    | eapply still_trans; [|apply still_set_symbolTable_]
    | eapply still_trans; [|apply still_set_valueStack_] ].

Lemma still_var_declare ty n b : still b (snd (var_declare ty n b)).
Proof.
  unfold var_declare.
  pose proof (still_typeFromString ty b) as H. destruct (typeFromString ty b).
  simpl in *. eapply still_trans; [exact H|]. still_steps.
Qed.

Lemma still_var_init var b : still b (var_init var b).
Proof.
  unfold var_init.
  pose proof (still_popValue b) as H. destruct (popValue b).
  simpl in *. eapply still_trans; [exact H|]. still_steps.
Qed.

Lemma still_return_value b : still b (return_value b).
Proof.
  unfold return_value.
  pose proof (still_popValue b) as H. destruct (popValue b).
  simpl in *. eapply still_trans; [exact H|]. still_steps.
Qed.

Lemma still_expression_statement_end b : still b (expression_statement_end b).
Proof. unfold expression_statement_end. destruct (valueStack_ b); still_steps. Qed.

Lemma still_convert_params ps b : still b (snd (convert_params ps b)).
Proof.
  revert b; induction ps as [|p ps IH]; intros b; simpl; [apply still_refl|].
  pose proof (still_typeFromString (param_type p) b) as H.
  destruct (typeFromString (param_type p) b) as [ty b1].
  specialize (IH b1). destruct (convert_params ps b1) as [rest b2].
  simpl in *. eapply still_trans; eassumption.
Qed.

Lemma still_alloc_params params b : still b (alloc_params params b).
Proof.
  revert b; induction params as [|p ps IH]; intros b; simpl; [apply still_refl|].
  eapply still_trans; [|apply IH]. still_steps.
Qed.

Lemma still_function_epilogue rt b b' : function_epilogue rt b = Some b' -> still b b'.
Proof.
  unfold function_epilogue. destruct (currentBlock_ b) as [k|]; [|discriminate].
  destruct (store b !! k) as [blk|]; [|discriminate].
  some_inv.
  eapply still_trans with (b2 := if lacks_ret (instructions_ blk)
                                 then addInstruction (default_ret rt) b else b).
  - destruct (lacks_ret (instructions_ blk)); [apply still_addInstruction|apply still_refl].
  - apply still_same; reflexivity.
Qed.

Lemma step_trans b1 b2 b3 l1 l2 :
  step b1 b2 l1 -> step b2 b3 l2 -> step b1 b3 (l1 ++ l2).
Proof.
  intros [F1 N1] [F2 N2]. split; [eapply frame_trans; eassumption|].
  rewrite (new_names_trans b1 b2 b3 F1 F2), N1, N2. reflexivity.
Qed.

Lemma step_still b b' : frame b b' -> still b b' -> step b b' [].
Proof. intros F S. split; [exact F | apply still_names, S]. Qed.

Lemma step_same_store b b' : frame b b' -> store b' = store b -> step b b' [].
Proof.
  intros F S. split; [exact F|].
  unfold new_names, names. rewrite S, <- (length_fmap block_name). apply drop_all.
Qed.

Lemma step_expr e b : step b (visit_expr e b) [].
Proof. apply step_still; [apply frame_expr | apply still_expr]. Qed.

Lemma step_jump_and_open target name b : step b (jump_and_open target name b) [name].
Proof.
  split; [apply frame_jump_and_open|].
  unfold jump_and_open. cbv zeta. rewrite let_createBlock.
  destruct (createBlock_spec name (addInstruction (jmp target) b)) as (S & _).
  unfold new_names, names, setCurrentBlock. cbn [store set_currentBlock_].
  rewrite S, fmap_app, <- (addInstruction_length (jmp target) b),
    <- (length_fmap block_name).
  apply drop_app_length.
Qed.

Lemma jump_and_open_label target name b :
  labelCounter_ (jump_and_open target name b) = labelCounter_ b.
Proof.
  unfold jump_and_open. cbv zeta. rewrite let_createBlock.
  destruct (createBlock_spec name (addInstruction (jmp target) b)) as (_ & _ & L & _).
  unfold setCurrentBlock. cbn [labelCounter_ set_currentBlock_]. rewrite L.
  apply (still_addInstruction (jmp target) b).
Qed.

Lemma step_pop_jump_and_open i target name b :
  let b1 := jump_and_open target name (addInstruction (i (fst (popValue b))) (snd (popValue b))) in
  step b b1 [name] /\ labelCounter_ b1 = labelCounter_ b.
Proof.
  intros b1. split.
  - change [name] with ([] ++ [] ++ [name]).
    eapply step_trans; [apply step_still; [apply frame_popValue | apply still_popValue]|].
    eapply step_trans; [apply step_still;
                        [apply frame_addInstruction | apply still_addInstruction]|].
    apply step_jump_and_open.
  - unfold b1. rewrite jump_and_open_label.
    rewrite (proj2 (still_addInstruction _ _)). apply (still_popValue b).
Qed.

Lemma step_function_prologue rt n ps b :
  let b1 := snd (function_prologue rt n ps b) in
  step b b1 ["entry"] /\ labelCounter_ b1 = labelCounter_ b.
Proof.
  cbv zeta. unfold function_prologue.
  pose proof (frame_typeFromString rt b) as F1.
  pose proof (still_typeFromString rt b) as S1.
  destruct (typeFromString rt b) as [retTy b1].
  pose proof (frame_convert_params ps b1) as F2.
  pose proof (still_convert_params ps b1) as S2.
  destruct (convert_params ps b1) as [params b2]. simpl in F1, S1, F2, S2.
  match goal with |- context [createBlock ?n ?x] =>
    pose proof (frame_new_block n x) as F3;
    pose proof (createBlock_spec n x) as (E3 & _ & L3 & _);
    destruct (createBlock n x) as [k b3] end.
  simpl in F3, E3, L3. cbv beta iota zeta. cbn [snd].
  match goal with |- context [alloc_params params ?x] =>
    pose proof (frame_alloc_params params x) as F4;
    pose proof (still_alloc_params params x) as S4;
    set (b4 := x) in * end.
  assert (S5 : step b2 b4 ["entry"]).
  { split.
    - eapply frame_trans; [apply frame_set_function|].
      eapply frame_trans; [exact F3|]. apply frame_set_symbolTable_.
    - unfold new_names, names, b4, setCurrentBlock.
      cbn [store set_symbolTable_ set_currentBlock_]. rewrite E3. cbn [store set_module_ set_currentFunction_].
      rewrite fmap_app, <- (length_fmap block_name). apply drop_app_length. }
  split.
  - change ["entry"] with ([] ++ [] ++ ["entry"] ++ []).
    eapply step_trans; [apply step_still; eassumption|].
    eapply step_trans; [apply step_still; eassumption|].
    eapply step_trans; [exact S5|]. apply step_still; assumption.
  - rewrite (proj2 S4). unfold b4, setCurrentBlock.
    cbn [labelCounter_ set_symbolTable_ set_currentBlock_]. rewrite L3.
    cbn [labelCounter_ set_module_ set_currentFunction_].
    rewrite (proj2 S2). apply S1.
Qed.

Lemma spread_list ss :
  Forall (on_some stmt_spread) ss ->
  forall b b', visit_list ss b = Some b' ->
    spread (labelCounter_ b) (labelCounter_ b') (new_names b b').
Proof.
  intros H. pose proof H as HF.
  induction H as [|[s|] ss Hs Hss IH]; intros b b'; simpl.
  - some_inv. rewrite (still_names _ _ (still_refl _)). apply spread_nil.
  - destruct (visit_stmt s b) as [b1|] eqn:E; [|discriminate].
    intros E1.
    pose proof (frame_stmt s _ _ E) as F1.
    assert (F2 : frame b1 b').
    { apply (frame_list ss); [|exact E1].
      clear -Hss. induction Hss as [|[x|] l _ _ IH']; constructor; try exact IH';
        simpl; [apply frame_stmt | exact I]. }
    rewrite (new_names_trans _ _ _ F1 F2).
    apply (spread_app _ (labelCounter_ b1)).
    + split; [apply (frame_label _ _ F1) | apply (frame_label _ _ F2)].
    + apply Hs, E.
    + apply IH; [|exact E1]. inversion HF; assumption.
  - discriminate.
Qed.

Lemma frame_all (ss : list (option Statement)) : Forall (on_some stmt_frame) ss.
Proof.
  induction ss as [|[s|] ss IH]; constructor; try exact IH;
    simpl; [apply frame_stmt | exact I].
Qed.

Lemma spread_flat b b' :
  frame b b' -> still b b' ->
  spread (labelCounter_ b) (labelCounter_ b') (new_names b b').
Proof. intros _ S. rewrite (still_names _ _ S). apply spread_nil. Qed.

Lemma spread_else el :
  on_some stmt_spread el ->
  forall b b', visit_else el b = Some b' ->
    frame b b' /\ spread (labelCounter_ b) (labelCounter_ b') (new_names b b').
Proof.
  intros H b b' E. split; [exact (frame_visit_else el b b' E)|].
  destruct el as [s|]; cbn [visit_else] in E.
  - apply H, E.
  - apply (inj Some) in E. subst. apply spread_flat; [apply frame_refl | apply still_refl].
Qed.

(** The blocks that the lowering of an [if] adds, in their order: the
    then block, those of THEN, the else block, those of ELSE, the end
    block. *)
Lemma if_step c th el b b2 b4 :
  let ls := fst (if_labels b) in
  let b1 := if_then_start ls (visit_expr c (snd (if_labels b))) in
  let b3 := if_else_start ls b2 in
  visit_stmt th b1 = Some b2 -> visit_else el b3 = Some b4 ->
  step b (if_end ls b4)
    (ls.1.1 :: new_names b1 b2 ++ ls.1.2 :: new_names b3 b4 ++ [ls.2]) /\
  labelCounter_ b1 = (labelCounter_ b + 1 + 1 + 1)%Z /\
  labelCounter_ b3 = labelCounter_ b2 /\
  labelCounter_ (if_end ls b4) = labelCounter_ b4.
Proof.
  cbv zeta. rewrite if_labels_spec. cbn [fst snd].
  set (n := labelCounter_ b).
  set (tl := "then" +:+ "." +:+ to_string n).
  set (el' := "else" +:+ "." +:+ to_string (n + 1)).
  set (endl := "endif" +:+ "." +:+ to_string (n + 1 + 1)).
  set (a1 := set_labelCounter_ (n + 1 + 1 + 1) b).
  rewrite if_then_start_open, if_else_start_open, if_end_open.
  destruct (step_pop_jump_and_open (fun v => jmp_if v tl) el' tl (visit_expr c a1))
    as [S3 C3]. cbv beta in S3, C3.
  set (a3 := jump_and_open el' tl _) in *.
  intros E2 E4.
  pose proof (frame_stmt th _ _ E2) as F2.
  pose proof (frame_visit_else el _ _ E4) as F4.
  split_and!.
  - change (tl :: new_names a3 b2 ++ el' :: new_names (jump_and_open endl el' b2) b4 ++ [endl])
      with ([] ++ [] ++ [tl] ++ new_names a3 b2 ++ [el'] ++
            new_names (jump_and_open endl el' b2) b4 ++ [endl]).
    eapply step_trans; [apply (step_same_store b a1);
      [apply frame_set_labelCounter_; simpl; lia | reflexivity]|].
    eapply step_trans; [apply step_expr|].
    eapply step_trans; [exact S3|].
    eapply step_trans; [split; [exact F2 | reflexivity]|].
    eapply step_trans; [apply step_jump_and_open|].
    eapply step_trans; [split; [exact F4 | reflexivity]|].
    apply step_jump_and_open.
  - rewrite C3, (proj2 (still_expr c a1)). reflexivity.
  - apply jump_and_open_label.
  - apply jump_and_open_label.
Qed.

Lemma spread_stmt s : stmt_spread s.
Proof.
  induction s as [e|ty n i l|ss l IH|c th el l IHth IHel|c body l IH|v l
                 |rt n ps body bl l IH] using Statement_ind; intros b b'.
  - cbn [visit_stmt]. some_inv. apply spread_flat.
    + eapply frame_trans; [apply frame_expr | apply frame_expression_statement_end].
    + eapply still_trans; [apply still_expr | apply still_expression_statement_end].
  - rewrite visit_stmt_var. destruct i as [e|]; some_inv; apply spread_flat.
    + eapply frame_trans; [apply frame_var_declare|].
      eapply frame_trans; [apply frame_expr | apply frame_var_init].
    + eapply still_trans; [apply still_var_declare|].
      eapply still_trans; [apply still_expr | apply still_var_init].
    + apply frame_var_declare.
    + apply still_var_declare.
  - rewrite visit_stmt_block. apply spread_list, IH.
  - rewrite visit_stmt_if. cbv zeta.
    destruct (visit_stmt th _) as [b2|] eqn:E2; [|discriminate].
    destruct (visit_else el _) as [b4|] eqn:E4; [|discriminate].
    some_inv.
    destruct (if_step c th el b b2 b4 E2 E4) as (S & C1 & C3 & C').
    pose proof (frame_stmt th _ _ E2) as F2.
    pose proof (IHth _ _ E2) as P2.
    destruct (spread_else el IHel _ _ E4) as [F4 P4].
    pose proof (frame_label _ _ F2) as L2. pose proof (frame_label _ _ F4) as L4.
    rewrite C1 in P2, L2. rewrite C3 in P4, L4. rewrite C', (step_names _ _ _ S).
    rewrite if_labels_spec. cbn [fst snd].
    set (n := labelCounter_ b) in *.
    match goal with |- spread _ _ (?tl :: ?T ++ ?el :: ?E ++ [?endl]) =>
      apply spread_perm with (l := [tl] ++ [el] ++ [endl] ++ T ++ E) end.
    { cbn [app]. solve_Permutation. }
    apply (spread_app _ (n + 1)); [lia | apply spread_label|].
    apply (spread_app _ (n + 1 + 1)); [lia | apply spread_label|].
    apply (spread_app _ (n + 1 + 1 + 1)); [lia | apply spread_label|].
    apply (spread_app _ (labelCounter_ b2)); [lia | exact P2 | exact P4].
  - rewrite visit_stmt_while. cbv zeta. rewrite while_cond_start_open. cbn [fst snd].
    set (n := labelCounter_ b).
    set (cl := "while.cond" +:+ "." +:+ to_string n).
    set (bl := "while.body" +:+ "." +:+ to_string (n + 1)).
    set (endl := "while.end" +:+ "." +:+ to_string (n + 1 + 1)).
    set (a0 := set_labelCounter_ (n + 1 + 1 + 1) b).
    set (a1 := jump_and_open cl cl a0).
    rewrite while_body_start_open.
    destruct (step_pop_jump_and_open (fun v => jmp_if v bl) endl bl (visit_expr c a1))
      as [S3 C3]. cbv beta in S3, C3.
    set (a3 := jump_and_open endl bl _) in *.
    destruct (visit_stmt body a3) as [b2|] eqn:E2; [|discriminate].
    some_inv. rewrite while_end_open.
    pose proof (frame_stmt body _ _ E2) as F2.
    pose proof (IH _ _ E2) as P2.
    assert (C : labelCounter_ a3 = (n + 1 + 1 + 1)%Z).
    { rewrite C3, (proj2 (still_expr c a1)). unfold a1. rewrite jump_and_open_label.
      reflexivity. }
    rewrite C in P2. pose proof (frame_label _ _ F2) as L2. rewrite C in L2.
    rewrite jump_and_open_label.
    assert (S : step b (jump_and_open cl endl b2)
                  ([] ++ [cl] ++ [] ++ [bl] ++ new_names a3 b2 ++ [endl])).
    { eapply step_trans; [apply (step_same_store b a0);
        [apply frame_set_labelCounter_; simpl; lia | reflexivity]|].
      eapply step_trans; [apply step_jump_and_open|].
      eapply step_trans; [apply step_expr|].
      eapply step_trans; [exact S3|].
      eapply step_trans; [split; [exact F2 | reflexivity]|].
      apply step_jump_and_open. }
    rewrite (step_names _ _ _ S). cbn [app].
    eapply spread_perm with (l := [cl] ++ [bl] ++ [endl] ++ new_names a3 b2).
    { cbn [app]. solve_Permutation. }
    apply (spread_app _ (n + 1)); [lia | apply spread_label|].
    apply (spread_app _ (n + 1 + 1)); [lia | apply spread_label|].
    apply (spread_app _ (n + 1 + 1 + 1)); [lia | apply spread_label | exact P2].
  - cbn [visit_stmt]. destruct v as [e|]; some_inv; apply spread_flat.
    + eapply frame_trans; [apply frame_expr | apply frame_return_value].
    + eapply still_trans; [apply still_expr | apply still_return_value].
    + apply frame_addInstruction.
    + apply still_addInstruction.
  - rewrite visit_stmt_function.
    destruct (step_function_prologue rt n ps b) as [S1 C1]. cbv zeta in S1, C1.
    destruct (visit_list body _) as [b1|] eqn:E1; [|discriminate].
    intros E2.
    pose proof (frame_list body (frame_all body) _ _ E1) as F1.
    pose proof (spread_list body IH _ _ E1) as P1. rewrite C1 in P1.
    pose proof (frame_function_epilogue _ _ _ E2) as F2.
    pose proof (still_function_epilogue _ _ _ E2) as [N2 C2].
    assert (S : step b b' (["entry"] ++ new_names (snd (function_prologue rt n ps b)) b1 ++ [])).
    { eapply step_trans; [exact S1|].
      eapply step_trans; [split; [exact F1 | reflexivity]|].
      apply step_still; [exact F2 | split; assumption]. }
    rewrite (step_names _ _ _ S), app_nil_r, C2.
    apply (spread_app _ (labelCounter_ b)); [|apply spread_entry | exact P1].
    pose proof (frame_label _ _ F1) as L1. rewrite C1 in L1. lia.
Qed.

Lemma spread_all (ss : list (option Statement)) : Forall (on_some stmt_spread) ss.
Proof.
  induction ss as [|[s|] ss IH]; constructor; try exact IH;
    simpl; [apply spread_stmt | exact I].
Qed.

(** Within one [build], the blocks that are added carry different
    labels (the entry blocks of the functions apart). *)
Lemma build_spread p b b' :
  build p b = Some b' -> NoDup (labels (new_names b b')).
Proof.
  unfold build, visit_program. intros E.
  apply (spread_list _ (spread_all _)) in E as [_ N]. exact N.
Qed.

(** C4, as the code has it.  Lowering [if (C) THEN else ELSE] with a
    current block takes the three labels [then.n], [else.n+1],
    [endif.n+2] from the label counter [n], which ends at [n+3] or
    above; makes three new blocks with these names; leaves the block
    that was current ending with the conditional jump to [then.n]
    followed by the jump to [else.n+1]; lowers THEN starting in the then
    block and ELSE (when present) starting in the else block, and ends
    the block that is current when each of them is done (the then or
    else block itself unless the branch opened blocks of its own) with a
    jump to [endif.n+2]; and makes the end block, empty, the current
    one.  The blocks added are, in this order, the then block, those
    of THEN, the else block, those of ELSE and the end block; their
    labels differ from one another and carry counter values from [n]
    on; and all the labelled blocks that one [build] adds have different
    names. *)
Theorem if_statement_lowering c th el l b b' k blk :
  currentBlock_ b = Some k -> store b !! k = Some blk ->
  visit_stmt (IfStatement c th el l) b = Some b' ->
  let n := labelCounter_ b in
  let thenLabel := "then" +:+ "." +:+ to_string n in
  let elseLabel := "else" +:+ "." +:+ to_string (n + 1) in
  let endLabel := "endif" +:+ "." +:+ to_string (n + 1 + 1) in
  let ls := (thenLabel, elseLabel, endLabel) in
  let b0 := visit_expr c (snd (if_labels b)) in
  let condition := fst (popValue b0) in
  let b1 := if_then_start ls b0 in
  exists b2 b4 : t,
    let b3 := if_else_start ls b2 in
    let kthen := length (store b) in
    let kelse := length (store b2) in
    let kend := length (store b4) in
    fst (if_labels b) = ls /\
    visit_stmt th b1 = Some b2 /\
    visit_else el b3 = Some b4 /\
    b' = if_end ls b4 /\
    kthen < kelse < kend /\
    block_named kthen thenLabel b' /\
    block_named kelse elseLabel b' /\
    store b' !! kend = Some (mkBlock endLabel []) /\
    (n + 3 <= labelCounter_ b')%Z /\
    block_named k (block_name blk) b' /\
    ends_with k [jmp_if condition thenLabel; jmp elseLabel] b' /\
    currentBlock_ b1 = Some kthen /\
    (forall j, currentBlock_ b2 = Some j -> ends_with j [jmp endLabel] b') /\
    currentBlock_ b3 = Some kelse /\
    (forall j, currentBlock_ b4 = Some j -> ends_with j [jmp endLabel] b') /\
    currentBlock_ b' = Some kend /\
    new_names b b' =
      thenLabel :: new_names b1 b2 ++ elseLabel :: new_names b3 b4 ++ [endLabel] /\
    spread n (labelCounter_ b') (new_names b b') /\
    (forall p a a', build p a = Some a' -> NoDup (labels (new_names a a'))).
Proof.
  intros Hc Hb Hv. cbv zeta.
  pose proof (spread_stmt _ _ _ Hv) as HSP.
  rewrite visit_stmt_if in Hv. cbv zeta in Hv.
  rewrite if_labels_spec in *. cbn [fst snd] in *.
  set (n := labelCounter_ b) in *.
  set (ls := ("then" +:+ "." +:+ to_string n, "else" +:+ "." +:+ to_string (n + 1),
              "endif" +:+ "." +:+ to_string (n + 1 + 1))) in *.
  set (b0 := visit_expr c (set_labelCounter_ (n + 1 + 1 + 1) b)) in *.
  set (b1 := if_then_start ls b0) in *.
  destruct (visit_stmt th b1) as [b2|] eqn:E2; [|discriminate].
  destruct (visit_else el (if_else_start ls b2)) as [b4|] eqn:E4; [|discriminate].
  apply (inj Some) in Hv. subst b'.
  pose proof (if_step c th el b b2 b4) as HN. cbv zeta in HN.
  rewrite if_labels_spec in HN. cbn [fst snd] in HN.
  destruct (HN E2 E4) as ([_ HN'] & _). clear HN.
  exists b2, b4. set (b3 := if_else_start ls b2) in *.
  (* the condition leaves the block structure alone *)
  pose proof (steady_expr c (set_labelCounter_ (n + 1 + 1 + 1) b)) as Hs0.
  fold b0 in Hs0.
  assert (Hc0 : currentBlock_ b0 = Some k) by (rewrite (steady_block _ _ Hs0); exact Hc).
  assert (Hl0 : length (store b0) = length (store b)) by apply (steady_length _ _ Hs0).
  destruct (frame_current _ _ (steady_frame _ _ Hs0) k blk Hc Hb) as [extra Hb0].
  (* then-start *)
  destruct (if_then_start_spec (ls.1.1) (ls.1.2) (ls.2) b0 k _ Hc0 Hb0)
    as (Hl1 & Hc1 & Hbt & Hbk).
  change (if_then_start (ls.1.1, ls.1.2, ls.2) b0) with b1
    in Hl1, Hc1, Hbt, Hbk.
  rewrite Hl0 in *.
  assert (Hk : k < length (store b)) by (eapply lookup_lt_Some; exact Hb).
  assert (Hwf1 : wf b1) by (intros j; rewrite Hc1; intros [= <-]; lia).
  (* the branches *)
  pose proof (frame_stmt th _ _ E2) as F12.
  pose proof (frame_wf _ _ F12 Hwf1) as Hwf2.
  destruct (jump_and_open_spec (ls.2) (ls.1.2) b2) as (Hl3 & Hc3 & Hbe & _).
  change (jump_and_open (ls.2) (ls.1.2) b2) with b3 in Hl3, Hc3, Hbe.
  pose proof (frame_jump_and_open (ls.2) (ls.1.2) b2 : frame b2 b3) as F23.
  pose proof (frame_wf _ _ F23 Hwf2) as Hwf3.
  pose proof (frame_visit_else _ _ _ E4) as F34.
  pose proof (frame_wf _ _ F34 Hwf3) as Hwf4.
  destruct (jump_and_open_spec (ls.2) (ls.2) b4) as (Hl5 & Hc5 & Hbend & _).
  pose proof (frame_jump_and_open (ls.2) (ls.2) b4) as F45.
  change (jump_and_open (ls.2) (ls.2) b4) with (if_end ls b4) in *.
  set (b5 := if_end ls b4) in *.
  pose proof (frame_length _ _ F12) as L12.
  pose proof (frame_length _ _ F34) as L34.
  pose proof (frame_trans _ _ _ F23 (frame_trans _ _ _ F34 F45)) as F25.
  pose proof (frame_trans _ _ _ F12 F25) as F15.
  split_and!; try reflexivity; try assumption; try lia;
    try exact HN'; try exact build_spread.
  - (* then block *)
    destruct (frame_current _ _ F15 _ _ Hc1 Hbt) as [e He].
    eexists; split; [exact He | reflexivity].
  - (* else block *)
    destruct (frame_current _ _ (frame_trans _ _ _ F34 F45) _ _ Hc3 Hbe) as [e He].
    eexists; split; [exact He | reflexivity].
  - (* label counter *)
    pose proof (frame_label _ _ F15). 
    pose proof (frame_label _ _ (frame_if_then_start ls b0)).
    fold b1 in H0. rewrite (steady_label _ _ Hs0) in H0. simpl in H0. lia.
  - (* the old block keeps its name *)
    exists (mkBlock (block_name blk)
              ((instructions_ blk ++ extra) ++
               [jmp_if (fst (popValue b0)) (ls.1.1); jmp (ls.1.2)])).
    split; [|reflexivity].
    rewrite (frame_old _ _ F15 k); [exact Hbk | lia |].
    rewrite Hc1. intros [= ?]; lia.
  - (* ... and ends with the two jumps *)
    apply (ends_with_frame b1); [exact F15 | rewrite Hc1; intros [= ?]; lia |].
    eexists _, _. split; [exact Hbk | reflexivity].
  - (* end of THEN *)
    intros j Hj. apply (ends_with_frame b3).
    + exact (frame_trans _ _ _ F34 F45).
    + rewrite Hc3. intros [= ?]. pose proof (Hwf2 j Hj). lia.
    + apply (jump_and_open_ends (ls.2) (ls.1.2) b2 j Hwf2 Hj).
  - (* end of ELSE *)
    intros j Hj. apply (jump_and_open_ends (ls.2) (ls.2) b4 j Hwf4 Hj).
Qed.

(** *** The trailing return of a function *)

Lemma typeFromString_void ty b :
  fst (typeFromString ty b) = IRType.VOID <-> ty = "void".
Proof.
  unfold typeFromString. repeat case_decide; simpl; subst; split; congruence.
Qed.

Lemma function_prologue_type rt n ps b :
  fst (function_prologue rt n ps b) = fst (typeFromString rt b).
Proof.
  unfold function_prologue. destruct (typeFromString rt b) as [retTy b1].
  destruct (convert_params ps b1) as [params b2].
  match goal with |- context [createBlock ?n ?x] => destruct (createBlock n x) end.
  reflexivity.
Qed.

Lemma lacks_ret_false insts : lacks_ret insts = false <-> last_is_ret insts.
Proof.
  unfold lacks_ret, last_is_ret. destruct (last insts) as [i|].
  - rewrite bool_decide_eq_false. split.
    + intros H. exists i. split; [reflexivity|].
      destruct (decide (opcode_ i = IROpcode.RET)); [assumption|contradiction].
    + intros (j & [= <-] & Hj) Hn. contradiction.
  - split; [discriminate | intros (i & Hi & _); discriminate].
Qed.

(** C5.  When the body of a function declaration has been lowered and
    left a current block, the handler inspects that block: if it is
    empty or its last instruction is not a [RET], one [RET] is put at
    its end, with the integer constant 0 as operand unless the declared
    return type is [void], in which case it has no operand; if the last
    instruction is a [RET], the block stays as it is.  No other block
    changes. *)
Theorem function_trailing_return rt n ps body bl l b b1 k blk :
  visit_list body (snd (function_prologue rt n ps b)) = Some b1 ->
  currentBlock_ b1 = Some k ->
  store b1 !! k = Some blk ->
  exists b',
    visit_stmt (FunctionDeclaration rt n ps body bl l) b = Some b' /\
    length (store b') = length (store b1) /\
    (forall j, j <> k -> store b' !! j = store b1 !! j) /\
    (last_is_ret (instructions_ blk) -> store b' !! k = Some blk) /\
    (~ last_is_ret (instructions_ blk) ->
     store b' !! k =
     Some (mkBlock (block_name blk)
             (instructions_ blk ++
              [ret (if decide (rt = "void") then [] else [IRIntConstant 0])]))).
Proof.
  intros Hbody Hc Hb. rewrite visit_stmt_function, Hbody.
  unfold function_epilogue. rewrite Hc, Hb.
  eexists; split; [reflexivity|].
  destruct (lacks_ret (instructions_ blk)) eqn:E.
  - assert (Hn : ~ last_is_ret (instructions_ blk)).
    { rewrite <- lacks_ret_false. congruence. }
    unfold addInstruction; rewrite Hc; simpl.
    split_and!.
    + apply length_alter.
    + intros j Hj. apply list_lookup_alter_ne. congruence.
    + intros H; contradiction.
    + intros _. rewrite list_lookup_alter_eq, Hb. simpl.
      unfold block_addInstruction, default_ret. repeat f_equal.
      rewrite function_prologue_type.
      pose proof (typeFromString_void rt b) as Hv.
      destruct (decide (fst (typeFromString rt b) = IRType.VOID)) as [H1|H1];
        destruct (decide (rt = "void")) as [H2|H2]; try reflexivity; tauto.
  - apply lacks_ret_false in E. simpl. split_and!; auto. intros H; contradiction.
Qed.

(** *** Calls *)

Lemma visit_args_length args acc b :
  length (fst (visit_args args acc b)) = length acc + length args.
Proof.
  revert acc b; induction args as [|a args IH]; intros acc b; simpl; [lia|].
  destruct (popValue (visit_expr a b)) as [v b1].
  rewrite IH, length_app. simpl. lia.
Qed.

Lemma finish_binary_rename f lhs op b :
  finish_binary (rename_expr f lhs) op b = finish_binary lhs op b.
Proof. destruct lhs; reflexivity. Qed.

Lemma visit_args_rename f args :
  Forall (fun e => forall b, visit_expr (rename_expr f e) b = visit_expr e b) args ->
  forall acc b, visit_args (map (rename_expr f) args) acc b = visit_args args acc b.
Proof.
  induction 1 as [|a args Ha _ IH]; intros acc b; simpl; [reflexivity|].
  rewrite Ha. destruct (popValue (visit_expr a b)) as [v b1]. apply IH.
Qed.

Lemma visit_expr_rename f e b : visit_expr (rename_expr f e) b = visit_expr e b.
Proof.
  revert b.
  induction e as [v l|v l|v l|n l|lhs op rhs l IHl _|op e l IH|c args l IH]
    using Expression_ind; intros b; try reflexivity.
  - cbn [rename_expr visit_expr]. rewrite IHl. apply finish_binary_rename.
  - cbn [rename_expr visit_expr]. rewrite IH. reflexivity.
  - cbn [rename_expr]. rewrite !visit_expr_call, (visit_args_rename f args IH).
    reflexivity.
Qed.

Lemma visit_list_rename f ss :
  Forall (on_some (fun s => forall b, visit_stmt (rename_stmt f s) b = visit_stmt s b)) ss ->
  forall b, visit_list (map (option_map (rename_stmt f)) ss) b = visit_list ss b.
Proof.
  induction 1 as [|[s|] ss Hs _ IH]; intros b; simpl; try reflexivity.
  rewrite Hs. destruct (visit_stmt s b); [apply IH | reflexivity].
Qed.

Lemma visit_stmt_rename f s b : visit_stmt (rename_stmt f s) b = visit_stmt s b.
Proof.
  revert b.
  induction s as [e|ty n i l|ss l IH|c th el l IHth IHel|c body l IH|v l
                 |rt n ps body bl l IH] using Statement_ind; intros b.
  - cbn [rename_stmt visit_stmt]. rewrite visit_expr_rename. reflexivity.
  - cbn [rename_stmt]. rewrite !visit_stmt_var.
    destruct i; simpl; rewrite ?visit_expr_rename; reflexivity.
  - cbn [rename_stmt]. rewrite !visit_stmt_block. apply visit_list_rename, IH.
  - cbn [rename_stmt]. rewrite !visit_stmt_if. cbv zeta.
    rewrite visit_expr_rename, IHth.
    destruct (visit_stmt th _); [|reflexivity].
    destruct el as [stmt|]; cbn [option_map visit_else]; [|reflexivity].
    simpl in IHel. rewrite IHel. reflexivity.
  - cbn [rename_stmt]. rewrite !visit_stmt_while. cbv zeta.
    rewrite visit_expr_rename, IH. reflexivity.
  - cbn [rename_stmt visit_stmt].
    destruct v; simpl; rewrite ?visit_expr_rename; reflexivity.
  - cbn [rename_stmt]. rewrite !visit_stmt_function, (visit_list_rename f body IH).
    reflexivity.
Qed.

(** C9.  The handler of a call lowers the arguments in order and emits
    one [CALL] instruction whose operands are exactly the values the
    arguments produced and whose result is a new [int32] temporary named
    from the temporary counter; that temporary is the value pushed.  The
    callee's name appears nowhere: two calls with the same arguments and
    different callees are lowered alike, and renaming the callees of a
    whole program leaves [build], hence the module and any dump of it,
    unchanged. *)
Theorem call_lowering_forgets_callee :
  (forall callee args l b,
     let vals := fst (visit_args args [] b) in
     let b1 := snd (visit_args args [] b) in
     let temp := mkIdent ("t" +:+ to_string (tempCounter_ b1)) IRType.INT32 in
     length vals = length args /\
     visit_expr (CallExpression callee args l) b =
     push (IRIdent temp)
       (addInstruction (mkInst IROpcode.CALL (Some temp) vals)
          (set_tempCounter_ (tempCounter_ b1 + 1) b1))) /\
  (forall callee callee' args l l' b,
     visit_expr (CallExpression callee args l) b =
     visit_expr (CallExpression callee' args l') b) /\
  (forall f p b, build (rename_callees f p) b = build p b).
Proof.
  split_and!.
  - intros callee args l b. cbv zeta. split.
    + apply (visit_args_length args [] b).
    + rewrite visit_expr_call. reflexivity.
  - intros. rewrite !visit_expr_call. reflexivity.
  - intros f p b. unfold build, visit_program, rename_callees. simpl.
    apply visit_list_rename. apply Forall_forall.
    intros [s|] _; simpl; [intros; apply visit_stmt_rename | exact I].
Qed.

(** *** Statements outside any function *)

Lemma quiet_refl b : quiet b b.
Proof. intros H; auto. Qed.

Lemma quiet_trans b1 b2 b3 : quiet b1 b2 -> quiet b2 b3 -> quiet b1 b3.
Proof.
  intros H1 H2 H. destruct (H1 H) as [M1 F1]. destruct (H2 F1) as [M2 F2].
  split; congruence.
Qed.

Lemma quiet_steady b b' : steady b b' -> quiet b b'.
Proof. intros [] H. split; congruence. Qed.

Lemma quiet_same b b' :
  module_ b' = module_ b -> currentFunction_ b' = currentFunction_ b -> quiet b b'.
Proof. intros M F H. split; congruence. Qed.

Lemma quiet_addInstruction i b : quiet b (addInstruction i b).
Proof. apply quiet_steady, steady_addInstruction. Qed.
Lemma quiet_popValue b : quiet b (snd (popValue b)).
Proof. apply quiet_steady, steady_popValue. Qed.

Lemma quiet_new_block name b :
  quiet b (setCurrentBlock (fst (createBlock name b)) (snd (createBlock name b))).
Proof.
  intros H. unfold createBlock. cbn [currentFunction_ set_store]. rewrite H.
  split; [reflexivity | exact H].
Qed.

Lemma quiet_jump_and_open target name b : quiet b (jump_and_open target name b).
Proof.
  unfold jump_and_open. cbv zeta. rewrite let_createBlock.
  eapply quiet_trans; [apply quiet_addInstruction | apply quiet_new_block].
Qed.

Lemma quiet_if_labels b : quiet b (snd (if_labels b)).
Proof. rewrite if_labels_spec. apply quiet_same; reflexivity. Qed.
Lemma quiet_if_then_start ls b : quiet b (if_then_start ls b).
Proof.
  destruct ls as [[? ?] ?]. rewrite if_then_start_open.
  eapply quiet_trans; [apply quiet_popValue|].
  eapply quiet_trans; [apply quiet_addInstruction | apply quiet_jump_and_open].
Qed.
Lemma quiet_if_else_start ls b : quiet b (if_else_start ls b).
Proof. destruct ls as [[? ?] ?]. rewrite if_else_start_open. apply quiet_jump_and_open. Qed.
Lemma quiet_if_end ls b : quiet b (if_end ls b).
Proof. destruct ls as [[? ?] ?]. rewrite if_end_open. apply quiet_jump_and_open. Qed.
Lemma quiet_while_cond_start b : quiet b (snd (while_cond_start b)).
Proof.
  rewrite while_cond_start_open. cbn [snd].
  eapply quiet_trans; [|apply quiet_jump_and_open]. apply quiet_same; reflexivity.
Qed.
Lemma quiet_while_body_start ls b : quiet b (while_body_start ls b).
Proof.
  destruct ls as [[? ?] ?]. rewrite while_body_start_open.
  eapply quiet_trans; [apply quiet_popValue|].
  eapply quiet_trans; [apply quiet_addInstruction | apply quiet_jump_and_open].
Qed.
Lemma quiet_while_end ls b : quiet b (while_end ls b).
Proof. destruct ls as [[? ?] ?]. rewrite while_end_open. apply quiet_jump_and_open. Qed.
Lemma quiet_typeFromString ty b : quiet b (snd (typeFromString ty b)).
Proof. unfold typeFromString. repeat case_decide; apply quiet_same; reflexivity. Qed.
Lemma quiet_var_declare ty n b : quiet b (snd (var_declare ty n b)).
Proof.
  unfold var_declare. pose proof (quiet_typeFromString ty b) as H.
  destruct (typeFromString ty b) as [ty' b1]. cbn [snd] in *.
  eapply quiet_trans; [exact H|].
  eapply quiet_trans; [|apply quiet_addInstruction]. apply quiet_same; reflexivity.
Qed.
Lemma quiet_var_init v b : quiet b (var_init v b).
Proof.
  unfold var_init. pose proof (quiet_popValue b) as H.
  destruct (popValue b) as [w b1]. cbn [snd] in *.
  eapply quiet_trans; [exact H | apply quiet_addInstruction].
Qed.
Lemma quiet_return_value b : quiet b (return_value b).
Proof.
  unfold return_value. pose proof (quiet_popValue b) as H.
  destruct (popValue b) as [w b1]. cbn [snd] in *.
  eapply quiet_trans; [exact H | apply quiet_addInstruction].
Qed.
Lemma quiet_expression_statement_end b : quiet b (expression_statement_end b).
Proof.
  unfold expression_statement_end.
  destruct (valueStack_ b); apply quiet_same; reflexivity.
Qed.
Lemma quiet_expr e b : quiet b (visit_expr e b).
Proof. apply quiet_steady, steady_expr. Qed.

Lemma quiet_list ss :
  Forall (on_some stmt_quiet) ss ->
  forallb plain_item ss = true ->
  forall b, exists b', visit_list ss b = Some b' /\ quiet b b'.
Proof.
  induction 1 as [|[s|] ss Hs _ IH]; simpl; intros Hp b.
  - eauto using quiet_refl.
  - apply andb_true_iff in Hp as [Hp1 Hp2].
    destruct (Hs Hp1 b) as (b1 & -> & Q1).
    destruct (IH Hp2 b1) as (b2 & -> & Q2).
    eauto using quiet_trans.
  - discriminate.
Qed.

Lemma quiet_stmt s : stmt_quiet s.
Proof.
  induction s as [e|ty n i l|ss l IH|c th el l IHth IHel|c body l IH|v l
                 |rt n ps body bl l IH] using Statement_ind; intros Hp b.
  - cbn [visit_stmt]. eexists; split; [reflexivity|].
    eapply quiet_trans; [apply quiet_expr | apply quiet_expression_statement_end].
  - rewrite visit_stmt_var. destruct i as [e|]; eexists; (split; [reflexivity|]).
    + eapply quiet_trans; [apply quiet_var_declare|].
      eapply quiet_trans; [apply quiet_expr | apply quiet_var_init].
    + apply quiet_var_declare.
  - rewrite visit_stmt_block. apply quiet_list; assumption.
  - cbn [plain] in Hp. apply andb_true_iff in Hp as [Hp1 Hp2].
    rewrite visit_stmt_if. cbv zeta.
    destruct (IHth Hp1 (if_then_start (fst (if_labels b))
                          (visit_expr c (snd (if_labels b))))) as (b2 & -> & Q2).
    assert (exists b3, visit_else el (if_else_start (fst (if_labels b)) b2) = Some b3 /\
                       quiet (if_else_start (fst (if_labels b)) b2) b3)
      as (b3 & -> & Q3).
    { destruct el as [stmt|]; cbn [visit_else].
      - apply (IHel Hp2).
      - eauto using quiet_refl. }
    eexists; split; [reflexivity|].
    eapply quiet_trans; [apply quiet_if_labels|].
    eapply quiet_trans; [apply quiet_expr|].
    eapply quiet_trans; [apply quiet_if_then_start|].
    eapply quiet_trans; [exact Q2|].
    eapply quiet_trans; [apply quiet_if_else_start|].
    eapply quiet_trans; [exact Q3 | apply quiet_if_end].
  - cbn [plain] in Hp. rewrite visit_stmt_while. cbv zeta.
    destruct (IH Hp (while_body_start (fst (while_cond_start b))
                       (visit_expr c (snd (while_cond_start b))))) as (b2 & -> & Q2).
    eexists; split; [reflexivity|].
    eapply quiet_trans; [apply quiet_while_cond_start|].
    eapply quiet_trans; [apply quiet_expr|].
    eapply quiet_trans; [apply quiet_while_body_start|].
    eapply quiet_trans; [exact Q2 | apply quiet_while_end].
  - cbn [visit_stmt]. destruct v as [e|]; eexists; (split; [reflexivity|]).
    + eapply quiet_trans; [apply quiet_expr | apply quiet_return_value].
    + apply quiet_addInstruction.
  - discriminate.
Qed.

Lemma detached_frame b b' :
  frame b b' -> module_ b' = module_ b -> currentFunction_ b' = None ->
  detached b ->
  detached b' /\ forall k, owned b k -> store b' !! k = store b !! k.
Proof.
  intros F M C [_ D]. split; [split; [exact C|]|].
  - intros k Hk. unfold owned in Hk. rewrite M in Hk. destruct (D k Hk) as [Hlt Hne].
    pose proof (frame_length _ _ F). split; [lia|].
    destruct (frame_next _ _ F) as [->| [->|(j & -> & Hj)]];
      [assumption | discriminate | intros [= ->]; lia].
  - intros k Hk. destruct (D k Hk). apply (frame_old _ _ F); assumption.
Qed.

(** C10, as the code has it.  A statement that neither is nor contains
    a function declaration and has no null child, visited while no
    function is current and the current block (if any) belongs to no
    function, is lowered without aborting and without a trace in the
    module: the module is the same, the blocks its functions own are
    the same, and the builder is again outside any function.  The reason
    is that [addInstruction] does nothing without a current block and
    [createBlock] attaches nothing without a current function.  (What
    the handlers write to [cerr] is not touched by this.) *)
Theorem plain_statement_discarded s b :
  plain s = true -> detached b ->
  (exists b',
     visit_stmt s b = Some b' /\ module_ b' = module_ b /\ detached b' /\
     forall k, owned b k -> store b' !! k = store b !! k) /\
  (forall i b0, currentBlock_ b0 = None -> addInstruction i b0 = b0) /\
  (forall name b0, currentFunction_ b0 = None ->
     module_ (snd (createBlock name b0)) = module_ b0).
Proof.
  intros Hp Hd. split_and!.
  - destruct (quiet_stmt s Hp b) as (b' & Hv & Q).
    destruct (Q (proj1 Hd)) as [M C].
    destruct (detached_frame b b' (frame_stmt s _ _ Hv) M C Hd) as [D O].
    exists b'. auto.
  - intros i b0 H. unfold addInstruction. rewrite H. reflexivity.
  - intros name b0 H. unfold createBlock. simpl. rewrite H. reflexivity.
Qed.

(** A program of such statements, built by a new builder, gives a module
    without functions. *)
Corollary plain_program_empty_module p name :
  forallb plain_item (prog_statements p) = true ->
  exists b', build p (new name) = Some b' /\ functions_ (module_ b') = [].
Proof.
  intros Hp. unfold build, visit_program.
  assert (Hall : Forall (on_some stmt_quiet) (prog_statements p)).
  { apply Forall_forall. intros [s|] _; [apply quiet_stmt | exact I]. }
  destruct (quiet_list _ Hall Hp (reset (new name))) as (b' & Hv & Q).
  exists b'. split; [exact Hv|]. destruct (Q eq_refl) as [-> _]. reflexivity.
Qed.

(** *** Programs the builder always gets through *)

Lemma addInstruction_keeps_block i b :
  currentBlock_ (addInstruction i b) = currentBlock_ b.
Proof. apply steady_addInstruction. Qed.

Lemma jump_and_open_current target name b :
  is_Some (currentBlock_ (jump_and_open target name b)).
Proof. destruct (jump_and_open_spec target name b) as (_ & -> & _). eauto. Qed.

Lemma typeFromString_block ty b :
  currentBlock_ (snd (typeFromString ty b)) = currentBlock_ b.
Proof. unfold typeFromString. repeat case_decide; reflexivity. Qed.
Lemma var_declare_block ty n b :
  currentBlock_ (snd (var_declare ty n b)) = currentBlock_ b.
Proof.
  unfold var_declare. pose proof (typeFromString_block ty b) as H.
  destruct (typeFromString ty b) as [ty' b1]. cbn [snd] in *.
  rewrite addInstruction_keeps_block. exact H.
Qed.
Lemma var_init_block v b : currentBlock_ (var_init v b) = currentBlock_ b.
Proof.
  unfold var_init. pose proof (popValue_block b) as H.
  destruct (popValue b) as [w b1]. cbn [snd] in *.
  rewrite addInstruction_keeps_block. exact H.
Qed.
Lemma return_value_block b : currentBlock_ (return_value b) = currentBlock_ b.
Proof.
  unfold return_value. pose proof (popValue_block b) as H.
  destruct (popValue b) as [w b1]. cbn [snd] in *.
  rewrite addInstruction_keeps_block. exact H.
Qed.
Lemma expression_statement_end_block b :
  currentBlock_ (expression_statement_end b) = currentBlock_ b.
Proof. unfold expression_statement_end. destruct (valueStack_ b); reflexivity. Qed.

Lemma keeps_block_list ss :
  Forall (on_some keeps_block) ss -> forallb plain_item ss = true ->
  forall b b', visit_list ss b = Some b' ->
  is_Some (currentBlock_ b) -> is_Some (currentBlock_ b').
Proof.
  induction 1 as [|[s|] ss Hs _ IH]; simpl; intros Hp b b'.
  - some_inv. auto.
  - apply andb_true_iff in Hp as [Hp1 Hp2].
    destruct (visit_stmt s b) as [b1|] eqn:E; [|discriminate].
    intros Hv Hb. apply (IH Hp2 b1 b' Hv). apply (Hs Hp1 b b1 E Hb).
  - discriminate.
Qed.

Lemma keeps_block_stmt s : keeps_block s.
Proof.
  induction s as [e|ty n i l|ss l IH|c th el l IHth IHel|c body l IH|v l
                 |rt n ps body bl l IH] using Statement_ind; intros Hp b b'.
  - cbn [visit_stmt]. some_inv.
    rewrite expression_statement_end_block, (steady_block _ _ (steady_expr e b)). auto.
  - rewrite visit_stmt_var. destruct i as [e|]; some_inv.
    + rewrite var_init_block, (steady_block _ _ (steady_expr e _)), var_declare_block. auto.
    + rewrite var_declare_block. auto.
  - rewrite visit_stmt_block. apply keeps_block_list; assumption.
  - rewrite visit_stmt_if. cbv zeta.
    destruct (visit_stmt th _) as [b2|]; [|discriminate].
    destruct (visit_else el _) as [b3|]; [|discriminate].
    some_inv. intros _. destruct (fst (if_labels b)) as [[tl el'] endl].
    rewrite if_end_open. apply jump_and_open_current.
  - rewrite visit_stmt_while. cbv zeta.
    destruct (visit_stmt body _) as [b2|]; [|discriminate].
    some_inv. intros _. destruct (fst (while_cond_start b)) as [[cl bl] el].
    rewrite while_end_open. apply jump_and_open_current.
  - cbn [visit_stmt]. destruct v as [e|]; some_inv.
    + rewrite return_value_block, (steady_block _ _ (steady_expr e b)). auto.
    + rewrite addInstruction_keeps_block. auto.
  - discriminate.
Qed.

Lemma alloc_params_block params b :
  currentBlock_ (alloc_params params b) = currentBlock_ b.
Proof.
  revert b; induction params as [|p ps IH]; intros b; simpl; [reflexivity|].
  rewrite IH, !addInstruction_keeps_block. reflexivity.
Qed.

Lemma function_prologue_current rt n ps b :
  let b0 := snd (function_prologue rt n ps b) in
  is_Some (currentBlock_ b0) /\ wf b0.
Proof.
  unfold function_prologue.
  destruct (typeFromString rt b) as [retTy b1].
  destruct (convert_params ps b1) as [params b2].
  match goal with |- context [createBlock ?n ?x] =>
    destruct (createBlock_spec n x) as (Es & Ek & _);
    destruct (createBlock n x) as [k b3] end.
  cbn [fst snd] in *. cbv zeta. split.
  - rewrite alloc_params_block. simpl. eauto.
  - apply (frame_wf _ _ (frame_alloc_params params _)).
    intros j. simpl. intros [= <-]. rewrite Es, Ek, length_app. simpl. lia.
Qed.

Lemma function_flat_total rt n ps body bl l b :
  forallb plain_item body = true ->
  exists b', visit_stmt (FunctionDeclaration rt n ps body bl l) b = Some b'.
Proof.
  intros Hp. rewrite visit_stmt_function.
  destruct (function_prologue_current rt n ps b) as [Hc Hwf]. cbv zeta in Hc, Hwf.
  assert (Hq : Forall (on_some stmt_quiet) body).
  { apply Forall_forall. intros [s|] _; [apply quiet_stmt | exact I]. }
  destruct (quiet_list body Hq Hp (snd (function_prologue rt n ps b))) as (b1 & Hv & _).
  rewrite Hv.
  assert (Hk : Forall (on_some keeps_block) body).
  { apply Forall_forall. intros [s|] _; [apply keeps_block_stmt | exact I]. }
  destruct (keeps_block_list body Hk Hp _ _ Hv Hc) as [k Hk1].
  assert (Hf : Forall (on_some stmt_frame) body).
  { apply Forall_forall. intros [s|] _; [apply frame_stmt | exact I]. }
  pose proof (frame_wf _ _ (frame_list body Hf _ _ Hv) Hwf) as Hwf1.
  destruct (wf_lookup _ _ Hwf1 Hk1) as [blk Hblk].
  unfold function_epilogue. rewrite Hk1, Hblk. eauto.
Qed.

(** A program without null statements and without function declarations
    inside blocks or function bodies is lowered to the end. *)
Lemma build_flat_total p b :
  flat p = true -> exists b', build p b = Some b'.
Proof.
  unfold flat, build, visit_program. generalize (reset b). clear b.
  induction (prog_statements p) as [|[s|] ss IH]; simpl; intros b Hp; eauto;
    [|discriminate].
  apply andb_true_iff in Hp as [Hp1 Hp2].
  assert (exists b1, visit_stmt s b = Some b1) as [b1 ->].
  { destruct s; try (destruct (quiet_stmt _ Hp1 b) as (b1 & Hv & _); eauto).
    apply function_flat_total. exact Hp1. }
  apply IH. exact Hp2.
Qed.

(** *** Instances *)

(** [if (x > 0) { y = 1; } else { y = 2; }] inside [f]: the entry block
    ends with the two jumps, the then and else blocks end with the jump to
    the end block, which is current. *)
Lemma if_statement_lowering_witness :
  exists b' blk condition,
    currentBlock_ in_function = Some 0 /\
    store in_function !! 0 = Some blk /\
    visit_stmt (IfStatement x_positive (assign_y 1) (Some (assign_y 2)) here)
      in_function = Some b' /\
    ends_with 0 [jmp_if condition "then.0"; jmp "else.1"] b' /\
    block_named 1 "then.0" b' /\ ends_with 1 [jmp "endif.2"] b' /\
    block_named 2 "else.1" b' /\ ends_with 2 [jmp "endif.2"] b' /\
    store b' !! 3 = Some (mkBlock "endif.2" []) /\
    currentBlock_ b' = Some 3 /\
    new_names in_function b' = ["then.0"; "else.1"; "endif.2"].
Proof.
  assert (H3 : exists b', visit_stmt (IfStatement x_positive (assign_y 1)
                                        (Some (assign_y 2)) here) in_function = Some b').
  { vm_compute. eexists; reflexivity. }
  destruct H3 as [b' H3].
  assert (H1 : currentBlock_ in_function = Some 0) by reflexivity.
  assert (H2 : exists blk, store in_function !! 0 = Some blk).
  { vm_compute. eexists; reflexivity. }
  destruct H2 as [blk H2].
  destruct (if_statement_lowering _ _ _ _ _ _ _ _ H1 H2 H3)
    as (b2 & b4 & _ & E2 & E4 & _ & _ & Nt & Ne & Nend & _ & _ & J0 & _ & Jt & _ & Je & C
        & N & _).
  exists b', blk, (fst (popValue (visit_expr x_positive (snd (if_labels in_function))))).
  vm_compute in E2. apply (inj Some) in E2. subst b2.
  vm_compute in E4. apply (inj Some) in E4. subst b4.
  change (length (store _)) with 2 in Ne.
  change (length (store _)) with 3 in Nend, C.
  pose proof (Jt 1 eq_refl) as Jt1. pose proof (Je 2 eq_refl) as Je2.
  split_and!; assumption.
Defined.

(** The statement of the specification fails where THEN opens blocks of
    its own: in [if (x > 0) { if (x > 0) {} }] the then block [then.0]
    ends with the inner statement's jump to [else.4], and the jump to
    [endif.2] is at the end of the inner statement's end block. *)
Lemma if_then_block_counterexample :
  exists th b' blk,
    currentBlock_ in_function = Some 0 /\
    visit_stmt (IfStatement x_positive th None here) in_function = Some b' /\
    store b' !! length (store in_function) = Some blk /\
    block_name blk = "then.0" /\
    last (instructions_ blk) = Some (jmp "else.4") /\
    ~ ends_with (length (store in_function)) [jmp "endif.2"] b'.
Proof.
  exists (IfStatement x_positive (BlockStatement [] here) None here).
  assert (H : exists b', visit_stmt
                (IfStatement x_positive
                   (IfStatement x_positive (BlockStatement [] here) None here)
                   None here) in_function = Some b').
  { vm_compute. eexists; reflexivity. }
  destruct H as [b' H]. exists b'.
  assert (Hb : exists blk, store b' !! 1 = Some blk /\ block_name blk = "then.0" /\
                           last (instructions_ blk) = Some (jmp "else.4")).
  { vm_compute in H. apply (inj Some) in H. subst b'. vm_compute.
    eexists; split_and!; reflexivity. }
  destruct Hb as (blk & Hb & Hn & Hl). exists blk.
  split_and!; try assumption; try reflexivity.
  intros (blk' & pre & Hb' & Hi).
  change (length (store in_function)) with 1 in Hb'.
  rewrite Hb in Hb'. apply (inj Some) in Hb'. subst blk'.
  rewrite Hi, last_snoc in Hl. discriminate.
Qed.

(** [int g() { }]: the empty entry block gets [ret 0]. *)
Lemma function_trailing_return_witness :
  exists b1 b',
    visit_list [] (snd (function_prologue "int" "g" [] (new "m"))) = Some b1 /\
    currentBlock_ b1 = Some 0 /\
    store b1 !! 0 = Some (mkBlock "entry" []) /\
    visit_stmt (FunctionDeclaration "int" "g" [] [] here here) (new "m") = Some b' /\
    store b' !! 0 = Some (mkBlock "entry" [ret [IRIntConstant 0]]).
Proof.
  exists (snd (function_prologue "int" "g" [] (new "m"))).
  assert (H1 : visit_list [] (snd (function_prologue "int" "g" [] (new "m"))) =
               Some (snd (function_prologue "int" "g" [] (new "m")))) by reflexivity.
  assert (H2 : currentBlock_ (snd (function_prologue "int" "g" [] (new "m"))) = Some 0)
    by reflexivity.
  assert (H3 : store (snd (function_prologue "int" "g" [] (new "m"))) !! 0 =
               Some (mkBlock "entry" [])) by reflexivity.
  destruct (function_trailing_return "int" "g" [] [] here here (new "m") _ 0 _ H1 H2 H3)
    as (b' & Hv & _ & _ & _ & Hret).
  exists b'. split_and!; try assumption.
  rewrite Hret; [reflexivity|].
  intros (i & Hi & _). discriminate.
Defined.

(** [print(1);] at the top of a program given to a new builder. *)
Lemma plain_statement_discarded_witness :
  plain (ExpressionStatement (CallExpression "print" [IntegerLiteral 1 here] here)) = true /\
  detached (new "m") /\
  exists b',
    visit_stmt (ExpressionStatement (CallExpression "print" [IntegerLiteral 1 here] here))
      (new "m") = Some b' /\
    module_ b' = module_ (new "m").
Proof.
  assert (H1 : plain (ExpressionStatement
                        (CallExpression "print" [IntegerLiteral 1 here] here)) = true)
    by reflexivity.
  assert (H2 : detached (new "m")).
  { split; [reflexivity|]. intros k (f & Hf & _). vm_compute in Hf. inversion Hf. }
  destruct (plain_statement_discarded _ _ H1 H2) as [(b' & Hv & Hm & _) _].
  split_and!; try assumption. exists b'. split; assumption.
Defined.

(** The statement of the specification fails in three ways.  A
    top-level statement still writes the diagnostics of its lowering:
    [x;] reports the unknown variable.  A top-level block may hold a
    function declaration, which adds a function to the module:
    [{ int h() { } }].  And a statement that the parser could not read
    is left in its block as a null pointer, which the handler of the
    block dereferences: [{ ) ; }]. *)
Lemma top_level_statement_counterexample :
  (exists b',
     build (mkProgram [Some (ExpressionStatement (VariableExpression "x" here))])
       (new "m") = Some b' /\
     functions_ (module_ b') = [] /\
     cerr b' = ["Error: Variable 'x' not found."]) /\
  (exists b',
     build (mkProgram
              [Some (BlockStatement
                       [Some (FunctionDeclaration "int" "h" [] [] here here)] here)])
       (new "m") = Some b' /\
     length (functions_ (module_ b')) = 1) /\
  (exists p,
     front_end no_range_error "{ ) ; }" =
       Parser.Ok (mkProgram [Some (BlockStatement [None] (mkLoc 1 1))]) p /\
     build (mkProgram [Some (BlockStatement [None] (mkLoc 1 1))]) (new "m") = None).
Proof.
  split_and!.
  - vm_compute; eexists; split_and!; reflexivity.
  - vm_compute; eexists; split_and!; reflexivity.
  - eexists. split; vm_compute; reflexivity.
Qed.

(** ** Further properties of the builder *)

(** X5.  Lowering [int main() { return 1 + 2; }] gives one function
    [main] with one block, [entry], which holds an [add] followed by a
    [ret] of the result of the [add]; the operands of the [add] are the
    placeholder 0 and the constant 1, and the empty operand stack is
    reported once. *)
Theorem lower_main_add_ret (stof_out_of_range : string -> bool) :
  exists prog p b',
    front_end stof_out_of_range "int main() { return 1 + 2; }" = Parser.Ok prog p /\
    build prog (new "m") = Some b' /\
    functions_ (module_ b') = [mkFunction "main" IRType.INT32 [] [0]] /\
    store b' =
      [mkBlock "entry"
         [mkInst IROpcode.ADD (Some (mkIdent "t0" IRType.INT32))
            [IRIntConstant 0; IRIntConstant 1];
          mkInst IROpcode.RET None [IRIdent (mkIdent "t0" IRType.INT32)]]] /\
    cerr b' = ["Error: Value stack is empty."].
Proof.
  eexists _, _, _. split; [vm_compute; reflexivity|].
  split; [vm_compute; reflexivity|]. split_and!; vm_compute; reflexivity.
Qed.


(** X7.  [build] returns a module for every program that has no null
    statement and no function declaration inside a block or a function
    body. *)
Theorem build_total_on_flat_programs p b :
  flat p = true -> exists b', build p b = Some b'.
Proof. apply build_flat_total. Qed.

Lemma build_total_on_flat_programs_witness :
  exists b',
    build (mkProgram [Some (FunctionDeclaration "void" "f" []
                              [Some (WhileStatement (IntegerLiteral 1 here)
                                       (BlockStatement [] here) here)] here here)])
      (new "m") = Some b'.
Proof. apply build_total_on_flat_programs. reflexivity. Defined.

Lemma while_body_start_then cl bl endl b :
  while_body_start (cl, bl, endl) b = if_then_start (bl, endl, cl) b.
Proof. rewrite while_body_start_open, if_then_start_open. reflexivity. Qed.

(** X10.  Lowering [while (C) BODY] with a current block takes the
    labels [while.cond.n], [while.body.n+1] and [while.end.n+2] from the
    label counter [n]; the block that was current ends with the jump to
    the condition block, which is new and becomes current; C is lowered
    there and the block ends with the conditional jump to the body block
    followed by the jump to the end block; BODY is lowered starting in
    the new body block, and the block that is current when it is done
    ends with the jump back to the condition block; the end block, new
    and empty, becomes current. *)
Theorem while_statement_lowering c body l b b' k blk :
  currentBlock_ b = Some k -> store b !! k = Some blk ->
  visit_stmt (WhileStatement c body l) b = Some b' ->
  let n := labelCounter_ b in
  let condLabel := "while.cond" +:+ "." +:+ to_string n in
  let bodyLabel := "while.body" +:+ "." +:+ to_string (n + 1) in
  let endLabel := "while.end" +:+ "." +:+ to_string (n + 1 + 1) in
  let ls := (condLabel, bodyLabel, endLabel) in
  let b0 := snd (while_cond_start b) in
  let b1 := visit_expr c b0 in
  let condition := fst (popValue b1) in
  let b2 := while_body_start ls b1 in
  exists b3 : t,
    let kcond := length (store b) in
    let kbody := S (length (store b)) in
    let kend := length (store b3) in
    fst (while_cond_start b) = ls /\
    visit_stmt body b2 = Some b3 /\
    b' = while_end ls b3 /\
    kbody < kend /\
    ends_with k [jmp condLabel] b' /\
    currentBlock_ b0 = Some kcond /\
    block_named kcond condLabel b' /\
    ends_with kcond [jmp_if condition bodyLabel; jmp endLabel] b' /\
    currentBlock_ b2 = Some kbody /\
    block_named kbody bodyLabel b' /\
    (forall j, currentBlock_ b3 = Some j -> ends_with j [jmp condLabel] b') /\
    store b' !! kend = Some (mkBlock endLabel []) /\
    currentBlock_ b' = Some kend.
Proof.
  intros Hc Hb Hv. cbv zeta.
  rewrite visit_stmt_while in Hv. cbv zeta in Hv.
  rewrite while_cond_start_open in *. cbn [fst snd] in *.
  set (n := labelCounter_ b) in *.
  set (condLabel := "while.cond" +:+ "." +:+ to_string n) in *.
  set (bodyLabel := "while.body" +:+ "." +:+ to_string (n + 1)) in *.
  set (endLabel := "while.end" +:+ "." +:+ to_string (n + 1 + 1)) in *.
  set (a := set_labelCounter_ (n + 1 + 1 + 1) b) in *.
  set (b0 := jump_and_open condLabel condLabel a) in *.
  set (b1 := visit_expr c b0) in *.
  rewrite while_body_start_then in *.
  set (b2 := if_then_start (bodyLabel, endLabel, condLabel) b1) in *.
  destruct (visit_stmt body b2) as [b3|] eqn:E3; [|discriminate].
  apply (inj Some) in Hv. subst b'. exists b3.
  rewrite while_end_open.
  assert (Hk : k < length (store b)) by (eapply lookup_lt_Some; exact Hb).
  (* the condition block is opened *)
  destruct (jump_and_open_spec condLabel condLabel a) as (Hl0 & Hc0 & Hb0 & Hk0).
  fold b0 in Hl0, Hc0, Hb0, Hk0. change (store a) with (store b) in *.
  specialize (Hk0 k blk Hc Hb).
  pose proof (frame_jump_and_open condLabel condLabel a : frame a b0) as F0.
  (* the condition is lowered into it *)
  pose proof (steady_expr c b0) as Hs1. fold b1 in Hs1.
  assert (Hc1 : currentBlock_ b1 = Some (length (store b)))
    by (rewrite (steady_block _ _ Hs1); exact Hc0).
  assert (Hl1 : length (store b1) = S (length (store b)))
    by (rewrite (steady_length _ _ Hs1); exact Hl0).
  destruct (frame_current _ _ (steady_frame _ _ Hs1) _ _ Hc0 Hb0) as [extra Hb1].
  (* the body block is opened *)
  destruct (if_then_start_spec bodyLabel endLabel condLabel b1 _ _ Hc1 Hb1)
    as (Hl2 & Hc2 & Hb2 & Hbc).
  fold b2 in Hl2, Hc2, Hb2, Hbc. rewrite Hl1 in *.
  pose proof (frame_if_then_start (bodyLabel, endLabel, condLabel) b1 : frame b1 b2) as F12.
  assert (Hwf2 : wf b2) by (intros j; rewrite Hc2; intros [= <-]; lia).
  (* the body *)
  pose proof (frame_stmt body _ _ E3) as F23.
  pose proof (frame_wf _ _ F23 Hwf2) as Hwf3.
  destruct (jump_and_open_spec condLabel endLabel b3) as (Hl4 & Hc4 & Hb4 & _).
  pose proof (frame_jump_and_open condLabel endLabel b3) as F34.
  set (b4 := jump_and_open condLabel endLabel b3) in *.
  pose proof (frame_length _ _ F23) as L23.
  pose proof (frame_trans _ _ _ F23 F34) as F24.
  pose proof (frame_trans _ _ _ F12 F24) as F14.
  pose proof (frame_trans _ _ _ (steady_frame _ _ Hs1) F14) as F04.
  split_and!; try reflexivity; try assumption; try lia.
  - (* the block that was current *)
    apply (ends_with_frame b0); [exact F04 | rewrite Hc0; intros [= ?]; lia |].
    eexists _, _. split; [exact Hk0 | reflexivity].
  - (* the condition block *)
    exists (mkBlock condLabel
              (([] ++ extra) ++ [jmp_if (fst (popValue b1)) bodyLabel; jmp endLabel])).
    split; [|reflexivity].
    rewrite (frame_old _ _ F24); [exact Hbc | lia | rewrite Hc2; intros [= ?]; lia].
  - apply (ends_with_frame b2); [exact F24 | rewrite Hc2; intros [= ?]; lia |].
    eexists _, _. split; [exact Hbc | reflexivity].
  - (* the body block *)
    destruct (frame_current _ _ F24 _ _ Hc2 Hb2) as [e He].
    eexists; split; [exact He | reflexivity].
  - (* end of the body *)
    intros j Hj. apply (jump_and_open_ends condLabel endLabel b3 j Hwf3 Hj).
Qed.

Lemma while_statement_lowering_witness :
  exists b' blk condition,
    currentBlock_ in_function = Some 0 /\
    store in_function !! 0 = Some blk /\
    visit_stmt (WhileStatement x_positive (assign_y 1) here) in_function = Some b' /\
    ends_with 0 [jmp "while.cond.0"] b' /\
    block_named 1 "while.cond.0" b' /\
    ends_with 1 [jmp_if condition "while.body.1"; jmp "while.end.2"] b' /\
    block_named 2 "while.body.1" b' /\
    ends_with 2 [jmp "while.cond.0"] b' /\
    store b' !! 3 = Some (mkBlock "while.end.2" []) /\
    currentBlock_ b' = Some 3.
Proof.
  assert (H3 : exists b', visit_stmt (WhileStatement x_positive (assign_y 1) here)
                            in_function = Some b').
  { vm_compute. eexists; reflexivity. }
  destruct H3 as [b' H3].
  assert (H1 : currentBlock_ in_function = Some 0) by reflexivity.
  assert (H2 : exists blk, store in_function !! 0 = Some blk).
  { vm_compute. eexists; reflexivity. }
  destruct H2 as [blk H2].
  destruct (while_statement_lowering _ _ _ _ _ _ _ H1 H2 H3)
    as (b3 & _ & E3 & _ & _ & J0 & _ & Nc & Jc & _ & Nb & Jb & Nend & C).
  exists b', blk,
    (fst (popValue (visit_expr x_positive (snd (while_cond_start in_function))))).
  vm_compute in E3. apply (inj Some) in E3. subst b3.
  change (length (store _)) with 3 in Nend, C.
  pose proof (Jb 2 eq_refl) as Jb2.
  split_and!; assumption.
Defined.

Lemma NoDup_filter_lookup {A} (P : A -> Prop) `{!forall x, Decision (P x)}
    (l : list A) i j x :
  NoDup (filter P l) -> l !! i = Some x -> l !! j = Some x -> P x -> i = j.
Proof.
  revert i j. induction l as [|a l IH]; intros i j N Hi Hj Hx; [discriminate|].
  assert (Hin : forall k, l !! k = Some x -> a <> x).
  { intros k Hk ->. rewrite filter_cons_True in N by exact Hx.
    apply NoDup_cons in N as [N _]. apply N.
    apply list_elem_of_filter. split; [exact Hx|]. eapply list_elem_of_lookup_2, Hk. }
  assert (N' : NoDup (filter P l)).
  { rewrite filter_cons in N. destruct (decide (P a));
      [apply NoDup_cons in N as [_ N]|]; exact N. }
  destruct i as [|i], j as [|j]; simpl in *.
  - reflexivity.
  - apply (inj Some) in Hi. destruct (Hin j Hj Hi).
  - apply (inj Some) in Hj. destruct (Hin i Hi Hj).
  - f_equal. eapply IH; eassumption.
Qed.

(** X8.  The label counter is not reset within one [build]: two blocks
    that one [build] adds and that carry the same label (a name other
    than "entry") are the same block. *)
Theorem build_labels_distinct p b b' i j name :
  build p b = Some b' ->
  new_names b b' !! i = Some name -> new_names b b' !! j = Some name ->
  name <> "entry" -> i = j.
Proof.
  intros H Hi Hj Hn.
  exact (NoDup_filter_lookup (fun x => x <> "entry") _ i j name
           (build_spread p b b' H) Hi Hj Hn).
Qed.

Lemma build_labels_distinct_witness :
  exists b',
    build two_ifs (new "m") = Some b' /\
    new_names (new "m") b' =
      ["entry"; "then.0"; "else.1"; "endif.2"; "entry"; "then.3"; "else.4"; "endif.5"] /\
    5 = 5.
Proof.
  assert (H : exists b', build two_ifs (new "m") = Some b' /\
     new_names (new "m") b' =
      ["entry"; "then.0"; "else.1"; "endif.2"; "entry"; "then.3"; "else.4"; "endif.5"]).
  { vm_compute. eexists; split; reflexivity. }
  destruct H as (b' & H & N). exists b'. split_and!; [exact H | exact N |].
  apply (build_labels_distinct two_ifs (new "m") b' 5 5 "then.3" H).
  - rewrite N. reflexivity.
  - rewrite N. reflexivity.
  - discriminate.
Defined.

End IRBuilderFacts.

(** * Properties of the semantic analyzer *)

Module SemanticAnalyzerFacts.
Import SemanticAnalyzer.

Lemma lookup_chain a chain n :
  currentScope_ a = chain -> chain <> [] -> lookup a n = Some (findSymbol chain n).
Proof.
  intros H1 H2. unfold lookup. rewrite H1.
  destruct chain; [contradiction | reflexivity].
Qed.

(** C6.  The handler of a variable declaration looks the name up through
    the whole chain of scopes: when the name is not in the current scope
    and the nearest enclosing scope that has it holds a variable, the
    declaration is reported as a redefinition (and nothing is declared).
    The analysis of [int x = 1; { int x = 2; }] reports exactly that, at
    the inner [x]. *)
Theorem redeclaration_checks_whole_chain a ty n init loc inner outer sym :
  currentScope_ a = inner :: outer ->
  inner !! n = None ->
  findSymbol outer n = Some sym ->
  symbolType sym = VARIABLE ->
  visit_stmt (VarDeclaration ty n init loc) a =
    Some (addError ("Redefinition of variable '" +:+ n +:+ "'") loc a) /\
  (forall stof_out_of_range, exists prog p a',
     front_end stof_out_of_range shadowing_source = Parser.Ok prog p /\
     analyze prog new = Some a' /\
     errors_ a' = [mkError "Redefinition of variable 'x'" (mkLoc 1 18)]).
Proof.
  intros Hc Hi Ho Hs. split.
  - cbn [visit_stmt]. rewrite (lookup_chain a (inner :: outer)); [|assumption|discriminate].
    cbn [findSymbol]. rewrite Hi, Ho, Hs. reflexivity.
  - intros oor. eexists _, _, _.
    split; [vm_compute; reflexivity|].
    split; vm_compute; reflexivity.
Qed.

Lemma redeclaration_checks_whole_chain_witness :
  findSymbol [global_x] "x" = Some (variable_symbol "int" "x" (mkLoc 1 5)) /\
  visit_stmt (VarDeclaration "int" "x" None (mkLoc 1 18)) (mk [∅; global_x] "" [] []) =
    Some (addError "Redefinition of variable 'x'" (mkLoc 1 18)
            (mk [∅; global_x] "" [] [])).
Proof.
  assert (H : findSymbol [global_x] "x" = Some (variable_symbol "int" "x" (mkLoc 1 5)))
    by (vm_compute; reflexivity).
  split; [exact H|].
  apply (proj1 (redeclaration_checks_whole_chain (mk [∅; global_x] "" [] []) "int" "x"
                  None (mkLoc 1 18) ∅ [global_x] _ eq_refl (lookup_empty "x") H eq_refl)).
Defined.

(** C8, as the code has it.  When the analyzer visits a call whose callee
    resolves through the scope chain to a function symbol with [n]
    parameter types and the call has [m] arguments, [m] different from
    [n], the handler appends the diagnostic "Function 'f' expects n
    arguments, but got m" at the call's location and returns (the
    arguments are not visited).  The IR builder lowers every program that
    has no null statement and no function declaration inside a block or a
    function body, whatever its calls.  The analysis of
    [int f(int a) { return a; } int g() { return f(1, 2); }] reports
    exactly that diagnostic, and the program is lowered. *)
Theorem arity_mismatch_reported a callee args loc sym :
  lookup a callee = Some (Some sym) ->
  symbolType sym = FUNCTION ->
  length args <> length (paramTypes sym) ->
  visit_expr (CallExpression callee args loc) a =
    Some (addError (arity_message callee (length (paramTypes sym)) (length args)) loc a) /\
  (forall p b, flat p = true -> exists b', IRBuilder.build p b = Some b') /\
  (forall stof_out_of_range, exists prog p a' b',
     front_end stof_out_of_range arity_source = Parser.Ok prog p /\
     analyze prog new = Some a' /\
     errors_ a' = [mkError "Function 'f' expects 1 arguments, but got 2" (mkLoc 1 51)] /\
     IRBuilder.build prog (IRBuilder.new "m") = Some b').
Proof.
  intros Hl Hs Hn. split_and!.
  - cbn [visit_expr]. rewrite Hl.
    destruct (decide (symbolType sym <> FUNCTION)) as [H|_]; [contradiction|].
    destruct (decide (length args <> length (paramTypes sym))) as [_|H];
      [reflexivity | contradiction].
  - apply IRBuilderFacts.build_flat_total.
  - intros oor. eexists _, _, _, _.
    split; [vm_compute; reflexivity|].
    split; [vm_compute; reflexivity|].
    split; vm_compute; reflexivity.
Qed.

Lemma arity_mismatch_reported_witness :
  lookup global_f "f" = Some (Some f_symbol) /\
  visit_expr (CallExpression "f" [IntegerLiteral 1 (mkLoc 1 47);
                                  IntegerLiteral 2 (mkLoc 1 50)] (mkLoc 1 51)) global_f =
    Some (addError "Function 'f' expects 1 arguments, but got 2" (mkLoc 1 51) global_f).
Proof.
  assert (H : lookup global_f "f" = Some (Some f_symbol)) by (vm_compute; reflexivity).
  split; [exact H|].
  refine (proj1 (arity_mismatch_reported global_f "f" _ (mkLoc 1 51) f_symbol H eq_refl _)).
  vm_compute. discriminate.
Defined.

(** The statement of the specification fails in three ways.  The
    analyzer works in one pass, so a call that comes before the
    declaration of its callee finds no symbol:
    [int g() { return f(1, 2); } int f(int a) { return a; }] gets
    "Undefined function" and no word on the arity.  A call that the
    analyzer does not visit is not checked: the value of a [return]
    outside any function is skipped, so
    [int f(int a) { return a; } return f(1, 2);] gets the diagnostic of
    the [return] alone.  And the builder does not get through every
    program: after the nested declaration in
    [int f(int a) { return a; } int g() { return f(1, 2); int h() { } }]
    there is no current block when [g] is finished, and the handler
    aborts. *)
Lemma arity_mismatch_counterexample :
  (exists prog p a',
     front_end no_range_error "int g() { return f(1, 2); } int f(int a) { return a; }" =
       Parser.Ok prog p /\
     analyze prog new = Some a' /\
     map message (errors_ a') =
       ["Undefined function 'f'"; "Cannot return unknown from function returning int"]) /\
  (exists prog p a',
     front_end no_range_error "int f(int a) { return a; } return f(1, 2);" =
       Parser.Ok prog p /\
     analyze prog new = Some a' /\
     errors_ a' = [mkError "Return statement outside of function" (mkLoc 1 28)]) /\
  (exists prog p a',
     front_end no_range_error
       "int f(int a) { return a; } int g() { return f(1, 2); int h() { } }" =
       Parser.Ok prog p /\
     analyze prog new = Some a' /\
     errors_ a' = [mkError "Function 'f' expects 1 arguments, but got 2" (mkLoc 1 51)] /\
     IRBuilder.build prog (IRBuilder.new "m") = None).
Proof.
  split_and!.
  - eexists _, _, _.
    split; [vm_compute; reflexivity|]. split; vm_compute; reflexivity.
  - eexists _, _, _.
    split; [vm_compute; reflexivity|]. split; vm_compute; reflexivity.
  - eexists _, _, _.
    split; [vm_compute; reflexivity|].
    split; [vm_compute; reflexivity|]. split; vm_compute; reflexivity.
Qed.

(** ** The analysis runs to its end *)

Lemma lookup_scoped a n : scoped a -> exists r, lookup a n = Some r.
Proof.
  unfold scoped, lookup. destruct (currentScope_ a); [contradiction|]. eauto.
Qed.

Lemma getExpressionType_scoped e a : scoped a -> exists ty, getExpressionType a e = Some ty.
Proof.
  intros Ha. induction e as [v l|v l|v l|n l|lhs op rhs l [tl IHl] [tr IHr]|op e l IH|c args l _]
    using Expression_ind; cbn [getExpressionType]; eauto.
  - destruct (lookup_scoped a n Ha) as [[sym|] ->]; [destruct (decide _)|]; eauto.
  - rewrite IHl, IHr. destruct (_ || _); eauto.
  - destruct (lookup_scoped a c Ha) as [[sym|] ->]; [destruct (decide _)|]; eauto.
Qed.

Lemma scoped_calm a a' : calm a a' -> scoped a -> scoped a'.
Proof. unfold calm, scoped. intros ->. auto. Qed.

Lemma calm_trans a1 a2 a3 : calm a1 a2 -> calm a2 a3 -> calm a1 a3.
Proof. unfold calm. congruence. Qed.

Lemma calm_addError m l a : calm a (addError m l a).
Proof. reflexivity. Qed.

Lemma calm_check_binary lhs op loc lt rt a : calm a (check_binary lhs op loc lt rt a).
Proof.
  unfold check_binary, calm.
  repeat first [progress cbn [currentScope_ addError] | case_match]; reflexivity.
Qed.

Lemma calm_check_unary op loc ty a : calm a (check_unary op loc ty a).
Proof.
  unfold check_unary.
  repeat match goal with
         | |- calm _ (if ?b then _ else _) => destruct b
         end; reflexivity.
Qed.

Lemma calm_check_argument c i pt aty loc a : calm a (check_argument c i pt aty loc a).
Proof. unfold check_argument. destruct (isTypeCompatible _ _); reflexivity. Qed.

Lemma calm_check_condition w loc ty a : calm a (check_condition w loc ty a).
Proof. unfold check_condition. destruct (bool_decide _); reflexivity. Qed.

Lemma visit_expr_total e : expr_total e.
Proof.
  induction e as [v l|v l|v l|n l|lhs op rhs l IHl IHr|op e l IH|c args l IH]
    using Expression_ind; intros a Ha; cbn [visit_expr].
  - eexists; split; reflexivity.
  - eexists; split; reflexivity.
  - eexists; split; reflexivity.
  - destruct (lookup_scoped a n Ha) as [[sym|] ->]; [destruct (decide _)|];
      eexists; split; reflexivity.
  - destruct (IHl a Ha) as (a1 & -> & C1).
    destruct (IHr a1 (scoped_calm _ _ C1 Ha)) as (a2 & -> & C2).
    pose proof (scoped_calm _ _ C2 (scoped_calm _ _ C1 Ha)) as H2.
    destruct (getExpressionType_scoped lhs a2 H2) as [tl ->].
    destruct (getExpressionType_scoped rhs a2 H2) as [tr ->].
    eexists; split; [reflexivity|].
    eapply calm_trans; [exact C1|]. eapply calm_trans; [exact C2|].
    apply calm_check_binary.
  - destruct (IH a Ha) as (a1 & -> & C1).
    destruct (getExpressionType_scoped e a1 (scoped_calm _ _ C1 Ha)) as [ty ->].
    eexists; split; [reflexivity|].
    eapply calm_trans; [exact C1 | apply calm_check_unary].
  - destruct (lookup_scoped a c Ha) as [[sym|] ->]; [|eexists; split; reflexivity].
    destruct (decide _) as [|_]; [eexists; split; reflexivity|].
    destruct (decide _) as [|_]; [eexists; split; reflexivity|].
    generalize (paramTypes sym) 0. clear sym. revert a Ha.
    induction IH as [|arg args Harg _ IHargs]; intros a Ha params i.
    + eexists; split; reflexivity.
    + destruct params as [|pt params]; [eexists; split; reflexivity|].
      destruct (Harg a Ha) as (a1 & -> & C1).
      pose proof (scoped_calm _ _ C1 Ha) as H1.
      destruct (getExpressionType_scoped arg a1 H1) as [ty ->].
      match goal with |- context [check_argument ?c ?i ?p ?t ?l ?x] =>
        pose proof (calm_check_argument c i p t l x) as C2;
        destruct (IHargs _ (scoped_calm _ _ C2 H1) params (S i)) as (a3 & E3 & C3)
      end.
      exists a3. split; [exact E3|].
      eapply calm_trans; [exact C1|]. eapply calm_trans; [exact C2 | exact C3].
Qed.

Lemma analyzer_visit_block ss l a :
  visit_stmt (BlockStatement ss l) a =
  match visit_list ss (enterScope a) with
  | Some a => Some (exitScope a)
  | None => None
  end.
Proof. reflexivity. Qed.

Lemma analyzer_visit_function rt n ps body bl loc a :
  visit_stmt (FunctionDeclaration rt n ps body bl loc) a =
  match lookup a n with
  | None => None
  | Some (Some _) => Some (addError ("Redefinition of function '" +:+ n +:+ "'") loc a)
  | Some None =>
      match declare (function_symbol rt n ps loc) a with
      | None => None
      | Some a1 =>
          match declare_params ps (enterScope (set_returnType rt a1)) with
          | None => None
          | Some a2 =>
              match visit_list body (enterScope a2) with
              | None => None
              | Some a3 =>
                  Some (set_returnType (currentFunctionReturnType_ a1)
                          (exitScope (exitScope a3)))
              end
          end
      end
  end.
Proof. reflexivity. Qed.

Lemma whole_block ss l : whole (BlockStatement ss l) = forallb whole_item ss.
Proof. reflexivity. Qed.

Lemma whole_function rt n ps body bl loc :
  whole (FunctionDeclaration rt n ps body bl loc) = forallb whole_item body.
Proof. reflexivity. Qed.

Lemma level_refl a : level a a.
Proof. reflexivity. Qed.

Lemma level_trans a1 a2 a3 : level a1 a2 -> level a2 a3 -> level a1 a3.
Proof. unfold level. congruence. Qed.

Lemma level_calm a a' : calm a a' -> level a a'.
Proof. unfold calm, level. intros ->. reflexivity. Qed.

Lemma scoped_level a a' : level a a' -> scoped a -> scoped a'.
Proof.
  unfold level, scoped. intros H Ha E. rewrite E in H.
  destruct (currentScope_ a); [contradiction | discriminate].
Qed.

Lemma declare_scoped sym a : scoped a -> exists a', declare sym a = Some a' /\ level a a'.
Proof.
  unfold scoped, declare, level. destruct (currentScope_ a); [contradiction|].
  intros _. eexists; split; reflexivity.
Qed.

Lemma declare_params_scoped ps a :
  scoped a -> exists a', declare_params ps a = Some a' /\ level a a'.
Proof.
  revert a. induction ps as [|p ps IH]; intros a Ha; simpl.
  - eexists; split; reflexivity.
  - destruct (declare_scoped (variable_symbol (param_type p) (param_name p)
                                (param_location p)) a Ha) as (a1 & -> & L1).
    destruct (IH a1 (scoped_level _ _ L1 Ha)) as (a2 & E & L2).
    exists a2. split; [exact E | eapply level_trans; eassumption].
Qed.

Lemma scoped_enterScope a : scoped (enterScope a).
Proof. discriminate. Qed.

Lemma level_exit_enter a a' : level (enterScope a) a' -> level a (exitScope a').
Proof.
  unfold level. simpl. intros H. destruct (currentScope_ a'); simpl in *; lia.
Qed.

Lemma visit_list_total ss :
  Forall (on_some stmt_total) ss -> forallb whole_item ss = true ->
  forall a, scoped a -> exists a', visit_list ss a = Some a' /\ level a a'.
Proof.
  induction 1 as [|[s|] ss Hs _ IH]; simpl; intros Hw a Ha.
  - eexists; split; reflexivity.
  - apply andb_prop in Hw as [Hw1 Hw2].
    destruct (Hs Hw1 a Ha) as (a1 & -> & L1).
    destruct (IH Hw2 a1 (scoped_level _ _ L1 Ha)) as (a2 & E & L2).
    exists a2. split; [exact E | eapply level_trans; eassumption].
  - discriminate.
Qed.

Lemma visit_stmt_total s : stmt_total s.
Proof.
  induction s as [e|ty n i l|ss l IH|c th el l IHth IHel|c body l IH|v l
                 |rt n ps body bl l IH] using Statement_ind; intros Hw a Ha.
  - cbn [visit_stmt]. destruct (visit_expr_total e a Ha) as (a1 & -> & C).
    eexists; split; [reflexivity | apply level_calm, C].
  - cbn [visit_stmt]. destruct (lookup_scoped a n Ha) as [r ->].
    destruct (match r with Some symbol => bool_decide (symbolType symbol = VARIABLE)
                         | None => false end).
    { eexists; split; reflexivity. }
    destruct (declare_scoped (variable_symbol ty n l) a Ha) as (a1 & -> & L1).
    pose proof (scoped_level _ _ L1 Ha) as H1.
    destruct i as [e|]; [|eexists; split; [reflexivity | exact L1]].
    destruct (visit_expr_total e a1 H1) as (a2 & -> & C2).
    destruct (getExpressionType_scoped e a2 (scoped_calm _ _ C2 H1)) as [ty' ->].
    destruct (isTypeCompatible ty' ty); eexists; (split; [reflexivity|]);
      eapply level_trans; try exact L1; apply level_calm, C2.
  - rewrite analyzer_visit_block. rewrite whole_block in Hw.
    destruct (visit_list_total ss IH Hw _ (scoped_enterScope a)) as (a1 & -> & L1).
    eexists; split; [reflexivity | apply level_exit_enter, L1].
  - cbn [whole] in Hw. apply andb_prop in Hw as [Hw1 Hw2].
    cbn [visit_stmt]. destruct (visit_expr_total c a Ha) as (a1 & -> & C1).
    pose proof (scoped_calm _ _ C1 Ha) as H1.
    destruct (getExpressionType_scoped c a1 H1) as [ty ->].
    pose proof (calm_check_condition "If" l ty a1) as C2.
    pose proof (scoped_calm _ _ C2 H1) as H2.
    destruct (IHth Hw1 _ H2) as (a3 & -> & L3).
    pose proof (level_trans _ _ _ (level_calm _ _ (calm_trans _ _ _ C1 C2)) L3) as L.
    destruct el as [s|].
    + destruct (IHel Hw2 a3 (scoped_level _ _ L Ha)) as (a4 & E & L4).
      exists a4. split; [exact E | eapply level_trans; eassumption].
    + eexists; split; [reflexivity | exact L].
  - cbn [whole] in Hw. cbn [visit_stmt].
    destruct (visit_expr_total c a Ha) as (a1 & -> & C1).
    pose proof (scoped_calm _ _ C1 Ha) as H1.
    destruct (getExpressionType_scoped c a1 H1) as [ty ->].
    pose proof (calm_check_condition "While" l ty a1) as C2.
    destruct (IH Hw _ (scoped_calm _ _ C2 H1)) as (a3 & E & L3).
    exists a3. split; [exact E|].
    eapply level_trans; [apply level_calm, (calm_trans _ _ _ C1 C2) | exact L3].
  - cbn [visit_stmt]. destruct (decide _); [eexists; split; reflexivity|].
    destruct v as [e|].
    + destruct (visit_expr_total e a Ha) as (a1 & -> & C1).
      destruct (getExpressionType_scoped e a1 (scoped_calm _ _ C1 Ha)) as [ty ->].
      destruct (isTypeCompatible _ _); eexists; (split; [reflexivity|]);
        apply level_calm, C1.
    + destruct (decide _); eexists; split; reflexivity.
  - rewrite analyzer_visit_function. rewrite whole_function in Hw.
    destruct (lookup_scoped a n Ha) as [[sym|] ->]; [eexists; split; reflexivity|].
    destruct (declare_scoped (function_symbol rt n ps l) a Ha) as (a1 & -> & L1).
    destruct (declare_params_scoped ps (enterScope (set_returnType rt a1))
                (scoped_enterScope _)) as (a2 & -> & L2).
    destruct (visit_list_total body IH Hw _ (scoped_enterScope a2)) as (a3 & -> & L3).
    eexists; split; [reflexivity|].
    apply level_exit_enter in L3. pose proof (level_trans _ _ _ L2 L3) as L4.
    apply (level_exit_enter (set_returnType rt a1)) in L4.
    eapply level_trans; [exact L1 | exact L4].
Qed.

(** X11.  The analysis of a program without null statements runs to its
    end, whatever errors it reports: no handler dereferences a null
    scope, since the scopes that are entered and left are balanced. *)
Theorem analyze_total p a :
  whole_program p = true -> scoped a -> exists a', analyze p a = Some a'.
Proof.
  intros Hw Ha. unfold analyze, visit_program.
  set (a0 := mk (global_only (currentScope_ a)) _ _ _).
  assert (H0 : scoped a0).
  { unfold scoped, a0, global_only. simpl.
    destruct (last (currentScope_ a)) eqn:E; [discriminate|].
    apply last_None in E. contradiction. }
  destruct (declare_scoped print_symbol a0 H0) as (a1 & -> & L1).
  assert (Hall : Forall (on_some stmt_total) (prog_statements p)).
  { apply Forall_forall. intros [s|] _; [apply visit_stmt_total | exact I]. }
  destruct (visit_list_total _ Hall Hw a1 (scoped_level _ _ L1 H0)) as (a2 & E & _).
  exists a2. exact E.
Qed.

Lemma analyze_total_witness :
  exists a',
    analyze (mkProgram [Some (FunctionDeclaration "int" "f" [mkParam "int" "a" here]
                                [Some (ReturnStatement (Some (VariableExpression "a" here))
                                         here)] here here)]) new = Some a'.
Proof. apply analyze_total; [reflexivity | discriminate]. Defined.

End SemanticAnalyzerFacts.
